(** * pulsar: cooperative greenlet pool and worker request accounting

    A shallow embedding of

    - [pulsar/apps/greenio/__init__.py]: [wait], [GreenPool] and the
      greenlets it drives from the host event loop;
    - [pulsar/workers/base.py]: [Worker.handle_request],
      [Worker.check_num_requests], [Worker._stop], [Worker._run];
    - [pulsar/workers/async.py]: [AsyncWorker.handle_request].

    Python objects are modelled by explicit state passing: every method
    takes the state of the objects it touches and returns the new one. *)

From stdpp Require Import base gmap sets list strings.
From Stdlib Require Import ZArith Lia.

Local Open Scope Z_scope.

(** ** Python basics shared by the three source files *)

Module Py.

(** The exception classes the sources name or that decide one of their
    [except] clauses.  [KeyboardInterrupt] and [SystemExit] derive from
    [BaseException] only, the others from [Exception]. *)
Inductive exn_class :=
| StopIteration
| RuntimeError
| IndexError
| OtherException
| KeyboardInterrupt
| SystemExit.

Record exn := Exn { exn_cls : exn_class; exn_msg : string }.

(** [isinstance(e, Exception)]: what [except Exception] catches.  A bare
    [except:] catches every [exn]. *)
Definition is_Exception (e : exn) : bool :=
  match exn_cls e with
  | KeyboardInterrupt | SystemExit => false
  | _ => true
  end.

(** [isinstance(e, StopIteration)] *)
Definition is_StopIteration (e : exn) : bool :=
  match exn_cls e with
  | StopIteration => true
  | _ => false
  end.

(** Outcome of a call: it returns a value or raises. *)
Inductive result (A : Type) :=
| Ok (a : A)
| Err (e : exn).
Arguments Ok {A} a.
Arguments Err {A} e.

(** [x or d] on an optional integer: [None] and [0] are falsy. *)
Definition or_int (x : option Z) (d : Z) : Z :=
  match x with
  | None => d
  | Some m => if decide (m = 0) then d else m
  end.

(** Methods of an object with state [S]: state passing with exceptions. *)
Definition M (S A : Type) : Type := S → result A * S.

Definition ret {S A} (a : A) : M S A := λ s, (Ok a, s).

Definition raise {S A} (e : exn) : M S A := λ s, (Err e, s).

Definition bind {S A B} (m : M S A) (f : A → M S B) : M S B :=
  λ s, match m s with
       | (Ok a, s') => f a s'
       | (Err e, s') => (Err e, s')
       end.

(** [try: body finally: fin] *)
Definition try_finally {S A} (body : M S A) (fin : M S unit) : M S A :=
  λ s, let '(r, s1) := body s in
       match fin s1 with
       | (Ok _, s2) => (r, s2)
       | (Err e, s2) => (Err e, s2)
       end.

(** [try: body except: pass] *)
Definition try_except_pass {S} (body : M S unit) : M S unit :=
  λ s, let '(_, s1) := body s in (Ok tt, s1).

Declare Scope py_scope.
Delimit Scope py_scope with py.
Notation "x ← y ; z" := (bind y (λ x, z))
  (at level 20, y at level 100, z at level 200, only parsing) : py_scope.
Notation "x ;; z" := (bind x (λ _, z))
  (at level 100, z at level 200, only parsing, right associativity) : py_scope.

End Py.

Import Py.

(** ** pulsar/apps/greenio/__init__.py *)

Module Greenio.

Definition _DEFAULT_WORKERS : Z := 100.
Definition _MAX_WORKERS : Z := 1000.

Definition gid := nat.   (* identity of a GreenletWorker *)
Definition fid := nat.   (* identity of a Future made by the pool *)
Definition aid := nat.   (* identity of an awaitable made by task code *)

(** Values that travel through [switch] and [wait]. *)
Inductive value :=
| VNone
| VEmptyTuple              (* what a [switch()] without argument delivers *)
| VInt (z : Z)
| VAwaitable (a : aid).    (* a future-like object of the host loop *)

(** [is_async(result)] *)
Definition is_async (v : value) : bool :=
  match v with
  | VAwaitable _ => true
  | _ => false
  end.

(** The behaviour of one call [func( *args, **kwargs)]: it returns, raises,
    or calls [wait(value)] and goes on with what [wait] returns. *)
Inductive code :=
| Return (v : value)
| Raise (e : exn)
| Wait (v : value) (k : value -> code).

(** A queued task [(future, func, args, kwargs)]; the sentinel [None] of
    the queue is [None : option task]. *)
Definition task : Type := fid * code.

(** Greenlets: the main greenlet of the event-loop thread and the
    [GreenletWorker]s of the pool.  [_put] and [_check_queue] "run in the
    main greenlet of the event-loop thread", so every worker is created
    there and has the main greenlet as its parent; the main greenlet has
    none and is always active (so [if parent] holds for every worker). *)
Inductive glet :=
| Main
| Worker (g : gid).

Definition parent (current : glet) : option glet :=
  match current with
  | Main => None
  | Worker _ => Some Main
  end.

(** [wait(value)]: [return parent.switch(value) if parent else value].
    Either the call returns at once, or the current greenlet switches to
    its parent carrying [value]; in that case [wait] returns what the next
    [switch] into the greenlet passes (see [greenlet_switch]). *)
Inductive wait_outcome :=
| WaitReturns (v : value)
| WaitSwitches (p : glet) (v : value).

Definition wait (current : glet) (v : value) : wait_outcome :=
  match parent current with
  | Some p => WaitSwitches p v
  | None => WaitReturns v
  end.

(** Code that runs on the main line, outside any pooled context. *)
Fixpoint run_main (c : code) : result value :=
  match c with
  | Return v => Ok v
  | Raise e => Err e
  | Wait v k =>
      match wait Main v with
      | WaitReturns r => run_main (k r)
      | WaitSwitches _ _ => Err (Exn RuntimeError "no parent to switch to")
      end
  end.

(** Where a pool greenlet is suspended. *)
Inductive gstatus :=
| GIdle                                  (* at [task = parent.switch()] *)
| GWaiting (fut : fid) (k : value -> code) (* inside [func], at [wait] *)
| GDead.

Inductive fstate :=
| Pending
| Done (r : result value).

(** Callbacks in the ready queue of the host loop. *)
Inductive callback :=
| CbCheckQueue                           (* [call_soon(self._check_queue)] *)
| CbStart (g : gid) (t : option task)    (* first step of [_green_task(g, t)] *)
| CbResume (g : gid) (r : result value). (* [_green_task] woken by its awaitable *)

Record world := World {
  (* attributes of the GreenPool *)
  _max_workers : Z;
  _greenlets : gset gid;
  _available : gset gid;
  _queue : list (option task);   (* the deque, left end first *)
  _shutdown : bool;
  _waiter : option fid;
  (* greenlets and futures *)
  gstate : gmap gid gstatus;
  next_gid : gid;
  futures : gmap fid fstate;
  next_fid : fid;
  awaitables : gmap aid (result value);   (* settled awaitables *)
  (* the host loop *)
  ready : list callback;
  blocked : list (aid * gid);    (* coroutines suspended in [yield from] *)
  task_errors : list exn;        (* exceptions that ended a [_green_task] *)
  (* history *)
  submitted : list fid;
  dispatched : list (gid * option fid);
  dropped : list (option fid)
}.

Definition set_greenlets (x : gset gid) (w : world) : world :=
  World (_max_workers w) x (_available w) (_queue w) (_shutdown w) (_waiter w)
        (gstate w) (next_gid w) (futures w) (next_fid w) (awaitables w)
        (ready w) (blocked w) (task_errors w)
        (submitted w) (dispatched w) (dropped w).

Definition set_available (x : gset gid) (w : world) : world :=
  World (_max_workers w) (_greenlets w) x (_queue w) (_shutdown w) (_waiter w)
        (gstate w) (next_gid w) (futures w) (next_fid w) (awaitables w)
        (ready w) (blocked w) (task_errors w)
        (submitted w) (dispatched w) (dropped w).

Definition set_queue (x : list (option task)) (w : world) : world :=
  World (_max_workers w) (_greenlets w) (_available w) x (_shutdown w) (_waiter w)
        (gstate w) (next_gid w) (futures w) (next_fid w) (awaitables w)
        (ready w) (blocked w) (task_errors w)
        (submitted w) (dispatched w) (dropped w).

Definition set_shutdown (x : bool) (w : world) : world :=
  World (_max_workers w) (_greenlets w) (_available w) (_queue w) x (_waiter w)
        (gstate w) (next_gid w) (futures w) (next_fid w) (awaitables w)
        (ready w) (blocked w) (task_errors w)
        (submitted w) (dispatched w) (dropped w).

Definition set_waiter (x : option fid) (w : world) : world :=
  World (_max_workers w) (_greenlets w) (_available w) (_queue w) (_shutdown w) x
        (gstate w) (next_gid w) (futures w) (next_fid w) (awaitables w)
        (ready w) (blocked w) (task_errors w)
        (submitted w) (dispatched w) (dropped w).

Definition set_gstate (g : gid) (s : gstatus) (w : world) : world :=
  World (_max_workers w) (_greenlets w) (_available w) (_queue w) (_shutdown w)
        (_waiter w)
        (<[g := s]> (gstate w)) (next_gid w) (futures w) (next_fid w) (awaitables w)
        (ready w) (blocked w) (task_errors w)
        (submitted w) (dispatched w) (dropped w).

Definition set_next_gid (x : gid) (w : world) : world :=
  World (_max_workers w) (_greenlets w) (_available w) (_queue w) (_shutdown w)
        (_waiter w)
        (gstate w) x (futures w) (next_fid w) (awaitables w)
        (ready w) (blocked w) (task_errors w)
        (submitted w) (dispatched w) (dropped w).

Definition set_future (f : fid) (s : fstate) (w : world) : world :=
  World (_max_workers w) (_greenlets w) (_available w) (_queue w) (_shutdown w)
        (_waiter w)
        (gstate w) (next_gid w) (<[f := s]> (futures w)) (next_fid w) (awaitables w)
        (ready w) (blocked w) (task_errors w)
        (submitted w) (dispatched w) (dropped w).

Definition set_next_fid (x : fid) (w : world) : world :=
  World (_max_workers w) (_greenlets w) (_available w) (_queue w) (_shutdown w)
        (_waiter w)
        (gstate w) (next_gid w) (futures w) x (awaitables w)
        (ready w) (blocked w) (task_errors w)
        (submitted w) (dispatched w) (dropped w).

Definition set_awaitables (x : gmap aid (result value)) (w : world) : world :=
  World (_max_workers w) (_greenlets w) (_available w) (_queue w) (_shutdown w)
        (_waiter w)
        (gstate w) (next_gid w) (futures w) (next_fid w) x
        (ready w) (blocked w) (task_errors w)
        (submitted w) (dispatched w) (dropped w).

Definition set_ready (x : list callback) (w : world) : world :=
  World (_max_workers w) (_greenlets w) (_available w) (_queue w) (_shutdown w)
        (_waiter w)
        (gstate w) (next_gid w) (futures w) (next_fid w) (awaitables w)
        x (blocked w) (task_errors w)
        (submitted w) (dispatched w) (dropped w).

Definition set_blocked (x : list (aid * gid)) (w : world) : world :=
  World (_max_workers w) (_greenlets w) (_available w) (_queue w) (_shutdown w)
        (_waiter w)
        (gstate w) (next_gid w) (futures w) (next_fid w) (awaitables w)
        (ready w) x (task_errors w)
        (submitted w) (dispatched w) (dropped w).

Definition set_task_errors (x : list exn) (w : world) : world :=
  World (_max_workers w) (_greenlets w) (_available w) (_queue w) (_shutdown w)
        (_waiter w)
        (gstate w) (next_gid w) (futures w) (next_fid w) (awaitables w)
        (ready w) (blocked w) x
        (submitted w) (dispatched w) (dropped w).

Definition set_submitted (x : list fid) (w : world) : world :=
  World (_max_workers w) (_greenlets w) (_available w) (_queue w) (_shutdown w)
        (_waiter w)
        (gstate w) (next_gid w) (futures w) (next_fid w) (awaitables w)
        (ready w) (blocked w) (task_errors w)
        x (dispatched w) (dropped w).

Definition set_dispatched (x : list (gid * option fid)) (w : world) : world :=
  World (_max_workers w) (_greenlets w) (_available w) (_queue w) (_shutdown w)
        (_waiter w)
        (gstate w) (next_gid w) (futures w) (next_fid w) (awaitables w)
        (ready w) (blocked w) (task_errors w)
        (submitted w) x (dropped w).

Definition set_dropped (x : list (option fid)) (w : world) : world :=
  World (_max_workers w) (_greenlets w) (_available w) (_queue w) (_shutdown w)
        (_waiter w)
        (gstate w) (next_gid w) (futures w) (next_fid w) (awaitables w)
        (ready w) (blocked w) (task_errors w)
        (submitted w) (dispatched w) x.

(** *** Futures and the host loop

    [Future], [async] and the event loop come from [pulsar] itself and are
    not part of the three files; they are modelled as asyncio has them. *)

(** [Future(loop=self._loop)] *)
Definition new_future (w : world) : fid * world :=
  (next_fid w, set_next_fid (S (next_fid w)) (set_future (next_fid w) Pending w)).

Definition set_result (f : fid) (v : value) (w : world) : world :=
  set_future f (Done (Ok v)) w.

Definition set_exception (f : fid) (e : exn) (w : world) : world :=
  set_future f (Done (Err e)) w.

Definition future_state (w : world) (f : fid) : fstate :=
  default Pending (futures w !! f).

(** [loop.call_soon(cb)] *)
Definition call_soon (cb : callback) (w : world) : world :=
  set_ready (ready w ++ [cb]) w.

(** Modelled from the spec: [async(coro, loop=...)] of [pulsar], which is
    not in the source files.  The coroutine becomes a task of the host
    loop ("runs on the host event loop, one per in-flight task"): its
    first step is a callback of the loop. *)
Definition async (g : gid) (t : option task) (w : world) : world :=
  call_soon (CbStart g t) w.

(** Modelled from the spec: [yield from result] inside [_green_task].  "The
    invoker suspends on the host loop until that awaitable settles, then
    resumes the context with the settled value": the coroutine is woken
    by a callback of the loop, at once when the awaitable has settled. *)
Definition yield_from (a : aid) (g : gid) (w : world) : world :=
  match awaitables w !! a with
  | Some r => call_soon (CbResume g r) w
  | None => set_blocked (blocked w ++ [(a, g)]) w
  end.

(** *** GreenPool *)

(** [GreenPool.__init__(max_workers)] *)
Definition __init__ (max_workers : option Z) : world :=
  World (Z.min (or_int max_workers _DEFAULT_WORKERS) _MAX_WORKERS)
        ∅ ∅ [] false None
        ∅ 0%nat ∅ 0%nat ∅
        [] [] []
        [] [] [].

(** [_green_run], from the top of the [while task] loop to
    [task = parent.switch()]: the greenlet registers itself as available,
    schedules a queue check and switches back to its parent. *)
Definition _green_run_idle (g : gid) (w : world) : world :=
  set_gstate g GIdle
    (call_soon CbCheckQueue (set_available ({[g]} ∪ _available w) w)).

(** [_adjust_greenlet_count] *)
Definition _adjust_greenlet_count (w : world) : world :=
  if decide (Z.of_nat (size (_greenlets w)) < _max_workers w) then
    let g := next_gid w in
    let w1 := set_next_gid (S g) w in
    let w2 := set_greenlets ({[g]} ∪ _greenlets w1) w1 in
    _green_run_idle g w2        (* [greenlet.switch()] *)
  else w.

(** [self._queue.pop()]: the right end of the deque. *)
Definition queue_pop (q : list (option task))
  : option (option task * list (option task)) :=
  match reverse q with
  | [] => None
  | t :: r => Some (t, reverse r)
  end.

(** [self._available.pop()]: Python removes an arbitrary element; the
    model takes the first one of [elements]. *)
Definition available_pop (s : gset gid) : option (gid * gset gid) :=
  match elements s with
  | [] => None
  | g :: _ => Some (g, s ∖ {[g]})
  end.

Definition task_future (t : option task) : option fid := fst <$> t.

(** [_check_queue] *)
Definition _check_queue (w : world) : world :=
  match queue_pop (_queue w) with
  | None => w                                       (* IndexError *)
  | Some (t, q) =>
      let w1 := set_queue q w in
      match available_pop (_available w1) with
      | Some (g, s) =>
          async g t
            (set_dispatched (dispatched w1 ++ [(g, task_future t)])
               (set_available s w1))
      | None =>                                     (* [t] is forgotten *)
          set_dropped (dropped w1 ++ [task_future t]) w1
      end
  end.

(** [_put(task)]; a task tuple is truthy, the sentinel [None] is not. *)
Definition _put (t : option task) (w : world) : world :=
  let w1 := match t with
            | Some _ => _adjust_greenlet_count w
            | None => w
            end in
  _check_queue (set_queue (t :: _queue w1) w1).

(** What the parent gets back from [greenlet.switch(...)]. *)
Inductive switched :=
| SwValue (v : value)      (* the greenlet switched back, or returned *)
| SwRaise (e : exn).       (* the greenlet died with [e] *)

(** [_green_run], the [if task:] branch: [func] runs inside greenlet [g]
    until it returns, raises or switches to the parent in [wait]. *)
Fixpoint run_func (g : gid) (fut : fid) (c : code) (w : world)
  : switched * world :=
  match c with
  | Return v =>
      (SwValue VEmptyTuple, _green_run_idle g (set_result fut v w))
  | Raise e =>
      if is_Exception e
      then (SwValue VEmptyTuple, _green_run_idle g (set_exception fut e w))
      else (SwRaise e, set_gstate g GDead w)
  | Wait v k =>
      match wait (Worker g) v with
      | WaitSwitches _ v' => (SwValue v', set_gstate g (GWaiting fut k) w)
      | WaitReturns r => run_func g fut (k r) w
      end
  end.

(** [_green_run], the [else:] branch: the greenlet got the sentinel. *)
Definition _green_run_exit (g : gid) (w : world) : switched * world :=
  let w1 := set_greenlets (_greenlets w ∖ {[g]}) w in
  let w2 :=
    if decide (_greenlets w1 = ∅) then
      match _waiter w1 with
      | Some f => set_waiter None (set_result f VNone w1)
      | None => w1
      end
    else _put None w1 in
  (SwValue VNone, set_gstate g GDead w2).

(** What is passed to [greenlet.switch]. *)
Inductive switch_arg :=
| ArgTask (t : option task)
| ArgValue (v : value).

(** [greenlet.switch(x)] from the main greenlet: [g] resumes where it is
    suspended and runs until it switches back or finishes.  An idle
    greenlet takes [x] as its next task, a greenlet inside [wait] takes it
    as the value [wait] returns.  The pool passes nothing else. *)
Definition greenlet_switch (g : gid) (x : switch_arg) (w : world)
  : switched * world :=
  match gstate w !! g, x with
  | Some GIdle, ArgTask (Some (fut, c)) => run_func g fut c w
  | Some GIdle, ArgTask None => _green_run_exit g w
  | Some (GWaiting fut k), ArgValue v => run_func g fut (k v) w
  | _, _ => (SwValue VNone, w)
  end.

(** [_green_task]: [while is_async(result): result =
    greenlet.switch((yield from result))], after one [switch]. *)
Definition _green_task_loop (g : gid) (r : switched) (w : world) : world :=
  match r with
  | SwValue v =>
      match v with
      | VAwaitable a => yield_from a g w
      | _ => w
      end
  | SwRaise e => set_task_errors (task_errors w ++ [e]) w
  end.

(** [_green_task]: [result = greenlet.switch(task)] and the loop. *)
Definition _green_task (g : gid) (t : option task) (w : world) : world :=
  let '(r, w1) := greenlet_switch g (ArgTask t) w in
  _green_task_loop g r w1.

(** [_green_task] woken up: the awaited value goes into the greenlet; an
    awaitable that failed raises in [_green_task] itself. *)
Definition _green_task_wakeup (g : gid) (r : result value) (w : world)
  : world :=
  match r with
  | Ok v =>
      let '(r', w1) := greenlet_switch g (ArgValue v) w in
      _green_task_loop g r' w1
  | Err e => set_task_errors (task_errors w ++ [e]) w
  end.

Definition PoolClosed : exn :=
  Exn RuntimeError "cannot schedule new futures after shutdown".

(** [submit(func, *args, **kwargs)].  The pool is driven by the main
    greenlet of one thread, so [self._shutdown_lock] is free at every
    call and [with self._shutdown_lock] changes nothing. *)
Definition submit (c : code) (w : world) : result fid * world :=
  if _shutdown w then (Err PoolClosed, w)
  else
    let '(f, w1) := new_future w in
    let w2 := set_submitted (submitted w1 ++ [f]) w1 in
    (Ok f, _put (Some (f, c)) w2).

(** [shutdown(wait)] *)
Definition shutdown (wait : bool) (w : world) : option fid * world :=
  let w1 := _put None (set_shutdown true w) in
  if wait then
    let '(f, w2) := new_future w1 in
    (Some f, set_waiter (Some f) w2)
  else (None, w1).

(** *** The host loop and the environment *)

Definition run_callback (cb : callback) (w : world) : world :=
  match cb with
  | CbCheckQueue => _check_queue w
  | CbStart g t => _green_task g t w
  | CbResume g r => _green_task_wakeup g r w
  end.

(** One iteration of the loop: the oldest ready callback runs. *)
Definition run_once (w : world) : world :=
  match ready w with
  | [] => w
  | cb :: rest => run_callback cb (set_ready rest w)
  end.

(** An awaitable settles: the coroutines suspended on it become ready. *)
Definition settle (a : aid) (r : result value) (w : world) : world :=
  match awaitables w !! a with
  | Some _ => w
  | None =>
      let woken := filter (λ b, b.1 = a) (blocked w) in
      let rest := filter (λ b, b.1 ≠ a) (blocked w) in
      set_ready (ready w ++ map (λ b, CbResume b.2 r) woken)
        (set_blocked rest (set_awaitables (<[a := r]> (awaitables w)) w))
  end.

(** What can happen to a pool, seen from the main greenlet. *)
Inductive op :=
| OpSubmit (c : code)
| OpShutdown (wait : bool)
| OpLoop
| OpSettle (a : aid) (r : result value).

Definition apply_op (o : op) (w : world) : world :=
  match o with
  | OpSubmit c => (submit c w).2
  | OpShutdown b => (shutdown b w).2
  | OpLoop => run_once w
  | OpSettle a r => settle a r w
  end.

Definition run_ops (ops : list op) (w : world) : world :=
  foldl (λ w o, apply_op o w) w ops.


(** *** Reading the record through its setters *)

Ltac wsimpl :=
  cbn [_max_workers _greenlets _available _queue _shutdown _waiter gstate
       next_gid futures next_fid awaitables ready blocked task_errors
       submitted dispatched dropped fst snd
       set_result set_exception async call_soon new_future
       set_greenlets set_available set_queue set_shutdown set_waiter
       set_gstate set_next_gid set_future set_next_fid set_awaitables
       set_ready set_blocked set_task_errors set_submitted set_dispatched
       set_dropped] in *.

(** *** What the internal methods leave alone

    [steady w w']: the bound and the shutdown flag are those of [w], and
    no greenlet has been added. *)

Definition steady (w w' : world) : Prop :=
  _max_workers w' = _max_workers w ∧
  _shutdown w' = _shutdown w ∧
  _greenlets w' ⊆ _greenlets w.

(** [_adjust_greenlet_count] is the only place a greenlet is added, and it
    adds one only below the bound. *)
Definition grows (w w' : world) : Prop :=
  _max_workers w' = _max_workers w ∧
  (_greenlets w' ⊆ _greenlets w ∨
   (Z.of_nat (size (_greenlets w)) < _max_workers w ∧
    _greenlets w' = {[next_gid w]} ∪ _greenlets w)).

(** The claim of C6 as it is written: the number of live greenlets never
    exceeds the bound of the pool. *)
Definition live_within_bound : Prop :=
  ∀ max_workers ops,
    Z.of_nat (size (_greenlets (run_ops ops (__init__ max_workers))))
      ≤ _max_workers (__init__ max_workers).

(** *** Tasks seen from the submitter *)

(** The futures of the dispatched tasks, in dispatch order (sentinels
    left out). *)
Definition dispatched_tasks (w : world) : list fid :=
  omap snd (dispatched w).






(** [finishes c rs]: how the call [c] ends when its successive [wait]s
    return the values [rs]. *)
Fixpoint finishes (c : code) (rs : list value) : option (result value) :=
  match c, rs with
  | Return v, [] => Some (Ok v)
  | Raise e, [] => Some (Err e)
  | Wait _ k, r :: rs' => finishes (k r) rs'
  | _, _ => None
  end.

(** [_green_task] is woken with each value of [rs] in turn. *)
Fixpoint wake (g : gid) (rs : list value) (w : world) : world :=
  match rs with
  | [] => w
  | r :: rs' => wake g rs' (_green_task_wakeup g (Ok r) w)
  end.

(** The claim of C5 as it is written: however the call of a dispatched
    task ends, its future holds that end, and no exception comes out of
    the greenlet to end [_green_task] on the host loop. *)
Definition every_end_is_captured : Prop :=
  ∀ g fut c rs w r,
    gstate w !! g = Some GIdle →
    finishes c rs = Some r →
    let w' := wake g rs (_green_task g (Some (fut, c)) w) in
    future_state w' fut = Done r ∧ task_errors w' = task_errors w.

Definition keyboard_interrupt : exn := Exn KeyboardInterrupt "interrupted".

(** Nothing in the pool, its greenlets or the loop holds the task of the
    pending future [f] any more. *)
Definition cb_future (cb : callback) : option fid :=
  match cb with
  | CbStart _ t => task_future t
  | _ => None
  end.

Definition gstatus_future (s : gstatus) : option fid :=
  match s with
  | GWaiting fut _ => Some fut
  | _ => None
  end.

Definition forgotten (f : fid) (w : world) : Prop :=
  futures w !! f = Some Pending ∧
  (f < next_fid w)%nat ∧
  _waiter w ≠ Some f ∧
  Forall (λ t, task_future t ≠ Some f) (_queue w) ∧
  Forall (λ cb, cb_future cb ≠ Some f) (ready w) ∧
  map_Forall (λ _ s, gstatus_future s ≠ Some f) (gstate w).

(** A pool that was shut down before it had any greenlet. *)
Definition stillborn (w : world) : Prop :=
  _shutdown w = true ∧ _greenlets w = ∅ ∧ _available w = ∅ ∧
  _queue w = [] ∧ ready w = [] ∧ blocked w = [].

(** The futures the pool has made so far are those below [next_fid]. *)
Definition pending_waiter (f : fid) (w : world) : Prop :=
  futures w !! f = Some Pending ∧ (f < next_fid w)%nat.

(** The scenario of the spec: a pool of two, five tasks, task [i] sleeps
    (it waits for the awaitable [i]) and then returns [i]. *)
Definition sleep_then_return (i : nat) : code :=
  Wait (VAwaitable i) (λ _, Return (VInt (Z.of_nat i))).

Definition five_submits : list op :=
  map (λ i, OpSubmit (sleep_then_return i)) (seq 0 5).

(** The loop runs until nothing is ready, all five sleeps end, and the
    loop runs again. *)
Definition sleeps_end : list op :=
  repeat OpLoop 8 ++ map (λ i, OpSettle i (Ok VNone)) (seq 0 5)
    ++ repeat OpLoop 8.

(** *** The greenlets and the loop *)

(** The greenlet a callback of the loop will switch into. *)
Definition cb_greenlet (cb : callback) : option gid :=
  match cb with
  | CbCheckQueue => None
  | CbStart g _ => Some g
  | CbResume g _ => Some g
  end.

(** The greenlets some [_green_task] still has to switch into: those of
    the ready callbacks, then those whose coroutine is suspended in
    [yield from]. *)
Definition engaged (w : world) : list gid :=
  omap cb_greenlet (ready w) ++ (snd <$> blocked w).

Definition waiting (w : world) (g : gid) : Prop :=
  ∃ fut k, gstate w !! g = Some (GWaiting fut k).

(** The callback finds its greenlet where it expects it: a task or a
    sentinel goes to a greenlet suspended at [task = parent.switch()], an
    awaited value to a greenlet suspended in [wait]. *)
Definition cb_ok (w : world) (cb : callback) : Prop :=
  match cb with
  | CbCheckQueue => True
  | CbStart g _ => gstate w !! g = Some GIdle
  | CbResume g _ => waiting w g
  end.

Definition blocked_ok (w : world) (b : aid * gid) : Prop :=
  awaitables w !! b.1 = None ∧ waiting w b.2.

(** The bookkeeping of the pool agrees with its greenlets. *)
Definition consistent (w : world) : Prop :=
  _available w ⊆ _greenlets w ∧
  (∀ g, g ∈ _greenlets w → (g < next_gid w)%nat) ∧
  (∀ g, g ∈ _available w → gstate w !! g = Some GIdle) ∧
  NoDup (engaged w) ∧
  (∀ g, g ∈ engaged w → g ∈ _greenlets w ∧ g ∉ _available w) ∧
  Forall (cb_ok w) (ready w) ∧
  Forall (blocked_ok w) (blocked w).

(** Greenlet [g] of the pool is neither available nor awaited by the
    loop: it is running, or nothing will ever switch into it again. *)
Definition detached (g : gid) (w : world) : Prop :=
  g ∈ _greenlets w ∧ (g ∉ _available w) ∧ (g ∉ engaged w).

(** Nothing in the pool, its greenlets or the loop mentions the future
    [f]. *)
Definition unreferenced (f : fid) (w : world) : Prop :=
  _waiter w ≠ Some f ∧
  Forall (λ t, task_future t ≠ Some f) (_queue w) ∧
  Forall (λ cb, cb_future cb ≠ Some f) (ready w) ∧
  map_Forall (λ _ s, gstatus_future s ≠ Some f) (gstate w).

(** [untouched f w w']: from [w] to [w'] the future [f], which nothing
    mentioned, is still not mentioned and is what it was. *)
Definition untouched (f : fid) (w w' : world) : Prop :=
  unreferenced f w' ∧ futures w' !! f = futures w !! f ∧
  (next_fid w ≤ next_fid w')%nat.

(** The futures the pool has not made yet are mentioned nowhere. *)
Definition fresh_ids (w : world) : Prop :=
  ∀ f : fid, (next_fid w ≤ f)%nat → unreferenced f w ∧ futures w !! f = None.

(** Where the task of a submit ends up. *)
Definition has_capacity (w : world) : Prop :=
  Z.of_nat (size (_greenlets w)) < _max_workers w ∨ _available w ≠ ∅.

(** *** Who holds a future

    A future made by the pool is held by the task that will resolve it:
    in the queue, in the first step of a [_green_task] on the loop, or
    in a greenlet suspended in [wait]; the waiter is held by the pool. *)

(** Greenlet [g] is suspended inside the task of the future [f]. *)
Definition held (w : world) (g : gid) (f : fid) : Prop :=
  ∃ k, gstate w !! g = Some (GWaiting f k).

(** How often the queue, the ready callbacks and [_waiter] mention [f]. *)
Definition mentions (f : fid) (w : world) : nat :=
  length (filter (λ t, task_future t = Some f) (_queue w))
  + length (filter (λ cb, cb_future cb = Some f) (ready w))
  + (if decide (_waiter w = Some f) then 1 else 0).

(** Every future is held at most once, and a future that is held is
    pending. *)
Definition linear (w : world) : Prop :=
  (∀ f, mentions f w ≤ 1)%nat ∧
  (∀ g f, held w g f → mentions f w = 0%nat) ∧
  (∀ g1 g2 f, held w g1 f → held w g2 f → g1 = g2) ∧
  (∀ f, (0 < mentions f w)%nat ∨ (∃ g, held w g f) →
        futures w !! f = Some Pending).

(** *** Shutting down

    [draining f g pre post w]: the pool hands the sentinel from greenlet
    to greenlet.  The sentinel is on its way to the idle greenlet [g],
    the other greenlets are available, and the waiter [f] is pending;
    the loop has nothing else to do than queue checks. *)
Definition draining (f : fid) (g : gid) (pre post : list callback)
  (w : world) : Prop :=
  _queue w = [] ∧ _waiter w = Some f ∧ futures w !! f = Some Pending ∧
  (g ∉ _available w) ∧ _greenlets w = {[g]} ∪ _available w ∧
  gstate w !! g = Some GIdle ∧
  (∀ g', g' ∈ _available w → gstate w !! g' = Some GIdle) ∧
  ready w = pre ++ CbStart g None :: post ∧
  Forall (λ cb, cb = CbCheckQueue) pre ∧
  Forall (λ cb, cb = CbCheckQueue) post.

(** The last greenlet has gone and has resolved the waiter [f]. *)
Definition drained (f : fid) (w : world) : Prop :=
  _greenlets w = ∅ ∧ _waiter w = None ∧
  futures w !! f = Some (Done (Ok VNone)).

(** *** [run_in_greenlet]

    The decorated function is a coroutine: it runs [callable] on a new
    [GreenletWorker] and, as long as what comes back from the greenlet
    is a future, waits for it with [yield from] and switches its result
    into the greenlet. *)

(** The greenlet of the coroutine: suspended in [wait], or finished. *)
Inductive rig_greenlet :=
| RigSuspended (k : value → code)
| RigDead.

Inductive rig_state :=
| RigAwait (a : aid) (gr : rig_greenlet)  (* suspended in [yield from result] *)
| RigReturn (v : value)                   (* [return result] *)
| RigRaise (e : exn).                     (* an exception left the coroutine *)

(** [gr.switch(...)]: the greenlet [g] runs [c] until it switches back to
    its parent in [wait], returns or raises. *)
Fixpoint rig_switch (g : gid) (c : code) : switched * rig_greenlet :=
  match c with
  | Return v => (SwValue v, RigDead)
  | Raise e => (SwRaise e, RigDead)
  | Wait v k =>
      match wait (Worker g) v with
      | WaitSwitches _ v' => (SwValue v', RigSuspended k)
      | WaitReturns r => rig_switch g (k r)
      end
  end.

(** [while isfuture(result): ...] and [return result], with the result
    of the last switch. *)
Definition rig_loop (r : switched * rig_greenlet) : rig_state :=
  match r with
  | (SwRaise e, _) => RigRaise e
  | (SwValue (VAwaitable a), gr) => RigAwait a gr
  | (SwValue v, _) => RigReturn v
  end.

(** The call of the decorated function, up to its first suspension. *)
Definition run_in_greenlet (g : gid) (c : code) : rig_state :=
  rig_loop (rig_switch g c).

(** The awaited future has settled: [gr.switch((yield from result))].  A
    future that failed raises in the coroutine; a switch into a finished
    greenlet comes back at once with the value it was given. *)
Definition rig_resume (g : gid) (r : result value) (s : rig_state)
  : rig_state :=
  match s with
  | RigAwait _ gr =>
      match r with
      | Err e => RigRaise e
      | Ok v =>
          match gr with
          | RigSuspended k => rig_loop (rig_switch g (k v))
          | RigDead => rig_loop (SwValue v, RigDead)
          end
      end
  | _ => s
  end.

(** The futures the coroutine awaits settle one after the other. *)
Fixpoint rig_feed (g : gid) (rs : list (result value)) (s : rig_state)
  : rig_state :=
  match rs with
  | [] => s
  | r :: rs' => rig_feed g rs' (rig_resume g r s)
  end.

(** Every [wait] the call makes while its [wait]s return [rs] is a
    [wait] for a future. *)
Fixpoint waits_for_futures (c : code) (rs : list value) : bool :=
  match c, rs with
  | Wait v k, r :: rs' => is_async v && waits_for_futures (k r) rs'
  | _, _ => true
  end.

(** The first value that is not a future the call waits for, its earlier
    [wait]s returning [rs]. *)
Fixpoint first_plain_wait (c : code) (rs : list value) : option value :=
  match c with
  | Wait v k =>
      if is_async v then
        match rs with
        | r :: rs' => first_plain_wait (k r) rs'
        | [] => None
        end
      else Some v
  | _ => None
  end.

End Greenio.

(** ** pulsar/workers/base.py *)

Module WorkersBase.

(** [sys.maxsize] *)
Definition maxsize : Z := 2 ^ 63 - 1.

Definition req := nat.

(** What the worker does to the objects around it, in order. *)
Inductive event :=
| EvInfo (msg : string)      (* [self.log.info(msg)] *)
| EvClose                    (* [self.close()] *)
| EvLoopStop                 (* [self.ioloop.stop()] *)
| EvPreRequest (r : req)     (* [self.cfg.pre_request(self, req)] *)
| EvHandle (r : req)         (* [self._handle_request(req)] *)
| EvPostRequest (r : req)    (* [self.cfg.post_request(self, req)] *)
| EvBeforeExit               (* [self.before_exit()] *)
| EvWorkerExit               (* [self.cfg.worker_exit(self)] *)
| EvException (e : exn).     (* [self.log.exception(...)] for [e] *)

(** The configuration object: the threshold and the hooks, each hook with
    the outcome of calling it. *)
Record config := Config {
  cfg_max_requests : option Z;       (* [getattr(cfg, 'max_requests', None)] *)
  pre_request : req → result unit;
  post_request : req → result unit;
  worker_exit : result unit
}.

(** Modelled from the spec: the [IOLoop] of [pulsar.utils.async], which is
    not in the source files.  A loop is running from [start] until [stop];
    [stop] lets the handler that calls it finish ("finish current request,
    then stop") and the loop "stop accepting new work". *)
Inductive ioloop_state :=
| LoopCreated
| LoopRunning
| LoopStopped.

Definition running (l : ioloop_state) : bool :=
  match l with
  | LoopRunning => true
  | _ => false
  end.

Record worker := Worker {
  cfg : config;
  _handle_request : req → result unit;   (* the method of the subclass *)
  nr : Z;
  max_requests : Z;
  ioloop : option ioloop_state;          (* [None]: no attribute [ioloop] *)
  trace : list event;
  served : list (req * result unit)      (* what the loop has dispatched *)
}.

Definition set_nr (x : Z) (w : worker) : worker :=
  Worker (cfg w) (_handle_request w) x (max_requests w) (ioloop w) (trace w)
         (served w).

Definition set_ioloop (x : option ioloop_state) (w : worker) : worker :=
  Worker (cfg w) (_handle_request w) (nr w) (max_requests w) x (trace w)
         (served w).

Definition set_trace (x : list event) (w : worker) : worker :=
  Worker (cfg w) (_handle_request w) (nr w) (max_requests w) (ioloop w) x
         (served w).

Definition set_served (x : list (req * result unit)) (w : worker) : worker :=
  Worker (cfg w) (_handle_request w) (nr w) (max_requests w) (ioloop w)
         (trace w) x.

Abbreviation M := (Py.M worker).

Definition emit (ev : event) : M unit :=
  λ w, (Ok tt, set_trace (trace w ++ [ev]) w).

(** A call into the environment: it is recorded and ends as [r] says. *)
Definition call {A} (ev : event) (r : result A) : M A :=
  λ w, (r, set_trace (trace w ++ [ev]) w).

(** [Worker.__init__] *)
Definition __init__ (c : config) (h : req → result unit) : worker :=
  Worker c h 0 (or_int (cfg_max_requests c) maxsize) None [] [].

(** [setup]: [self.ioloop = self.get_eventloop()] *)
Definition setup (w : worker) : worker := set_ioloop (Some LoopCreated) w.

(** [self.ioloop.stop()] *)
Definition ioloop_stop : M unit :=
  (emit EvLoopStop ;; λ w, (Ok tt, set_ioloop (Some LoopStopped) w))%py.

(** [_stop] *)
Definition _stop : M unit :=
  λ w, match ioloop w with
       | Some l =>
           if running l
           then (emit EvClose ;; ioloop_stop)%py w
           else (Ok tt, w)
       | None => (Ok tt, w)
       end.

(** [check_num_requests] *)
Definition check_num_requests : M unit :=
  λ w, if negb (bool_decide (max_requests w = 0))
          && bool_decide (max_requests w ≤ nr w)
       then (emit (EvInfo "Auto-restarting worker after current request.") ;;
             _stop)%py w
       else (Ok tt, w).

(** [self.nr += 1] *)
Definition count_request : M unit :=
  λ w, (Ok tt, set_nr (nr w + 1) w).

Definition call_pre_request (rq : req) : M unit :=
  λ w, call (EvPreRequest rq) (pre_request (cfg w) rq) w.

Definition call_handle_request (rq : req) : M unit :=
  λ w, call (EvHandle rq) (_handle_request w rq) w.

Definition call_post_request (rq : req) : M unit :=
  λ w, call (EvPostRequest rq) (post_request (cfg w) rq) w.

(** [handle_request(fd, req)] *)
Definition handle_request (rq : req) : M unit :=
  (count_request ;;
   check_num_requests ;;
   call_pre_request rq ;;
   try_finally
     (call_handle_request rq)
     (try_except_pass (call_post_request rq)))%py.

(** Modelled from the spec: [IOLoop.start] with the requests [reqs]
    arriving one after the other.  The loop hands a request to the worker
    only while it is running, and goes on whatever the handler raised
    ("never propagated to terminate the worker, except via the explicit
    stop path"). *)
Fixpoint dispatch (reqs : list req) (w : worker) : worker :=
  match reqs with
  | [] => w
  | rq :: rest =>
      match ioloop w with
      | Some LoopRunning =>
          let '(r, w1) := handle_request rq w in
          dispatch rest (set_served (served w1 ++ [(rq, r)]) w1)
      | _ => w
      end
  end.

Definition ioloop_start (reqs : list req) : M unit :=
  λ w, match ioloop w with
       | Some _ => (Ok tt, dispatch reqs (set_ioloop (Some LoopRunning) w))
       | None => (Err (Exn OtherException "no ioloop"), w)
       end.

Definition call_worker_exit : M unit :=
  λ w, call EvWorkerExit (worker_exit (cfg w)) w.

(** [isinstance(e, SystemExit)] *)
Definition is_SystemExit (e : exn) : bool :=
  match exn_cls e with
  | SystemExit => true
  | _ => false
  end.

(** The [try] block of [_run] with its [except] clauses:
    [except SystemExit: raise] and [except Exception as e:
    self.log.exception(...)]. *)
Definition run_loop (reqs : list req) : M unit :=
  λ w, match ioloop_start reqs w with
       | (Ok u, w1) => (Ok u, w1)
       | (Err e, w1) =>
           if is_SystemExit e then (Err e, w1)
           else if is_Exception e then emit (EvException e) w1
           else (Err e, w1)
       end.

(** [_run]: the loop runs until it is stopped; the [finally] block is
    the way out of the worker. *)
Definition _run (reqs : list req) : M unit :=
  try_finally
    (run_loop reqs)
    (emit EvBeforeExit ;;
     emit (EvInfo "exiting") ;;
     try_except_pass call_worker_exit)%py.

(** The calls one request causes after the counter has been checked. *)
Definition request_events (w : worker) (rq : req) : list event :=
  match pre_request (cfg w) rq with
  | Ok _ => [EvPreRequest rq; EvHandle rq; EvPostRequest rq]
  | Err _ => [EvPreRequest rq]
  end.

(** How [handle_request] ends, read off the hooks. *)
Definition request_outcome (w : worker) (rq : req) : result unit :=
  match pre_request (cfg w) rq with
  | Ok _ => _handle_request w rq
  | Err e => Err e
  end.

Definition stop_events : list event :=
  [EvInfo "Auto-restarting worker after current request."; EvClose; EvLoopStop].

Definition exit_events : list event :=
  [EvBeforeExit; EvInfo "exiting"; EvWorkerExit].

(** The calls of the stopping path: [self.close()], [self.ioloop.stop()]. *)
Definition is_stop_event (ev : event) : bool :=
  match ev with
  | EvClose | EvLoopStop => true
  | _ => false
  end.

(** The claim of C8 as it is written: with [max_requests = K] and hooks
    that return, the worker handles the Kth request before it enters its
    stopping path, so nothing of that path precedes the call of the
    handler for the Kth request. *)
Definition kth_request_completes_before_stop : Prop :=
  ∀ c h K before rK after,
    1 ≤ K →
    cfg_max_requests c = Some K →
    Z.of_nat (length before) = K - 1 →
    (∀ rq, pre_request c rq = Ok ()) →
    ∃ l1 l2,
      trace (_run (before ++ rK :: after) (setup (__init__ c h))).2
      = l1 ++ EvHandle rK :: l2 ∧
      Forall (λ ev, is_stop_event ev = false) l1.

(** The claim of C9 as it is written, for [base.py]: every call of
    [handle_request] ends with the call of the [post_request] hook. *)
Definition post_request_always_runs : Prop :=
  ∀ rq w, ∃ evs,
    trace (handle_request rq w).2 = trace w ++ evs ++ [EvPostRequest rq].

(** [updaterequests(f)]: the method [_] that takes the place of [f]. *)
Definition updaterequests {A} (f : M A) : M A :=
  (count_request ;;
   check_num_requests ;;
   f)%py.

(** What is called on a worker while it lives: [handle_request], a
    method decorated with [updaterequests] (it ends as [r] says and
    leaves the attributes of the worker alone), and [_stop], which
    [signal_stop] and the arbiter call. *)
Inductive invocation :=
| CallHandleRequest (rq : req)
| CallDecorated (r : result unit)
| CallStop.

Definition invoke (c : invocation) (w : worker) : worker :=
  match c with
  | CallHandleRequest rq => (handle_request rq w).2
  | CallDecorated r => (updaterequests (λ w', (r, w')) w).2
  | CallStop => (_stop w).2
  end.

Definition invoke_all (cs : list invocation) (w : worker) : worker :=
  foldl (λ w c, invoke c w) w cs.

(** The invocations that pass [self.nr += 1]. *)
Definition counts (c : invocation) : bool :=
  match c with
  | CallStop => false
  | _ => true
  end.

(** [hasattr(self, 'ioloop') and self.ioloop.running()] *)
Definition is_running (w : worker) : bool :=
  match ioloop w with
  | Some l => running l
  | None => false
  end.

Definition is_close (ev : event) : bool :=
  match ev with
  | EvClose => true
  | _ => false
  end.

Definition is_loop_stop (ev : event) : bool :=
  match ev with
  | EvLoopStop => true
  | _ => false
  end.

(** How often [self.close()] and [self.ioloop.stop()] have been called. *)
Definition closes (w : worker) : nat :=
  length (filter (λ ev, is_close ev = true) (trace w)).

Definition loop_stops (w : worker) : nat :=
  length (filter (λ ev, is_loop_stop ev = true) (trace w)).

(** [max_requests and self.nr >= self.max_requests] at the next counted
    invocation. *)
Definition reached (w : worker) : bool :=
  negb (bool_decide (max_requests w = 0))
  && bool_decide (max_requests w ≤ nr w + 1).

End WorkersBase.

(** ** pulsar/workers/async.py *)

Module WorkersAsync.

Inductive event :=
| EvPreRequest               (* [self.cfg.pre_request(self, req)] *)
| EvCreate                   (* [wsgi.create(...)] *)
| EvInfo (msg : string)      (* [self.log.info(msg)] *)
| EvForceClose               (* [resp.force_close()] *)
| EvWsgi                     (* [self.wsgi(environ, resp.start_response)] *)
| EvWrite                    (* the [for] loop, [resp.close()], [respiter.close()] *)
| EvWriteError               (* [util.write_error(sock, ...)] *)
| EvPostRequest.             (* [self.cfg.post_request(self, req)] *)

(** What the wsgi application returns. *)
Inductive respiter :=
| ALREADY_HANDLED
| Body (written : result unit).  (* how writing and closing it ends *)

(** One request together with the outcome of every call made for it. *)
Record request := Request {
  rq_pre_request : result unit;
  rq_create : result unit;
  rq_wsgi : result respiter;
  rq_should_close : bool;
  rq_write_error : result unit;
  rq_post_request : result unit
}.

Record worker := Worker {
  nr : Z;
  max_requests : Z;
  alive : bool;
  debug : bool;
  trace : list event
}.

Definition set_nr (x : Z) (w : worker) : worker :=
  Worker x (max_requests w) (alive w) (debug w) (trace w).

Definition set_alive (x : bool) (w : worker) : worker :=
  Worker (nr w) (max_requests w) x (debug w) (trace w).

Definition set_trace (x : list event) (w : worker) : worker :=
  Worker (nr w) (max_requests w) (alive w) (debug w) x.

Abbreviation M := (Py.M worker).

Definition emit (ev : event) : M unit :=
  λ w, (Ok tt, set_trace (trace w ++ [ev]) w).

Definition call {A} (ev : event) (r : result A) : M A :=
  λ w, (r, set_trace (trace w ++ [ev]) w).

Definition stop_iteration : exn := Exn StopIteration "should close".

(** [self.nr += 1] *)
Definition count_request : M unit :=
  λ w, (Ok tt, set_nr (nr w + 1) w).

(** [if self.alive and self.nr >= self.max_requests: ...] *)
Definition check_max_requests : M unit :=
  λ w, if alive w && bool_decide (max_requests w ≤ nr w)
       then (emit (EvInfo "Autorestarting worker after current request.") ;;
             emit EvForceClose ;;
             λ w', (Ok tt, set_alive false w'))%py w
       else (Ok tt, w).

(** The [try] block.  [Some b] stands for [return b], [None] for reaching
    the end of the block. *)
Definition try_block (rq : request) : M (option bool) :=
  (call EvPreRequest (rq_pre_request rq) ;;
   call EvCreate (rq_create rq) ;;
   count_request ;;
   check_max_requests ;;
   respiter ← call EvWsgi (rq_wsgi rq) ;
   match respiter with
   | ALREADY_HANDLED => ret (Some false)
   | Body written =>
       call EvWrite written ;;
       if rq_should_close rq then raise stop_iteration else ret None
   end)%py.

(** [except StopIteration: raise] and [except Exception as e: ...] *)
Definition except_clauses (rq : request) (body : M (option bool))
  : M (option bool) :=
  λ w, match body w with
       | (Ok r, w1) => (Ok r, w1)
       | (Err e, w1) =>
           if is_StopIteration e then (Err e, w1)
           else if is_Exception e then
             if negb (debug w1) then (Err e, w1)
             else (call EvWriteError (rq_write_error rq) ;;
                   ret (Some false))%py w1
           else (Err e, w1)
       end.

(** [handle_request(req, sock, addr)] *)
Definition handle_request (rq : request) : M bool :=
  (r ← try_finally
         (except_clauses rq (try_block rq))
         (try_except_pass (call EvPostRequest (rq_post_request rq))) ;
   match r with
   | Some b => ret b
   | None => ret true
   end)%py.

(** The request with another [post_request] hook. *)
Definition with_post_request (p : result unit) (rq : request) : request :=
  Request (rq_pre_request rq) (rq_create rq) (rq_wsgi rq) (rq_should_close rq)
          (rq_write_error rq) p.

(** The worker handles the requests one after the other, whatever each
    of them returns or raises. *)
Fixpoint serve (rqs : list request) (w : worker) : worker :=
  match rqs with
  | [] => w
  | rq :: rest => serve rest (handle_request rq w).2
  end.

(** The request gets as far as [self.nr += 1]. *)
Definition counted (rq : request) : bool :=
  match rq_pre_request rq, rq_create rq with
  | Ok _, Ok _ => true
  | _, _ => false
  end.

Definition is_force_close (ev : event) : bool :=
  match ev with
  | EvForceClose => true
  | _ => false
  end.

(** How often [resp.force_close()] has been called. *)
Definition force_closes (w : worker) : nat :=
  length (filter (λ ev, is_force_close ev = true) (trace w)).

(** The steps that only call into the environment leave the counter, the
    flags and the number of forced closes alone. *)
Definition same_counts (w w' : worker) : Prop :=
  max_requests w' = max_requests w ∧ debug w' = debug w ∧
  nr w' = nr w ∧ alive w' = alive w ∧ force_closes w' = force_closes w.

(** *** [AsyncWorker.handle] *)

(** [errno.EPIPE] and [errno.ECONNRESET], as Linux numbers them. *)
Definition EPIPE : Z := 32.
Definition ECONNRESET : Z := 104.

(** What [handle] does to the client socket and to the log. *)
Inductive conn_event :=
| EvParser                       (* [http.RequestParser(client)] *)
| EvNext                         (* [with self.timeout_ctx(): req = parser.next()] *)
| EvLogException (msg : string)  (* [self.log.exception(msg)] *)
| EvLogDebug (msg : string)      (* [self.log.debug(msg)] *)
| EvWriteNonblock                (* [util.write_nonblock(client, mesg)] *)
| EvCloseClient.                 (* [util.close(client)] *)

(** One client connection together with the outcome of every call made
    on it: the parser delivers the requests [cn_requests] one [with]
    block after the other; the next [with] block ends as [cn_last] says,
    by leaving [req] falsy ([Ok]) or by raising. *)
Record connection := Connection {
  cn_parser : result unit;
  cn_requests : list request;
  cn_last : result unit;
  cn_write_nonblock : result unit;
  cn_close : result unit
}.

(** The worker together with what it has done to its clients. *)
Record server := Server {
  sv_worker : worker;
  sv_trace : list conn_event
}.

Abbreviation MS := (Py.M server).

Definition log_conn (ev : conn_event) : MS unit :=
  λ s, (Ok tt, Server (sv_worker s) (sv_trace s ++ [ev])).

Definition call_conn {A} (ev : conn_event) (r : result A) : MS A :=
  λ s, (r, Server (sv_worker s) (sv_trace s ++ [ev])).

(** A method of the worker itself. *)
Definition on_worker {A} (m : M A) : MS A :=
  λ s, let '(r, w) := m (sv_worker s) in (r, Server w (sv_trace s)).

(** The [while True] loop. *)
Fixpoint request_loop (rqs : list request) (last : result unit) : MS unit :=
  match rqs with
  | [] => call_conn EvNext last                     (* [break], or it raises *)
  | rq :: rest =>
      (log_conn EvNext ;;
       on_worker (handle_request rq) ;;
       request_loop rest last)%py
  end.

(** [try: ... except StopIteration: pass] *)
Definition except_StopIteration (body : MS unit) : MS unit :=
  λ s, match body s with
       | (Ok u, s1) => (Ok u, s1)
       | (Err e, s1) => if is_StopIteration e then (Ok tt, s1) else (Err e, s1)
       end.

Section Handle.

(** [isinstance(e, socket.error)], with [e[0]] when it holds. *)
Variable socket_errno : exn → option Z.

(** The [except] clauses of [handle]. *)
Definition handle_except (c : connection) (e : exn) : MS unit :=
  match socket_errno e with
  | Some n =>
      if negb (bool_decide (n = EPIPE) || bool_decide (n = ECONNRESET))
      then log_conn (EvLogException "Socket error processing request.")
      else if bool_decide (n = ECONNRESET)
           then log_conn (EvLogDebug "Ignoring connection reset")
           else log_conn (EvLogDebug "Ignoring EPIPE")
  | None =>
      if is_Exception e
      then (log_conn (EvLogException "General error processing request.") ;;
            try_except_pass (call_conn EvWriteNonblock (cn_write_nonblock c)) ;;
            ret tt)%py
      else raise e
  end.

(** The outer [try] block. *)
Definition handle_body (c : connection) : MS unit :=
  (call_conn EvParser (cn_parser c) ;;
   except_StopIteration (request_loop (cn_requests c) (cn_last c)))%py.

(** [handle(client, addr)] *)
Definition handle (c : connection) : MS unit :=
  try_finally
    (λ s, match handle_body c s with
          | (Ok u, s1) => (Ok u, s1)
          | (Err e, s1) => handle_except c e s1
          end)
    (call_conn EvCloseClient (cn_close c)).

End Handle.

(** The events of [handle] since [s]. *)
Definition conn_extends (s s' : server) : Prop :=
  ∃ evs, sv_trace s' = sv_trace s ++ evs ∧ EvCloseClient ∉ evs.

End WorkersAsync.

(** * Properties *)

Import Greenio.

(** ** The pool: what the internal methods leave alone *)

Lemma steady_refl w : steady w w.
Proof. unfold steady. set_solver. Qed.

Lemma steady_trans w1 w2 w3 : steady w1 w2 → steady w2 w3 → steady w1 w3.
Proof.
  intros (Hm1 & Hs1 & Hg1) (Hm2 & Hs2 & Hg2). unfold steady.
  rewrite Hm2, Hs2. set_solver.
Qed.

(** Closes [steady w w'] when [w'] is [w] with other fields updated. *)
Ltac steady_fields :=
  unfold steady; wsimpl; split; [reflexivity|split; [reflexivity|set_solver]].

Lemma yield_from_steady a g w : steady w (yield_from a g w).
Proof. unfold yield_from. destruct (awaitables w !! a); steady_fields. Qed.

Lemma _green_run_idle_steady g w : steady w (_green_run_idle g w).
Proof. unfold _green_run_idle. steady_fields. Qed.

Lemma _check_queue_steady w : steady w (_check_queue w).
Proof.
  unfold _check_queue.
  destruct (queue_pop (_queue w)) as [[t q]|]; [|apply steady_refl].
  wsimpl. destruct (available_pop (_available w)) as [[g s]|]; steady_fields.
Qed.

Lemma _put_None_steady w : steady w (_put None w).
Proof.
  unfold _put. eapply steady_trans; [|apply _check_queue_steady].
  steady_fields.
Qed.

Lemma run_func_steady g fut c w : steady w (run_func g fut c w).2.
Proof.
  revert w. induction c as [v|e|v k IH]; intros w; simpl.
  - eapply steady_trans; [|apply _green_run_idle_steady]. steady_fields.
  - destruct (is_Exception e); simpl.
    + eapply steady_trans; [|apply _green_run_idle_steady]. steady_fields.
    + steady_fields.
  - steady_fields.
Qed.

Lemma _green_run_exit_steady g w : steady w (_green_run_exit g w).2.
Proof.
  unfold _green_run_exit. cbn [snd].
  set (w1 := set_greenlets (_greenlets w ∖ {[g]}) w).
  assert (H1 : steady w w1).
  { subst w1. unfold steady. wsimpl. split; [reflexivity|].
    split; [reflexivity|]. apply subseteq_difference_l. reflexivity. }
  assert (H2 : ∀ w2, steady w1 w2 → steady w (set_gstate g GDead w2)).
  { intros w2 H2. eapply steady_trans; [exact H1|].
    eapply steady_trans; [exact H2|]. steady_fields. }
  apply H2. destruct (decide (_greenlets w1 = ∅)).
  - destruct (_waiter w1); steady_fields.
  - apply _put_None_steady.
Qed.

Lemma greenlet_switch_steady g x w : steady w (greenlet_switch g x w).2.
Proof.
  unfold greenlet_switch.
  destruct (gstate w !! g) as [[|fut k|]|]; destruct x as [[[fut' c]|]|v];
    cbn [snd]; try apply steady_refl.
  - apply run_func_steady.
  - apply _green_run_exit_steady.
  - apply run_func_steady.
Qed.

Lemma _green_task_loop_steady g r w : steady w (_green_task_loop g r w).
Proof.
  unfold _green_task_loop. destruct r as [[| | |a]|e];
    try apply steady_refl.
  - apply yield_from_steady.
  - steady_fields.
Qed.

Lemma _green_task_steady g t w : steady w (_green_task g t w).
Proof.
  unfold _green_task.
  pose proof (greenlet_switch_steady g (ArgTask t) w) as H.
  destruct (greenlet_switch g (ArgTask t) w) as [r w1]. cbn [snd] in H.
  eapply steady_trans; [exact H|apply _green_task_loop_steady].
Qed.

Lemma _green_task_wakeup_steady g r w : steady w (_green_task_wakeup g r w).
Proof.
  unfold _green_task_wakeup. destruct r as [v|e].
  - pose proof (greenlet_switch_steady g (ArgValue v) w) as H.
    destruct (greenlet_switch g (ArgValue v) w) as [r w1]. cbn [snd] in H.
    eapply steady_trans; [exact H|apply _green_task_loop_steady].
  - steady_fields.
Qed.

Lemma run_callback_steady cb w : steady w (run_callback cb w).
Proof.
  destruct cb; simpl.
  - apply _check_queue_steady.
  - apply _green_task_steady.
  - apply _green_task_wakeup_steady.
Qed.

Lemma run_once_steady w : steady w (run_once w).
Proof.
  unfold run_once. destruct (ready w) as [|cb rest]; [apply steady_refl|].
  eapply steady_trans; [|apply run_callback_steady]. steady_fields.
Qed.

Lemma settle_steady a r w : steady w (settle a r w).
Proof.
  unfold settle. destruct (awaitables w !! a); [apply steady_refl|].
  steady_fields.
Qed.

Lemma steady_grows w w' : steady w w' → grows w w'.
Proof. intros (Hm & _ & Hg). split; [exact Hm|left; exact Hg]. Qed.

Lemma _check_queue_greenlets w : _greenlets (_check_queue w) = _greenlets w.
Proof.
  unfold _check_queue.
  destruct (queue_pop (_queue w)) as [[t q]|]; [|reflexivity].
  wsimpl. destruct (available_pop (_available w)) as [[g s]|]; reflexivity.
Qed.

Lemma _adjust_greenlet_count_cases w :
  (Z.of_nat (size (_greenlets w)) < _max_workers w ∧
   _adjust_greenlet_count w
   = _green_run_idle (next_gid w)
       (set_greenlets ({[next_gid w]} ∪ _greenlets w)
          (set_next_gid (S (next_gid w)) w))) ∨
  (¬ Z.of_nat (size (_greenlets w)) < _max_workers w ∧
   _adjust_greenlet_count w = w).
Proof.
  unfold _adjust_greenlet_count.
  destruct (decide (Z.of_nat (size (_greenlets w)) < _max_workers w));
    [left|right]; split; auto.
Qed.

Lemma _adjust_greenlet_count_grows w : grows w (_adjust_greenlet_count w).
Proof.
  destruct (_adjust_greenlet_count_cases w) as [[Hlt ->]|[Hge ->]].
  - split; [reflexivity|]. right. split; [exact Hlt|reflexivity].
  - split; [reflexivity|]. left. reflexivity.
Qed.

Lemma _adjust_greenlet_count_shutdown w :
  _shutdown (_adjust_greenlet_count w) = _shutdown w.
Proof.
  destruct (_adjust_greenlet_count_cases w) as [[_ ->]|[_ ->]]; reflexivity.
Qed.

Lemma _put_grows t w : grows w (_put t w).
Proof.
  destruct t as [t|]; [|apply steady_grows, _put_None_steady].
  unfold _put. destruct (_adjust_greenlet_count_grows w) as [Hm Hg].
  pose proof (_check_queue_steady
                (set_queue (Some t :: _queue (_adjust_greenlet_count w))
                           (_adjust_greenlet_count w))) as (Hm' & _ & _).
  split.
  - rewrite Hm'. exact Hm.
  - rewrite _check_queue_greenlets. exact Hg.
Qed.

Lemma _put_shutdown t w : _shutdown (_put t w) = _shutdown w.
Proof.
  unfold _put.
  match goal with |- _shutdown (_check_queue ?x) = _ =>
    pose proof (_check_queue_steady x) as (_ & Hs & _); rewrite Hs end.
  destruct t; wsimpl; [apply _adjust_greenlet_count_shutdown|reflexivity].
Qed.

Lemma submit_grows c w : grows w (submit c w).2.
Proof.
  unfold submit. destruct (_shutdown w); [apply steady_grows, steady_refl|].
  cbn [new_future snd].
  match goal with |- grows _ (_put ?t ?x) =>
    pose proof (_put_grows t x) as [Hm Hg] end.
  split; [exact Hm|exact Hg].
Qed.

Lemma shutdown_grows b w : grows w (shutdown b w).2.
Proof.
  unfold shutdown.
  pose proof (_put_None_steady (set_shutdown true w)) as (Hm & _ & Hg).
  destruct b; cbn [new_future snd]; split; wsimpl;
    [exact Hm|left; exact Hg|exact Hm|left; exact Hg].
Qed.

Lemma apply_op_grows o w : grows w (apply_op o w).
Proof.
  destruct o as [c|b| |a r]; simpl.
  - apply submit_grows.
  - apply shutdown_grows.
  - apply steady_grows, run_once_steady.
  - apply steady_grows, settle_steady.
Qed.

(** Once set, the shutdown flag stays set. *)
Lemma apply_op_shutdown o w : _shutdown w = true → _shutdown (apply_op o w) = true.
Proof.
  intros H. destruct o as [c|b| |a r]; simpl.
  - unfold submit. rewrite H. exact H.
  - unfold shutdown. pose proof (_put_shutdown None (set_shutdown true w)) as Hs.
    destruct b; cbn [new_future snd]; wsimpl; exact Hs.
  - pose proof (run_once_steady w) as (_ & Hs & _). congruence.
  - pose proof (settle_steady a r w) as (_ & Hs & _). congruence.
Qed.

Lemma run_ops_app ops1 ops2 w :
  run_ops (ops1 ++ ops2) w = run_ops ops2 (run_ops ops1 w).
Proof. unfold run_ops. apply foldl_app. Qed.

Lemma run_ops_shutdown ops w : _shutdown w = true → _shutdown (run_ops ops w) = true.
Proof.
  revert w. induction ops as [|o ops IH]; intros w H; [exact H|].
  simpl. apply IH, apply_op_shutdown, H.
Qed.

Lemma shutdown_sets_flag b w : _shutdown (shutdown b w).2 = true.
Proof.
  unfold shutdown. pose proof (_put_shutdown None (set_shutdown true w)) as Hs.
  destruct b; cbn [new_future snd]; wsimpl; exact Hs.
Qed.

(** ** The worker bound *)

(** C10. Constructing the pool with [max_workers] equal to [None] or [0]
    gives the default bound 100, a falsy argument being treated as unset;
    for every other argument [m] the bound is [min(m, 1000)]. *)
Theorem init_max_workers :
  _max_workers (__init__ None) = 100 ∧
  _max_workers (__init__ (Some 0)) = 100 ∧
  ∀ m, m ≠ 0 → _max_workers (__init__ (Some m)) = Z.min m 1000.
Proof.
  split; [reflexivity|]. split; [reflexivity|].
  intros m Hm. unfold __init__, or_int, _MAX_WORKERS. cbn [_max_workers].
  destruct (decide (m = 0)) as [->|_]; [contradiction|reflexivity].
Qed.

Lemma init_max_workers_le mw : _max_workers (__init__ mw) ≤ _MAX_WORKERS.
Proof. unfold __init__. cbn [_max_workers]. lia. Qed.

Lemma size_add_one (x : gid) (X : gset gid) : (size ({[x]} ∪ X) ≤ S (size X))%nat.
Proof.
  rewrite size_union_alt, size_singleton.
  assert (Hs : X ∖ {[x]} ⊆ X) by apply subseteq_difference_l, reflexivity.
  apply subseteq_size in Hs. lia.
Qed.

Lemma grows_bound w w' :
  grows w w' →
  Z.of_nat (size (_greenlets w)) ≤ Z.max 0 (_max_workers w) →
  Z.of_nat (size (_greenlets w')) ≤ Z.max 0 (_max_workers w').
Proof.
  intros [Hm [Hsub|[Hlt Heq]]] Hle; rewrite Hm.
  - apply subseteq_size in Hsub. lia.
  - rewrite Heq. pose proof (size_add_one (next_gid w) (_greenlets w)). lia.
Qed.

Lemma run_ops_max_workers ops w :
  _max_workers (run_ops ops w) = _max_workers w.
Proof.
  revert w. induction ops as [|o ops IH]; intros w; [reflexivity|].
  simpl. rewrite IH. apply apply_op_grows.
Qed.

Lemma run_ops_bound ops w :
  Z.of_nat (size (_greenlets w)) ≤ Z.max 0 (_max_workers w) →
  Z.of_nat (size (_greenlets (run_ops ops w)))
    ≤ Z.max 0 (_max_workers (run_ops ops w)).
Proof.
  revert w. induction ops as [|o ops IH]; intros w H; [exact H|].
  simpl. apply IH. eapply grows_bound; [apply apply_op_grows|exact H].
Qed.

(** C6, counterexample. [GreenPool(max_workers=-1)] has the bound
    [min(-1, 1000) = -1]: its empty set of greenlets already exceeds it. *)
Lemma live_within_bound_fails : ¬ live_within_bound.
Proof.
  intros H. specialize (H (Some (-1)) []). vm_compute in H. apply H. reflexivity.
Qed.

(** C6, amended. For every sequence of submit and shutdown calls, loop
    iterations and settled awaitables on a pool with bound [N]: [N] is at
    most 1000 and never changes, the number of live greenlets never
    exceeds [max(N, 0)] (so never [N] when [N] is not negative), and every
    single step either adds no greenlet or adds exactly one while the
    number of live greenlets is strictly below [N]. *)
Theorem live_greenlets_bounded max_workers ops :
  let N := _max_workers (__init__ max_workers) in
  let w := run_ops ops (__init__ max_workers) in
  N ≤ 1000 ∧
  _max_workers w = N ∧
  Z.of_nat (size (_greenlets w)) ≤ Z.max 0 N ∧
  (0 ≤ N → Z.of_nat (size (_greenlets w)) ≤ N) ∧
  ∀ o, _greenlets (apply_op o w) ⊆ _greenlets w ∨
       (Z.of_nat (size (_greenlets w)) < N ∧
        _greenlets (apply_op o w) = {[next_gid w]} ∪ _greenlets w).
Proof.
  intros N w.
  assert (HN : _max_workers w = N) by apply run_ops_max_workers.
  assert (Hb : Z.of_nat (size (_greenlets w)) ≤ Z.max 0 N).
  { rewrite <- HN. apply run_ops_bound. unfold __init__.
    cbn [_greenlets _max_workers]. rewrite size_empty. lia. }
  split; [apply init_max_workers_le|]. split; [exact HN|].
  split; [exact Hb|]. split; [lia|].
  intros o. destruct (apply_op_grows o w) as [_ Hg]. rewrite HN in Hg. exact Hg.
Qed.

(** ** Submitting after shutdown *)

(** C3. Every [submit] made after [shutdown] has been called fails with
    the [PoolClosed] error and leaves the whole state as it was: no task
    is enqueued, no greenlet is created, the queue and the set of
    greenlets are unchanged. *)
Theorem submit_after_shutdown max_workers before wait after c :
  let w := run_ops (before ++ OpShutdown wait :: after) (__init__ max_workers) in
  submit c w = (Err PoolClosed, w).
Proof.
  intros w. unfold submit.
  assert (H : _shutdown w = true).
  { subst w. rewrite run_ops_app. simpl. apply run_ops_shutdown.
    apply shutdown_sets_flag. }
  rewrite H. reflexivity.
Qed.

(** ** [wait] *)

(** C7. For every value [v]: [wait(v)] on the main line, where the current
    greenlet has no parent, returns [v] unchanged; inside a pooled
    greenlet it switches back to the parent with [v], and returns the
    value [x] passed by the next switch into the greenlet, whatever [v]
    is. *)
Theorem wait_in_and_out_of_pool (v : value) :
  wait Main v = WaitReturns v ∧
  (∀ k, run_main (Wait v k) = run_main (k v)) ∧
  ∀ g fut k w,
    wait (Worker g) v = WaitSwitches Main v ∧
    let suspended := run_func g fut (Wait v k) w in
    suspended.1 = SwValue v ∧
    gstate suspended.2 !! g = Some (GWaiting fut k) ∧
    ∀ x, greenlet_switch g (ArgValue x) suspended.2
         = run_func g fut (k x) suspended.2.
Proof.
  split; [reflexivity|]. split; [reflexivity|].
  intros g fut k w. split; [reflexivity|]. cbn [run_func wait parent].
  split; [reflexivity|].
  assert (H : gstate (set_gstate g (GWaiting fut k) w) !! g
              = Some (GWaiting fut k)).
  { wsimpl. apply lookup_insert_eq. }
  split; [exact H|].
  intros x. unfold greenlet_switch. cbn [snd]. rewrite H. reflexivity.
Qed.

(** ** Dispatch order *)

Lemma queue_pop_Some q t q' :
  queue_pop q = Some (t, q') → reverse q = t :: reverse q'.
Proof.
  unfold queue_pop. destruct (reverse q) as [|t0 r] eqn:Hr; [discriminate|].
  intros [= <- <-]. rewrite reverse_involutive. reflexivity.
Qed.

Lemma queue_pop_None q : queue_pop q = None → q = [].
Proof.
  unfold queue_pop. destruct (reverse q) as [|t0 r] eqn:Hr; [|discriminate].
  intros _. apply (f_equal reverse) in Hr. rewrite reverse_involutive in Hr.
  exact Hr.
Qed.





Lemma omap_snoc {A B} (f : A → option B) l x :
  omap f (l ++ [x]) = omap f l ++ option_list (f x).
Proof. rewrite omap_app. cbn. destruct (f x); reflexivity. Qed.

Lemma omap_cons_list {A B} (f : A → option B) l x :
  omap f (x :: l) = option_list (f x) ++ omap f l.
Proof. cbn. destruct (f x); reflexivity. Qed.





















(** ** Tasks that are taken from the queue and handed to nobody *)

Ltac forgotten_fields H :=
  destruct H as (?Hf & ?Hn & ?Hw & ?Hq & ?Hr & ?Hg);
  unfold forgotten; wsimpl; repeat split; auto.

Lemma forgotten_ready f cb w :
  cb_future cb ≠ Some f → forgotten f w → forgotten f (call_soon cb w).
Proof.
  intros Hcb H. forgotten_fields H.
  apply Forall_app. split; [exact Hr|]. constructor; [exact Hcb|constructor].
Qed.

Lemma forgotten_gstate f g s w :
  gstatus_future s ≠ Some f → forgotten f w → forgotten f (set_gstate g s w).
Proof.
  intros Hs H. forgotten_fields H. apply map_Forall_insert_2; assumption.
Qed.

Lemma forgotten_future f f' s w :
  f' ≠ f → forgotten f w → forgotten f (set_future f' s w).
Proof.
  intros Hne H. forgotten_fields H. rewrite lookup_insert_ne; assumption.
Qed.

Lemma yield_from_forgotten f a g w :
  forgotten f w → forgotten f (yield_from a g w).
Proof.
  intros H. unfold yield_from. destruct (awaitables w !! a).
  - apply forgotten_ready; [discriminate|exact H].
  - forgotten_fields H.
Qed.

Lemma _green_run_idle_forgotten f g w :
  forgotten f w → forgotten f (_green_run_idle g w).
Proof.
  intros H. unfold _green_run_idle.
  apply forgotten_gstate; [discriminate|].
  apply forgotten_ready; [discriminate|]. forgotten_fields H.
Qed.

Lemma _adjust_greenlet_count_forgotten f w :
  forgotten f w → forgotten f (_adjust_greenlet_count w).
Proof.
  intros H. destruct (_adjust_greenlet_count_cases w) as [[_ ->]|[_ ->]];
    [|exact H].
  apply _green_run_idle_forgotten. forgotten_fields H.
Qed.

Lemma _check_queue_forgotten f w :
  forgotten f w → forgotten f (_check_queue w).
Proof.
  intros H. unfold _check_queue.
  destruct (queue_pop (_queue w)) as [[t q]|] eqn:Hpop; [|exact H].
  apply queue_pop_Some in Hpop.
  assert (Hq' : task_future t ≠ Some f ∧ Forall (λ t, task_future t ≠ Some f) q).
  { destruct H as (_ & _ & _ & Hq & _). apply Forall_reverse in Hq.
    rewrite Hpop in Hq. apply Forall_cons in Hq. destruct Hq as [Ht Hq].
    split; [exact Ht|]. apply Forall_reverse. exact Hq. }
  destruct Hq' as [Ht Hq'].
  destruct (available_pop _) as [[g s]|].
  - apply forgotten_ready; [exact Ht|]. forgotten_fields H.
  - forgotten_fields H.
Qed.

Lemma _put_forgotten f t w :
  task_future t ≠ Some f → forgotten f w → forgotten f (_put t w).
Proof.
  intros Ht H. unfold _put. apply _check_queue_forgotten.
  set (w1 := match t with Some _ => _adjust_greenlet_count w | None => w end).
  assert (H1 : forgotten f w1).
  { subst w1. destruct t; [apply _adjust_greenlet_count_forgotten|]; exact H. }
  forgotten_fields H1.
Qed.

Lemma run_func_forgotten f g fut c w :
  fut ≠ f → forgotten f w → forgotten f (run_func g fut c w).2.
Proof.
  intros Hne. revert w. induction c as [v|e|v k IH]; intros w H; simpl.
  - apply _green_run_idle_forgotten, forgotten_future; assumption.
  - destruct (is_Exception e); simpl.
    + apply _green_run_idle_forgotten, forgotten_future; assumption.
    + apply forgotten_gstate; [discriminate|exact H].
  - apply forgotten_gstate; [|exact H]. simpl. congruence.
Qed.

Lemma _green_run_exit_forgotten f g w :
  forgotten f w → forgotten f (_green_run_exit g w).2.
Proof.
  intros H. unfold _green_run_exit. cbn [snd].
  apply forgotten_gstate; [discriminate|].
  set (w1 := set_greenlets (_greenlets w ∖ {[g]}) w).
  assert (H1 : forgotten f w1) by (subst w1; forgotten_fields H).
  destruct (decide (_greenlets w1 = ∅)).
  - destruct (_waiter w1) as [f'|] eqn:Hw'; [|exact H1].
    assert (f' ≠ f).
    { destruct H1 as (_ & _ & Hw & _). congruence. }
    assert (H2 : forgotten f (set_result f' VNone w1))
      by (apply forgotten_future; assumption).
    forgotten_fields H2.
  - apply _put_forgotten; [discriminate|exact H1].
Qed.

(** What a switch argument carries. *)
Lemma greenlet_switch_forgotten f g x w :
  (∀ t, x = ArgTask t → task_future t ≠ Some f) →
  forgotten f w → forgotten f (greenlet_switch g x w).2.
Proof.
  intros Hx H. unfold greenlet_switch.
  destruct (gstate w !! g) as [[|fut k|]|] eqn:Hg;
    destruct x as [[[fut' c]|]|v]; cbn [snd]; try exact H.
  - apply run_func_forgotten; [|exact H].
    specialize (Hx _ eq_refl). simpl in Hx. congruence.
  - apply _green_run_exit_forgotten, H.
  - apply run_func_forgotten; [|exact H].
    destruct H as (_ & _ & _ & _ & _ & Hgs).
    specialize (Hgs _ _ Hg). simpl in Hgs. congruence.
Qed.

Lemma _green_task_loop_forgotten f g r w :
  forgotten f w → forgotten f (_green_task_loop g r w).
Proof.
  intros H. unfold _green_task_loop. destruct r as [[| | |a]|e]; try exact H.
  apply yield_from_forgotten, H.
Qed.

Lemma _green_task_forgotten f g t w :
  task_future t ≠ Some f → forgotten f w → forgotten f (_green_task g t w).
Proof.
  intros Ht H. unfold _green_task.
  pose proof (greenlet_switch_forgotten f g (ArgTask t) w) as Hs.
  destruct (greenlet_switch g (ArgTask t) w) as [r w1]. cbn [snd] in Hs.
  apply _green_task_loop_forgotten, Hs; [|exact H].
  intros t' [= <-]. exact Ht.
Qed.

Lemma _green_task_wakeup_forgotten f g r w :
  forgotten f w → forgotten f (_green_task_wakeup g r w).
Proof.
  intros H. unfold _green_task_wakeup. destruct r as [v|e].
  - pose proof (greenlet_switch_forgotten f g (ArgValue v) w) as Hs.
    destruct (greenlet_switch g (ArgValue v) w) as [r w1]. cbn [snd] in Hs.
    apply _green_task_loop_forgotten, Hs; [|exact H]. discriminate.
  - forgotten_fields H.
Qed.

Lemma run_callback_forgotten f cb w :
  cb_future cb ≠ Some f → forgotten f w → forgotten f (run_callback cb w).
Proof.
  intros Hcb H. destruct cb as [|g t|g r]; simpl.
  - apply _check_queue_forgotten, H.
  - apply _green_task_forgotten; assumption.
  - apply _green_task_wakeup_forgotten, H.
Qed.

Lemma run_once_forgotten f w : forgotten f w → forgotten f (run_once w).
Proof.
  intros H. unfold run_once. destruct (ready w) as [|cb rest] eqn:Hr; [exact H|].
  assert (Hcb : cb_future cb ≠ Some f ∧ Forall (λ cb, cb_future cb ≠ Some f) rest).
  { destruct H as (_ & _ & _ & _ & Hr' & _). rewrite Hr in Hr'.
    apply Forall_cons in Hr'. exact Hr'. }
  destruct Hcb as [Hcb Hrest].
  apply run_callback_forgotten; [exact Hcb|]. forgotten_fields H.
Qed.

Lemma settle_forgotten f a r w : forgotten f w → forgotten f (settle a r w).
Proof.
  intros H. unfold settle. destruct (awaitables w !! a); [exact H|].
  forgotten_fields H. apply Forall_app. split; [assumption|].
  apply Forall_forall. intros cb Hin. apply list_elem_of_fmap in Hin.
  destruct Hin as (b & -> & _). discriminate.
Qed.

Lemma new_future_forgotten f w :
  forgotten f w → (new_future w).1 ≠ f ∧ forgotten f (new_future w).2.
Proof.
  intros H. unfold new_future. cbn [fst snd].
  assert (Hne : next_fid w ≠ f).
  { destruct H as (_ & Hn & _). lia. }
  split; [exact Hne|].
  assert (H1 : forgotten f (set_future (next_fid w) Pending w))
    by (apply forgotten_future; assumption).
  forgotten_fields H1.
Qed.

Lemma submit_forgotten f c w : forgotten f w → forgotten f (submit c w).2.
Proof.
  intros H. unfold submit. destruct (_shutdown w); [exact H|].
  destruct (new_future_forgotten f w H) as [Hne H1].
  destruct (new_future w) as [f' w1]. cbn [fst snd] in *.
  apply _put_forgotten; [simpl; congruence|]. forgotten_fields H1.
Qed.

Lemma shutdown_forgotten f b w : forgotten f w → forgotten f (shutdown b w).2.
Proof.
  intros H. unfold shutdown.
  assert (H1 : forgotten f (_put None (set_shutdown true w))).
  { apply _put_forgotten; [discriminate|]. forgotten_fields H. }
  destruct b; [|exact H1].
  destruct (new_future_forgotten f _ H1) as [Hne H2].
  destruct (new_future _) as [f' w2]. cbn [fst snd] in *.
  forgotten_fields H2. congruence.
Qed.

Lemma apply_op_forgotten f o w : forgotten f w → forgotten f (apply_op o w).
Proof.
  intros H. destruct o as [c|b| |a r]; simpl.
  - apply submit_forgotten, H.
  - apply shutdown_forgotten, H.
  - apply run_once_forgotten, H.
  - apply settle_forgotten, H.
Qed.

Lemma run_ops_forgotten f ops w : forgotten f w → forgotten f (run_ops ops w).
Proof.
  revert w. induction ops as [|o ops IH]; intros w H; [exact H|].
  simpl. apply IH, apply_op_forgotten, H.
Qed.

Lemma forgotten_pending f w : forgotten f w → future_state w f = Pending.
Proof. intros (Hf & _). unfold future_state. rewrite Hf. reflexivity. Qed.

(** ** Five tasks on a pool of two *)

(** Decides a closed decidable proposition by evaluation. *)
Ltac by_evaluation :=
  match goal with |- ?P => apply (bool_decide_unpack P) end;
  vm_compute; exact I.

Lemma five_submits_forgotten f :
  f ∈ [2; 3; 4]%nat →
  forgotten f (run_ops five_submits (__init__ (Some 2))).
Proof.
  intros Hf. unfold forgotten.
  repeat (apply elem_of_cons in Hf; destruct Hf as [->|Hf]);
    [| | |by apply elem_of_nil in Hf];
    (split; [vm_compute; reflexivity|]);
    (split; [by_evaluation|]); (split; [by_evaluation|]);
    (split; [by_evaluation|]); (split; by_evaluation).
Qed.

(** C1, the code at the failing input. Five tasks are submitted to a pool
    of two greenlets.  The first two are handed to the two greenlets; the
    other three are taken from the queue while no greenlet is available
    and forgotten.  Whatever happens afterwards, their futures stay
    pending; when all sleeps have ended only the first two futures hold
    their index. *)
Theorem five_tasks_three_forgotten :
  let w := run_ops five_submits (__init__ (Some 2)) in
  submitted w = [0; 1; 2; 3; 4]%nat ∧
  dispatched_tasks w = [0; 1]%nat ∧
  dropped w = [Some 2; Some 3; Some 4]%nat ∧
  _queue w = [] ∧
  (∀ ops f, f ∈ [2; 3; 4]%nat → future_state (run_ops ops w) f = Pending) ∧
  map (future_state (run_ops sleeps_end w)) [0; 1; 2; 3; 4]%nat
  = [Done (Ok (VInt 0)); Done (Ok (VInt 1)); Pending; Pending; Pending].
Proof.
  intros w. subst w.
  split; [vm_compute; reflexivity|]. split; [vm_compute; reflexivity|].
  split; [vm_compute; reflexivity|]. split; [vm_compute; reflexivity|].
  split; [|vm_compute; reflexivity].
  intros ops f Hf. apply forgotten_pending, run_ops_forgotten.
  apply five_submits_forgotten, Hf.
Qed.

(** ** Shutting down a pool that never had a greenlet *)

Lemma stillborn_apply_op f o w :
  stillborn w ∧ pending_waiter f w →
  stillborn (apply_op o w) ∧ pending_waiter f (apply_op o w).
Proof.
  intros [(Hs & Hg & Ha & Hq & Hr & Hb) [Hf Hn]].
  destruct o as [c|b| |a r]; simpl.
  - unfold submit. rewrite Hs. cbn [snd].
    unfold stillborn, pending_waiter. repeat split; assumption.
  - unfold shutdown, _put, _check_queue. wsimpl. rewrite Hq.
    cbn [queue_pop reverse rev_append]. wsimpl.
    unfold available_pop. rewrite Ha, elements_empty.
    destruct b; unfold stillborn, pending_waiter; wsimpl.
    + rewrite lookup_insert_ne by lia. repeat split; auto.
    + repeat split; auto.
  - unfold run_once. rewrite Hr.
    unfold stillborn, pending_waiter. repeat split; assumption.
  - unfold settle. destruct (awaitables w !! a);
      unfold stillborn, pending_waiter; wsimpl;
      [repeat split; assumption|].
    rewrite Hb, Hr. cbn. repeat split; assumption.
Qed.

Lemma stillborn_run_ops f ops w :
  stillborn w ∧ pending_waiter f w →
  stillborn (run_ops ops w) ∧ pending_waiter f (run_ops ops w).
Proof.
  revert w. induction ops as [|o ops IH]; intros w H; [exact H|].
  simpl. apply IH, stillborn_apply_op, H.
Qed.

(** C4, the code at the failing input. [shutdown(wait=True)] on a pool
    that has not created any greenlet returns a future that never
    resolves, although the set of live greenlets is empty from the start
    and stays empty: the sentinel is taken from the queue while no
    greenlet is available, and nothing else resolves the waiter. *)
Theorem shutdown_of_unused_pool_never_resolves max_workers ops :
  let w := (shutdown true (__init__ max_workers)).2 in
  (shutdown true (__init__ max_workers)).1 = Some 0%nat ∧
  _waiter w = Some 0%nat ∧
  dropped w = [None] ∧
  _greenlets (run_ops ops w) = ∅ ∧
  future_state (run_ops ops w) 0%nat = Pending.
Proof.
  intros w. subst w.
  split; [reflexivity|]. split; [reflexivity|]. split; [reflexivity|].
  destruct (stillborn_run_ops 0%nat ops (shutdown true (__init__ max_workers)).2)
    as [(_ & Hg & _) [Hf _]].
  - split.
    + unfold stillborn. repeat split; reflexivity.
    + unfold pending_waiter. split; [reflexivity|]. cbn. lia.
  - split; [exact Hg|]. unfold future_state. rewrite Hf. reflexivity.
Qed.

(** With idle greenlets only, the sentinel goes from one to the next and
    the last one resolves the waiter: the two greenlets of the scenario,
    once their tasks are done, terminate and the future of [shutdown]
    (the sixth future of the pool) resolves. *)
Example shutdown_of_idle_pool_resolves :
  let w := run_ops (five_submits ++ sleeps_end ++ [OpShutdown true]
                      ++ repeat OpLoop 8) (__init__ (Some 2)) in
  _greenlets w = ∅ ∧ future_state w 5%nat = Done (Ok VNone).
Proof. split; vm_compute; reflexivity. Qed.

(** A second [shutdown(wait=True)] replaces the waiter: the future of the
    first call stays pending although the greenlet terminates and the set
    of live greenlets becomes empty. *)
Example second_shutdown_orphans_first_waiter :
  let w := run_ops ([OpSubmit (Return VNone)] ++ repeat OpLoop 4
                      ++ [OpShutdown true; OpShutdown true]
                      ++ repeat OpLoop 4) (__init__ None) in
  _greenlets w = ∅ ∧ ready w = [] ∧
  future_state w 0%nat = Done (Ok VNone) ∧
  future_state w 1%nat = Pending ∧
  future_state w 2%nat = Done (Ok VNone).
Proof. repeat split; vm_compute; reflexivity. Qed.

(** ** How a dispatched task ends *)

Lemma yield_from_frame a g w :
  gstate (yield_from a g w) = gstate w ∧
  futures (yield_from a g w) = futures w ∧
  task_errors (yield_from a g w) = task_errors w ∧
  _available (yield_from a g w) = _available w.
Proof.
  unfold yield_from. destruct (awaitables w !! a); repeat split; reflexivity.
Qed.

Lemma run_func_finishes g fut c : ∀ rs w r,
  finishes c rs = Some r →
  let sw := run_func g fut c w in
  let w' := wake g rs (_green_task_loop g sw.1 sw.2) in
  match r with
  | Ok v =>
      future_state w' fut = Done (Ok v) ∧ task_errors w' = task_errors w ∧
      gstate w' !! g = Some GIdle ∧ g ∈ _available w'
  | Err e =>
      if is_Exception e then
        future_state w' fut = Done (Err e) ∧ task_errors w' = task_errors w ∧
        gstate w' !! g = Some GIdle ∧ g ∈ _available w'
      else
        future_state w' fut = future_state w fut ∧
        task_errors w' = task_errors w ++ [e] ∧
        gstate w' !! g = Some GDead
  end.
Proof.
  induction c as [v|e|v k IH]; intros rs w r Hfin.
  - destruct rs; [|discriminate]. injection Hfin as <-.
    cbn [wake run_func fst snd _green_task_loop].
    unfold _green_run_idle, future_state. wsimpl.
    rewrite !lookup_insert_eq. repeat split; try reflexivity. set_solver.
  - destruct rs; [|discriminate]. injection Hfin as <-.
    cbn [wake run_func]. destruct (is_Exception e);
      cbn [fst snd _green_task_loop];
      unfold _green_run_idle, future_state; wsimpl;
      rewrite !lookup_insert_eq; repeat split; try reflexivity. set_solver.
  - destruct rs as [|r0 rs]; [discriminate|]. cbn [finishes] in Hfin.
    cbn [run_func wait parent fst snd].
    set (w1 := set_gstate g (GWaiting fut k) w).
    set (w2 := _green_task_loop g (SwValue v) w1).
    assert (Hframe : gstate w2 = gstate w1 ∧ futures w2 = futures w1 ∧
                     task_errors w2 = task_errors w1 ∧
                     _available w2 = _available w1).
    { subst w2. destruct v; try (repeat split; reflexivity).
      apply yield_from_frame. }
    destruct Hframe as (Hgs & Hfs & Hte & _).
    assert (Hg : gstate w2 !! g = Some (GWaiting fut k)).
    { rewrite Hgs. subst w1. wsimpl. apply lookup_insert_eq. }
    cbn [wake]. unfold _green_task_wakeup, greenlet_switch. rewrite Hg.
    specialize (IH r0 rs w2 r Hfin). cbn zeta in IH.
    destruct (run_func g fut (k r0) w2) as [r' w3]. cbn [fst snd] in IH.
    assert (Hfut : future_state w2 fut = future_state w fut).
    { unfold future_state. rewrite Hfs. reflexivity. }
    assert (Herr : task_errors w2 = task_errors w) by (rewrite Hte; reflexivity).
    rewrite Hfut, Herr in IH. exact IH.
Qed.

(** C5, counterexample. A task that raises [KeyboardInterrupt], which is
    not an [Exception], is not caught by [except Exception]: its future
    stays pending and the exception comes out of the greenlet and ends
    [_green_task]. *)
Lemma every_end_is_captured_fails : ¬ every_end_is_captured.
Proof.
  intros H.
  destruct (H 0%nat 0%nat (Raise keyboard_interrupt) []
              (_adjust_greenlet_count (__init__ None))
              (Err keyboard_interrupt) eq_refl eq_refl) as [Hf _].
  vm_compute in Hf. discriminate Hf.
Qed.

(** The same on the pool: the greenlet is dead but still counted, the
    future is pending for good and the exception ended [_green_task]. *)
Example keyboard_interrupt_on_the_pool :
  let w := run_ops [OpSubmit (Raise keyboard_interrupt); OpLoop; OpLoop]
                   (__init__ None) in
  future_state w 0%nat = Pending ∧
  task_errors w = [keyboard_interrupt] ∧
  gstate w !! 0%nat = Some GDead ∧
  elements (_greenlets w) = [0%nat] ∧
  ready w = [].
Proof. repeat split; vm_compute; reflexivity. Qed.

(** C5, amended. For every dispatched task whose call ends [r], its
    [wait]s returning the values [rs]: if the call returns, or raises an
    exception that is an [Exception], the future of the task holds
    exactly that end, no exception has come out of the greenlet to end
    [_green_task], and the greenlet is idle and available again.  An
    exception that is not an [Exception] is not caught: the future is
    left as it was and the exception ends [_green_task]. *)
Theorem task_end_resolves_future g fut c rs w r :
  gstate w !! g = Some GIdle →
  finishes c rs = Some r →
  let w' := wake g rs (_green_task g (Some (fut, c)) w) in
  ((∀ e, r = Err e → is_Exception e = true) →
   future_state w' fut = Done r ∧
   task_errors w' = task_errors w ∧
   gstate w' !! g = Some GIdle ∧ g ∈ _available w') ∧
  (∀ e, r = Err e → is_Exception e = false →
   future_state w' fut = future_state w fut ∧
   task_errors w' = task_errors w ++ [e]).
Proof.
  intros Hg Hfin. unfold _green_task, greenlet_switch. rewrite Hg.
  pose proof (run_func_finishes g fut c rs w r Hfin) as H.
  cbn zeta in *. destruct (run_func g fut c w) as [r' w1]. cbn [fst snd] in H.
  split.
  - intros Hexc. destruct r as [v|e]; [exact H|].
    rewrite (Hexc e eq_refl) in H. exact H.
  - intros e -> Hexc. rewrite Hexc in H. destruct H as (Hf & Ht & _).
    split; assumption.
Qed.

Lemma task_end_resolves_future_witness :
  let w := _adjust_greenlet_count (__init__ (Some 2)) in
  let w' := wake 0%nat [VNone]
              (_green_task 0%nat (Some (7%nat, sleep_then_return 3)) w) in
  gstate w !! 0%nat = Some GIdle ∧
  finishes (sleep_then_return 3) [VNone] = Some (Ok (VInt 3)) ∧
  future_state w' 7%nat = Done (Ok (VInt 3)).
Proof.
  split; [reflexivity|]. split; [reflexivity|].
  apply (proj1 (task_end_resolves_future 0%nat 7%nat (sleep_then_return 3)
                  [VNone] (_adjust_greenlet_count (__init__ (Some 2)))
                  (Ok (VInt 3)) eq_refl eq_refl)).
  intros e He. discriminate He.
Defined.

(** ** The worker of [pulsar/workers/base.py] *)

Section BaseWorker.

Import WorkersBase.

(** The worker after one request that does not reach the threshold. *)
Lemma handle_request_below rq w :
  nr w + 1 < max_requests w ∨ max_requests w = 0 →
  handle_request rq w
  = (request_outcome w rq,
     Worker (cfg w) (_handle_request w) (nr w + 1) (max_requests w)
            (ioloop w) (trace w ++ request_events w rq) (served w)).
Proof.
  intros Hlt. destruct w as [c h n m l tr sv]. cbn [nr max_requests] in Hlt.
  unfold handle_request, bind, count_request, check_num_requests,
    call_pre_request, call_handle_request, call_post_request, try_finally,
    try_except_pass, call, request_outcome, request_events, set_nr, set_trace.
  cbn [cfg _handle_request nr max_requests ioloop trace served].
  assert (Hb : negb (bool_decide (m = 0)) && bool_decide (m ≤ n + 1) = false).
  { destruct Hlt as [Hlt| ->].
    - rewrite (bool_decide_eq_false_2 (m ≤ n + 1)) by lia.
      apply andb_false_r.
    - reflexivity. }
  rewrite Hb. cbn [cfg _handle_request nr max_requests ioloop trace served].
  destruct (pre_request c rq) as [[]|e];
    cbn [cfg _handle_request nr max_requests ioloop trace served];
    [|reflexivity].
  rewrite <- !app_assoc. reflexivity.
Qed.

(** The worker after the request that reaches the threshold while the
    loop is running. *)
Lemma handle_request_at rq w :
  ioloop w = Some LoopRunning →
  max_requests w ≠ 0 →
  max_requests w ≤ nr w + 1 →
  handle_request rq w
  = (request_outcome w rq,
     Worker (cfg w) (_handle_request w) (nr w + 1) (max_requests w)
            (Some LoopStopped)
            (trace w ++ stop_events ++ request_events w rq) (served w)).
Proof.
  intros Hl Hm Hle. destruct w as [c h n m l tr sv].
  cbn [nr max_requests ioloop] in *. subst l.
  unfold handle_request, bind, count_request, check_num_requests, _stop,
    ioloop_stop, emit,
    call_pre_request, call_handle_request, call_post_request, try_finally,
    try_except_pass, call, request_outcome, request_events, stop_events,
    set_nr, set_trace, set_ioloop, bind.
  cbn [cfg _handle_request nr max_requests ioloop trace served running].
  rewrite (bool_decide_eq_false_2 (m = 0)) by exact Hm.
  rewrite (bool_decide_eq_true_2 (m ≤ n + 1)) by exact Hle.
  cbn [negb andb cfg _handle_request nr max_requests ioloop trace served
       running].
  destruct (pre_request c rq) as [[]|e];
    cbn [cfg _handle_request nr max_requests ioloop trace served];
    rewrite <- !app_assoc; reflexivity.
Qed.

(** Below the threshold the loop hands every request to the worker. *)
Lemma dispatch_below reqs : ∀ w,
  ioloop w = Some LoopRunning →
  nr w + Z.of_nat (length reqs) < max_requests w ∨ max_requests w = 0 →
  dispatch reqs w
  = Worker (cfg w) (_handle_request w) (nr w + Z.of_nat (length reqs))
           (max_requests w) (Some LoopRunning)
           (trace w ++ flat_map (request_events w) reqs)
           (served w ++ map (λ rq, (rq, request_outcome w rq)) reqs).
Proof.
  induction reqs as [|rq reqs IH]; intros w Hl Hlt.
  - destruct w as [c h n m l tr sv]. cbn in *. subst l.
    rewrite Z.add_0_r, !app_nil_r. reflexivity.
  - cbn [dispatch]. rewrite Hl.
    rewrite handle_request_below by (cbn [length] in Hlt; lia).
    rewrite IH; cbn [cfg _handle_request nr max_requests ioloop trace served
                     set_served].
    + cbn [length]. rewrite <- !app_assoc.
      f_equal; try reflexivity. lia.
    + exact Hl.
    + cbn [length] in Hlt. lia.
Qed.

(** The request that reaches the threshold is handled to its end, and
    the loop hands over nothing after it. *)
Lemma dispatch_threshold before rK after w :
  ioloop w = Some LoopRunning →
  0 < max_requests w →
  nr w + Z.of_nat (length before) + 1 = max_requests w →
  dispatch (before ++ rK :: after) w
  = Worker (cfg w) (_handle_request w) (max_requests w) (max_requests w)
           (Some LoopStopped)
           (trace w ++ flat_map (request_events w) before ++ stop_events
              ++ request_events w rK)
           (served w
              ++ map (λ rq, (rq, request_outcome w rq)) (before ++ [rK])).
Proof.
  revert w. induction before as [|rq before IH]; intros w Hl Hm Hn.
  - cbn [app dispatch length flat_map] in *. rewrite Hl.
    rewrite handle_request_at by (try assumption; lia).
    cbn [set_served served cfg _handle_request nr max_requests ioloop trace].
    destruct after as [|r' after]; cbn [dispatch ioloop set_served];
      unfold set_served;
      cbn [cfg _handle_request nr max_requests ioloop trace served];
      (f_equal; try reflexivity; lia).
  - cbn [app dispatch]. rewrite Hl.
    rewrite handle_request_below by (cbn [length] in Hn; lia).
    rewrite IH; cbn [cfg _handle_request nr max_requests ioloop trace served
                     set_served].
    + cbn [flat_map]. rewrite <- !app_assoc. f_equal; reflexivity.
    + exact Hl.
    + exact Hm.
    + cbn [length] in Hn. lia.
Qed.

(** A worker that has an event loop starts it. *)
Lemma run_loop_started reqs w l :
  ioloop w = Some l →
  run_loop reqs w = (Ok (), dispatch reqs (set_ioloop (Some LoopRunning) w)).
Proof.
  intros Hl. unfold run_loop, ioloop_start. rewrite Hl. reflexivity.
Qed.

(** A worker without event loop: the [AttributeError] is logged and
    [_run] still takes its way out. *)
Lemma _run_without_ioloop reqs w :
  ioloop w = None →
  ∃ e, (_run reqs w).1 = Ok () ∧
       trace (_run reqs w).2 = trace w ++ EvException e :: exit_events.
Proof.
  intros Hl. exists (Exn OtherException "no ioloop").
  destruct w as [c h n m l tr sv]. cbn [ioloop] in Hl. subst l.
  unfold _run, try_finally, run_loop, ioloop_start, bind, emit,
    try_except_pass, call_worker_exit, call, set_trace, exit_events.
  cbn. rewrite <- !app_assoc. split; reflexivity.
Qed.

(** The claim of C8 does not hold as it is written: the check of the Kth
    request calls [_stop] before the request is handled.  With [K = 1]
    the first request finds [self.close()] and [self.ioloop.stop()]
    already called when its handler runs. *)
Lemma kth_request_completes_before_stop_fails :
  ¬ kth_request_completes_before_stop.
Proof.
  intros H.
  destruct (H (Config (Some 1) (λ _, Ok ()) (λ _, Ok ()) (Ok ()))
              (λ _, Ok ()) 1 [] 11%nat [12%nat]
              ltac:(lia) eq_refl eq_refl (λ _, eq_refl))
    as (l1 & l2 & Htrace & Hl1).
  vm_compute in Htrace.
  destruct l1 as [|e0 [|e1 l1]]; cbn in Htrace.
  - discriminate Htrace.
  - injection Htrace as _ Htrace. discriminate Htrace.
  - injection Htrace as _ He1 _. subst e1.
    apply Forall_cons in Hl1 as [_ Hl1]. apply Forall_cons in Hl1 as [Hl1 _].
    discriminate Hl1.
Qed.

(** C8, amended. A worker configured with [max_requests = K] counts a
    request before it checks the threshold: the check made for a request
    sees the counter with that request in it, so the check of the Kth
    request is the first to succeed.  That check enters the stopping
    path at once: the message, [self.close()] and [self.ioloop.stop()]
    come before the [pre_request] hook and the handler of the Kth
    request.  The Kth request is then handled to its end within the same
    call, and only after it the worker takes its way out of [_run].  The
    request after the Kth is never handed to the worker.  Without a
    configured threshold the threshold is [sys.maxsize]. *)
Theorem auto_restart_after_kth_request c h K before rK after :
  1 ≤ K →
  cfg_max_requests c = Some K →
  Z.of_nat (length before) = K - 1 →
  let w0 := setup (__init__ c h) in
  let end_ := _run (before ++ rK :: after) w0 in
  (∀ rq w, max_requests w = K → nr w + 1 < K →
           nr (handle_request rq w).2 = nr w + 1 ∧
           ioloop (handle_request rq w).2 = ioloop w) ∧
  (∀ rq w, max_requests w = K → nr w + 1 = K →
           ioloop w = Some LoopRunning →
           nr (handle_request rq w).2 = K ∧
           ioloop (handle_request rq w).2 = Some LoopStopped) ∧
  trace end_.2
  = flat_map (request_events w0) before ++ stop_events
      ++ request_events w0 rK ++ exit_events ∧
  served end_.2 = map (λ rq, (rq, request_outcome w0 rq)) (before ++ [rK]) ∧
  nr end_.2 = K ∧
  ioloop end_.2 = Some LoopStopped ∧
  max_requests (__init__ (Config None (pre_request c) (post_request c)
                            (worker_exit c)) h) = maxsize.
Proof.
  intros HK Hc Hlen w0 end_.
  split.
  { intros rq w Hmax Hlt. rewrite handle_request_below by lia.
    split; reflexivity. }
  split.
  { intros rq w Hmax Hlt Hl. rewrite handle_request_at by (try assumption; lia).
    cbn [snd nr ioloop]. split; [exact Hlt|reflexivity]. }
  assert (Hm : max_requests w0 = K).
  { subst w0. unfold setup, __init__, set_ioloop. cbn [max_requests].
    rewrite Hc. unfold or_int. destruct (decide (K = 0)); [lia|reflexivity]. }
  subst end_. unfold _run, try_finally.
  rewrite (run_loop_started _ w0 LoopCreated eq_refl).
  rewrite (dispatch_threshold before rK after (set_ioloop (Some LoopRunning) w0))
    by (cbn [ioloop nr max_requests set_ioloop length]; try reflexivity;
        subst w0; cbn [nr max_requests setup set_ioloop __init__] in *; lia).
  unfold bind, emit, try_except_pass, call_worker_exit, call, set_trace,
    set_ioloop, exit_events.
  cbn [cfg _handle_request nr max_requests ioloop trace served snd].
  rewrite Hm.
  split; [|split; [reflexivity|split; [reflexivity|split; reflexivity]]].
  subst w0. unfold setup, __init__, set_ioloop.
  cbn [cfg _handle_request nr max_requests ioloop trace served app].
  rewrite <- !app_assoc. reflexivity.
Qed.

(** One request in [base.py], whatever the counter and the loop are. *)
Lemma handle_request_handled rq w :
  pre_request (cfg w) rq = Ok () →
  (handle_request rq w).1 = _handle_request w rq ∧
  ∃ evs, trace (handle_request rq w).2
         = trace w ++ evs ++ [EvHandle rq; EvPostRequest rq].
Proof.
  intros Hpre. destruct w as [c h n m l tr sv]. cbn [cfg] in Hpre.
  unfold handle_request, bind, count_request, check_num_requests, _stop,
    ioloop_stop, emit,
    call_pre_request, call_handle_request, call_post_request, try_finally,
    try_except_pass, call, set_nr, set_trace, set_ioloop, bind.
  cbn [cfg _handle_request nr max_requests ioloop trace served].
  destruct (negb (bool_decide (m = 0)) && bool_decide (m ≤ n + 1));
    [destruct l as [[| |]|]|];
    cbn [cfg _handle_request nr max_requests ioloop trace served running];
    rewrite Hpre;
    cbn [cfg _handle_request nr max_requests ioloop trace served fst snd];
    (split; [reflexivity|]); rewrite <- !app_assoc; cbn [app];
    eexists; match goal with |- ?t ++ ?a = ?t ++ ?b ++ ?c =>
      apply (f_equal (app t)) end.
  1,3,4:
    (instantiate (1 := [EvInfo "Auto-restarting worker after current request.";
                        EvPreRequest rq]); reflexivity).
  - instantiate (1 := [EvInfo "Auto-restarting worker after current request.";
                       EvClose; EvLoopStop; EvPreRequest rq]). reflexivity.
  - instantiate (1 := [EvPreRequest rq]). reflexivity.
Qed.

(** A request whose [pre_request] hook raises: the hook is called before
    the [try] block, so the request is counted, the exception goes to
    the caller, and neither the handler nor [post_request] is called. *)
Lemma handle_request_rejected rq w e :
  pre_request (cfg w) rq = Err e →
  (handle_request rq w).1 = Err e ∧
  nr (handle_request rq w).2 = nr w + 1 ∧
  ∃ evs, trace (handle_request rq w).2 = trace w ++ evs ++ [EvPreRequest rq] ∧
         Forall (λ ev, ev ≠ EvHandle rq ∧ ev ≠ EvPostRequest rq) evs.
Proof.
  intros Hpre. destruct w as [c h n m l tr sv]. cbn [cfg] in Hpre.
  unfold handle_request, bind, count_request, check_num_requests, _stop,
    ioloop_stop, emit,
    call_pre_request, call_handle_request, call_post_request, try_finally,
    try_except_pass, call, set_nr, set_trace, set_ioloop, bind.
  cbn [cfg _handle_request nr max_requests ioloop trace served].
  destruct (negb (bool_decide (m = 0)) && bool_decide (m ≤ n + 1));
    [destruct l as [[| |]|]|];
    cbn [cfg _handle_request nr max_requests ioloop trace served running];
    rewrite Hpre;
    cbn [cfg _handle_request nr max_requests ioloop trace served fst snd];
    (split; [reflexivity|]); (split; [reflexivity|]);
    rewrite <- ?app_assoc; cbn [app].
  1,3,4:
    (exists [EvInfo "Auto-restarting worker after current request."];
     split; [reflexivity|]; repeat constructor; discriminate).
  - exists [EvInfo "Auto-restarting worker after current request.";
            EvClose; EvLoopStop].
    split; [reflexivity|]. repeat constructor; discriminate.
  - exists []. split; [reflexivity|constructor].
Qed.

End BaseWorker.

(** ** The worker of [pulsar/workers/async.py] *)

Section AsyncWorker.

Import WorkersAsync.

(** The [finally] block adds the call of the hook and nothing else. *)
Lemma handle_request_finally rq w :
  handle_request rq w
  = let '(r, w1) := except_clauses rq (try_block rq) w in
    (match r with
     | Ok (Some b) => Ok b
     | Ok None => Ok true
     | Err e => Err e
     end,
     set_trace (trace w1 ++ [EvPostRequest]) w1).
Proof.
  unfold handle_request, bind, try_finally, try_except_pass, call, ret.
  destruct (except_clauses rq (try_block rq) w) as [[[b|]|e] w1]; reflexivity.
Qed.

Lemma handle_request_post_request rq w :
  (∃ evs, trace (handle_request rq w).2 = evs ++ [EvPostRequest]) ∧
  ∀ p, handle_request (with_post_request p rq) w = handle_request rq w.
Proof.
  split.
  - rewrite handle_request_finally.
    destruct (except_clauses rq (try_block rq) w) as [r w1].
    cbn [snd set_trace trace]. eexists. reflexivity.
  - intros p. rewrite !handle_request_finally. reflexivity.
Qed.

(** A handler that raises in [async.py]: the hook still runs and the
    exception of the handler is what the caller gets. *)
Example async_handler_raises_hook_raises :
  let rq := Request (Ok ()) (Ok ()) (Err (Exn OtherException "app"))
                    false (Ok ()) (Err (Exn SystemExit "hook")) in
  handle_request rq (Worker 0 10 true false [])
  = (Err (Exn OtherException "app"),
     Worker 1 10 true false [EvPreRequest; EvCreate; EvWsgi; EvPostRequest]).
Proof. reflexivity. Qed.

End AsyncWorker.

(** ** The [post_request] hook *)

(** The claim of C9 does not hold as it is written: in [base.py] the
    [pre_request] hook is called before the [try] block, so a request
    whose [pre_request] hook raises ends without the [post_request]
    hook. *)
Lemma post_request_always_runs_fails : ¬ WorkersBase.post_request_always_runs.
Proof.
  intros H.
  destruct (H 7%nat
              (WorkersBase.setup
                 (WorkersBase.__init__
                    (WorkersBase.Config None
                       (λ _, Err (Exn OtherException "hook"))
                       (λ _, Ok ()) (Ok ()))
                    (λ _, Ok ())))) as [evs Hevs].
  vm_compute in Hevs.
  destruct evs as [|e0 [|e1 evs]]; cbn in Hevs.
  - injection Hevs as Hevs. discriminate Hevs.
  - injection Hevs as _ Hevs. discriminate Hevs.
  - injection Hevs as _ Hevs. discriminate Hevs.
Qed.

(** C9, amended. In [base.py] the [pre_request] hook is called before
    the [try] block.  For every request whose [pre_request] hook has
    returned, the [post_request] hook is called after the handler, also
    when the handler raises, and whatever the hook raises is swallowed:
    the call ends as the handler ended.  In [async.py] the hook is the
    last call of every request, and the request ends the same way, with
    the same worker, whatever the hook does.  A request of [base.py]
    whose [pre_request] hook raises is counted, its exception goes to
    the caller, and neither the handler nor the [post_request] hook is
    called. *)
Theorem post_request_runs_and_is_swallowed :
  (∀ rq w,
     WorkersBase.pre_request (WorkersBase.cfg w) rq = Ok () →
     (WorkersBase.handle_request rq w).1 = WorkersBase._handle_request w rq ∧
     ∃ evs, WorkersBase.trace (WorkersBase.handle_request rq w).2
            = WorkersBase.trace w ++ evs
                ++ [WorkersBase.EvHandle rq; WorkersBase.EvPostRequest rq]) ∧
  (∀ rq w,
     (∃ evs, WorkersAsync.trace (WorkersAsync.handle_request rq w).2
             = evs ++ [WorkersAsync.EvPostRequest]) ∧
     ∀ p, WorkersAsync.handle_request (WorkersAsync.with_post_request p rq) w
          = WorkersAsync.handle_request rq w) ∧
  (∀ rq w e,
     WorkersBase.pre_request (WorkersBase.cfg w) rq = Err e →
     (WorkersBase.handle_request rq w).1 = Err e ∧
     WorkersBase.nr (WorkersBase.handle_request rq w).2
     = WorkersBase.nr w + 1 ∧
     ∃ evs, WorkersBase.trace (WorkersBase.handle_request rq w).2
            = WorkersBase.trace w ++ evs ++ [WorkersBase.EvPreRequest rq] ∧
            Forall (λ ev, ev ≠ WorkersBase.EvHandle rq
                          ∧ ev ≠ WorkersBase.EvPostRequest rq) evs).
Proof.
  split; [|split].
  - apply handle_request_handled.
  - apply handle_request_post_request.
  - apply handle_request_rejected.
Qed.
(** ** The theorems at concrete inputs *)

Lemma init_max_workers_witness :
  5000 ≠ 0 ∧ _max_workers (__init__ (Some 5000)) = Z.min 5000 1000.
Proof.
  split; [discriminate|].
  apply (proj2 (proj2 init_max_workers)). discriminate.
Defined.

Lemma live_greenlets_bounded_witness :
  0 ≤ _max_workers (__init__ (Some 2)) ∧
  Z.of_nat (size (_greenlets (run_ops five_submits (__init__ (Some 2)))))
    ≤ _max_workers (__init__ (Some 2)).
Proof.
  split; [discriminate|].
  apply (proj1 (proj2 (proj2 (proj2
           (live_greenlets_bounded (Some 2) five_submits))))).
  discriminate.
Defined.

Lemma five_tasks_three_forgotten_witness :
  (3 ∈ [2; 3; 4])%nat ∧
  future_state
    (run_ops sleeps_end (run_ops five_submits (__init__ (Some 2)))) 3%nat
  = Pending.
Proof.
  assert (H : (3 ∈ [2; 3; 4])%nat) by (right; left).
  split; [exact H|].
  apply (proj1 (proj2 (proj2 (proj2 (proj2 five_tasks_three_forgotten))))).
  exact H.
Defined.

Lemma auto_restart_after_kth_request_witness :
  let c := WorkersBase.Config (Some 2) (λ _, Ok ())
             (λ _, Err (Exn OtherException "hook")) (Ok ()) in
  let h : WorkersBase.req → result unit := λ _, Ok () in
  1 ≤ 2 ∧
  WorkersBase.cfg_max_requests c = Some 2 ∧
  Z.of_nat (length [10%nat]) = 2 - 1 ∧
  WorkersBase.nr
    (WorkersBase._run ([10%nat] ++ 11%nat :: [12%nat])
       (WorkersBase.setup (WorkersBase.__init__ c h))).2 = 2.
Proof.
  intros c h.
  assert (H1 : 1 ≤ 2) by discriminate.
  split; [exact H1|]. split; [reflexivity|]. split; [reflexivity|].
  apply (proj1 (proj2 (proj2 (proj2 (proj2
           (auto_restart_after_kth_request c h 2 [10%nat] 11%nat [12%nat]
              H1 eq_refl eq_refl)))))).
Defined.

Lemma post_request_runs_and_is_swallowed_witness :
  let c := WorkersBase.Config None (λ _, Ok ())
             (λ _, Err (Exn SystemExit "hook")) (Ok ()) in
  let h : WorkersBase.req → result unit :=
    λ _, Err (Exn OtherException "handler") in
  let w := WorkersBase.setup (WorkersBase.__init__ c h) in
  WorkersBase.pre_request (WorkersBase.cfg w) 7%nat = Ok () ∧
  (WorkersBase.handle_request 7%nat w).1 = Err (Exn OtherException "handler").
Proof.
  intros c h w. split; [reflexivity|].
  apply (proj1 (proj1 post_request_runs_and_is_swallowed 7%nat w eq_refl)).
Defined.

(** * Further properties of the pool *)

(** ** The bookkeeping of the pool agrees with its greenlets *)

#[local] Set Warnings "-clear-no-such-hyp".

Lemma engaged_call_soon cb w :
  engaged (call_soon cb w) ≡ₚ option_list (cb_greenlet cb) ++ engaged w.
Proof.
  unfold engaged. wsimpl. rewrite omap_snoc.
  rewrite (Permutation_app_comm (omap _ _) (option_list _)).
  rewrite <- app_assoc. reflexivity.
Qed.

Lemma engaged_block a g w :
  engaged (set_blocked (blocked w ++ [(a, g)]) w) ≡ₚ g :: engaged w.
Proof.
  unfold engaged. wsimpl. rewrite fmap_app. cbn [fmap list_fmap snd].
  rewrite app_assoc. rewrite <- Permutation_cons_append. reflexivity.
Qed.

Lemma elem_of_engaged_call_soon x cb w :
  x ∈ engaged (call_soon cb w) ↔ cb_greenlet cb = Some x ∨ x ∈ engaged w.
Proof.
  rewrite engaged_call_soon. destruct (cb_greenlet cb) as [g|];
    unfold option_list; cbn [option_rect app].
  - rewrite elem_of_cons. split; intros [H|H]; auto; left; congruence.
  - split; [auto|]. intros [H|H]; [discriminate|exact H].
Qed.

Lemma elem_of_engaged_block x a g w :
  x ∈ engaged (set_blocked (blocked w ++ [(a, g)]) w) ↔ x = g ∨ x ∈ engaged w.
Proof. rewrite engaged_block. apply elem_of_cons. Qed.

Lemma cb_ok_gstate w w' cb :
  (∀ g, cb_greenlet cb = Some g → gstate w' !! g = gstate w !! g) →
  cb_ok w cb → cb_ok w' cb.
Proof.
  intros H. destruct cb as [|g t|g r]; cbn; [auto| |].
  - rewrite (H g eq_refl). auto.
  - unfold waiting. rewrite (H g eq_refl). auto.
Qed.

Lemma blocked_ok_gstate w w' b :
  awaitables w' = awaitables w →
  gstate w' !! b.2 = gstate w !! b.2 →
  blocked_ok w b → blocked_ok w' b.
Proof.
  intros Ha Hg [H1 H2]. split; [rewrite Ha; exact H1|].
  unfold waiting. rewrite Hg. exact H2.
Qed.

(** The state of a greenlet that is neither available nor engaged may
    change freely. *)
Lemma consistent_gstate g s w :
  g ∉ _available w → g ∉ engaged w →
  consistent w → consistent (set_gstate g s w).
Proof.
  intros Ha He (H1 & H2 & H3 & H4 & H5 & H6 & H7).
  unfold consistent. wsimpl. repeat split; auto.
  - intros g' Hg'. rewrite lookup_insert_ne; [auto|]. intros ->. auto.
  - apply H5; assumption.
  - apply H5; assumption.
  - apply Forall_forall. intros cb Hin.
    pose proof (proj1 (Forall_forall _ _) H6 cb Hin) as Hok.
    apply (cb_ok_gstate w); [|exact Hok]. intros g' Hg'. wsimpl.
    apply lookup_insert_ne. intros ->. apply He. unfold engaged.
    apply elem_of_app. left. apply list_elem_of_omap. eauto.
  - apply Forall_forall. intros b Hin.
    pose proof (proj1 (Forall_forall _ _) H7 b Hin) as Hok.
    apply (blocked_ok_gstate w); [reflexivity| |exact Hok]. wsimpl.
    apply lookup_insert_ne. intros Heq. apply He. unfold engaged.
    apply elem_of_app. right. apply list_elem_of_fmap. eauto.
Qed.

Lemma consistent_call_soon cb w :
  consistent w → cb_ok w cb →
  (∀ g, cb_greenlet cb = Some g → detached g w) →
  consistent (call_soon cb w).
Proof.
  intros (H1 & H2 & H3 & H4 & H5 & H6 & H7) Hok Hdet.
  unfold consistent.
  split; [exact H1|]. split; [exact H2|]. split; [exact H3|].
  split; [|split; [|split; [|exact H7]]].
  - rewrite engaged_call_soon.
    destruct (cb_greenlet cb) as [g|] eqn:Hcb; unfold option_list; cbn [option_rect app];
      [|exact H4].
    destruct (Hdet g eq_refl) as (Hg1 & Hg2 & Hg3). apply NoDup_cons; auto.
  - intros x [Hx|Hx]%elem_of_engaged_call_soon; [|auto].
    destruct (Hdet x Hx) as (Hg1 & Hg2 & Hg3). auto.
  - wsimpl. apply Forall_app. split; [exact H6|].
    constructor; [exact Hok|constructor].
Qed.

Lemma consistent_block a g w :
  consistent w → detached g w →
  awaitables w !! a = None → waiting w g →
  consistent (set_blocked (blocked w ++ [(a, g)]) w).
Proof.
  intros (H1 & H2 & H3 & H4 & H5 & H6 & H7) (Hg1 & Hg2 & Hg3) Ha Hw.
  unfold consistent.
  split; [exact H1|]. split; [exact H2|]. split; [exact H3|].
  split; [rewrite engaged_block; apply NoDup_cons; auto|]. split.
  - intros x [->|Hx]%elem_of_engaged_block; auto.
  - split; [exact H6|]. wsimpl. apply Forall_app. split; [exact H7|].
    constructor; [split; assumption|constructor].
Qed.

Lemma consistent_pop_ready cb rest w :
  ready w = cb :: rest → consistent w →
  consistent (set_ready rest w) ∧ cb_ok w cb ∧
  ∀ g, cb_greenlet cb = Some g → detached g (set_ready rest w).
Proof.
  intros Hr (H1 & H2 & H3 & H4 & H5 & H6 & H7).
  assert (He : engaged w
               = option_list (cb_greenlet cb) ++ engaged (set_ready rest w)).
  { unfold engaged. wsimpl. rewrite Hr, omap_cons_list, app_assoc.
    reflexivity. }
  rewrite Hr in H6. apply Forall_cons in H6. destruct H6 as [Hcb H6].
  rewrite He in H4, H5.
  split; [|split; [exact Hcb|]].
  - unfold consistent.
    split; [exact H1|]. split; [exact H2|]. split; [exact H3|].
    split; [apply NoDup_app in H4; apply H4|].
    split; [|split; [exact H6|exact H7]].
    intros g Hg. apply H5. apply elem_of_app. right. exact Hg.
  - intros g Hg. rewrite Hg in H4, H5. unfold option_list in H4, H5; cbn [option_rect app] in H4, H5.
    apply NoDup_cons in H4. destruct H4 as [Hnin _].
    destruct (H5 g) as [Hg1 Hg2]; [left|].
    split; [exact Hg1|]. split; [exact Hg2|exact Hnin].
Qed.

Lemma consistent_available_add g w :
  consistent w → g ∈ _greenlets w → g ∉ engaged w →
  gstate w !! g = Some GIdle →
  consistent (set_available ({[g]} ∪ _available w) w).
Proof.
  intros (H1 & H2 & H3 & H4 & H5 & H6 & H7) Hg He Hs.
  unfold consistent. wsimpl.
  split; [set_solver|]. split; [exact H2|].
  split; [intros g' [->%elem_of_singleton|Hg']%elem_of_union; auto|].
  split; [exact H4|]. split; [|split; [exact H6|exact H7]].
  intros x Hx. destruct (H5 x Hx) as [Hx1 Hx2]. split; [exact Hx1|].
  intros [->%elem_of_singleton|Hx']%elem_of_union; auto.
Qed.

Lemma consistent_available_remove g w :
  consistent w → consistent (set_available (_available w ∖ {[g]}) w).
Proof.
  intros (H1 & H2 & H3 & H4 & H5 & H6 & H7).
  unfold consistent. wsimpl.
  split; [set_solver|]. split; [exact H2|].
  split; [intros g' Hg'; apply H3; set_solver|].
  split; [exact H4|]. split; [|split; [exact H6|exact H7]].
  intros x Hx. destruct (H5 x Hx) as [Hx1 Hx2]. split; [exact Hx1|].
  set_solver.
Qed.

Lemma _green_run_idle_consistent g w :
  consistent w → detached g w → consistent (_green_run_idle g w).
Proof.
  intros H (Hg1 & Hg2 & Hg3).
  change (_green_run_idle g w)
    with (call_soon CbCheckQueue
            (set_available ({[g]} ∪ _available (set_gstate g GIdle w))
               (set_gstate g GIdle w))).
  apply consistent_call_soon; [|exact I|discriminate].
  apply consistent_available_add.
  - apply consistent_gstate; assumption.
  - exact Hg1.
  - exact Hg3.
  - wsimpl. apply lookup_insert_eq.
Qed.

Lemma available_pop_Some s g s' :
  available_pop s = Some (g, s') → g ∈ s ∧ s' = s ∖ {[g]}.
Proof.
  unfold available_pop. destruct (elements s) as [|g0 l] eqn:He; [discriminate|].
  intros [= <- <-]. split; [|reflexivity].
  apply elem_of_elements. rewrite He. left.
Qed.

Lemma available_pop_None s : available_pop s = None → s = ∅.
Proof.
  unfold available_pop. destruct (elements s) as [|g0 l] eqn:He; [|discriminate].
  intros _. apply leibniz_equiv, elements_empty_inv. exact He.
Qed.

Lemma _check_queue_consistent w : consistent w → consistent (_check_queue w).
Proof.
  intros H. unfold _check_queue.
  destruct (queue_pop (_queue w)) as [[t q]|]; [|exact H].
  destruct (available_pop _) as [[g s]|] eqn:Hpop; [|exact H].
  apply available_pop_Some in Hpop. destruct Hpop as [Hg ->].
  cbn [_available set_queue] in Hg |- *.
  pose proof H as (H1 & H2 & H3 & H4 & H5 & H6 & H7).
  apply consistent_call_soon.
  - apply (consistent_available_remove g w H).
  - cbn. apply H3, Hg.
  - intros g' [= <-]. unfold detached. wsimpl.
    split; [apply H1, Hg|]. split; [set_solver|].
    intros He. apply (H5 g He). exact Hg.
Qed.

(** A greenlet that is neither available nor engaged stays so while
    [_check_queue] hands a task to another one. *)
Lemma _check_queue_apart g w :
  consistent w → g ∉ _available w → g ∉ engaged w →
  (g ∉ _available (_check_queue w)) ∧ (g ∉ engaged (_check_queue w)).
Proof.
  intros H Ha He. unfold _check_queue.
  destruct (queue_pop (_queue w)) as [[t q]|]; [|auto].
  destruct (available_pop _) as [[g' s]|] eqn:Hpop; [|auto].
  apply available_pop_Some in Hpop. destruct Hpop as [Hg ->].
  cbn [_available set_queue] in Hg |- *. unfold async.
  split; [wsimpl; set_solver|].
  intros [[= ->]|Hx]%elem_of_engaged_call_soon; [exact (Ha Hg)|exact (He Hx)].
Qed.

Lemma _put_None_consistent w : consistent w → consistent (_put None w).
Proof. intros H. unfold _put. apply _check_queue_consistent. exact H. Qed.

Lemma _put_None_apart g w :
  consistent w → g ∉ _available w → g ∉ engaged w →
  (g ∉ _available (_put None w)) ∧ (g ∉ engaged (_put None w)).
Proof.
  intros H Ha He. unfold _put. apply _check_queue_apart; assumption.
Qed.

Lemma _adjust_greenlet_count_consistent w :
  consistent w → consistent (_adjust_greenlet_count w).
Proof.
  intros H. destruct (_adjust_greenlet_count_cases w) as [[_ ->]|[_ ->]];
    [|exact H].
  pose proof H as (H1 & H2 & H3 & H4 & H5 & H6 & H7).
  assert (Hfresh : next_gid w ∉ _greenlets w).
  { intros Hin. apply H2 in Hin. lia. }
  apply _green_run_idle_consistent.
  - unfold consistent. wsimpl.
    split; [set_solver|].
    split; [intros g [->%elem_of_singleton|Hg]%elem_of_union;
            [lia|apply H2 in Hg; lia]|].
    split; [exact H3|]. split; [exact H4|].
    split; [|split; [exact H6|exact H7]].
    intros x Hx. destruct (H5 x Hx). split; [set_solver|assumption].
  - unfold detached. wsimpl. split; [set_solver|].
    split; [intros Hin; apply Hfresh, H1, Hin|].
    intros Hin. apply Hfresh. apply (H5 _ Hin).
Qed.

Lemma _put_consistent t w : consistent w → consistent (_put t w).
Proof.
  intros H. unfold _put. apply _check_queue_consistent.
  destruct t; [apply _adjust_greenlet_count_consistent|]; exact H.
Qed.

Lemma yield_from_consistent a g w :
  consistent w → detached g w → waiting w g →
  consistent (yield_from a g w).
Proof.
  intros H Hd Hw. unfold yield_from.
  destruct (awaitables w !! a) as [r|] eqn:Ha.
  - apply consistent_call_soon; [exact H|exact Hw|].
    intros g' [= <-]. exact Hd.
  - apply consistent_block; assumption.
Qed.

(** Greenlet [g] runs [c] up to its next switch to the parent and
    [_green_task] takes what it gets back. *)
Lemma run_func_consistent g fut c w :
  consistent w → detached g w →
  consistent (_green_task_loop g (run_func g fut c w).1 (run_func g fut c w).2).
Proof.
  intros H Hd. pose proof Hd as (Hg1 & Hg2 & Hg3).
  destruct c as [v|e|v k]; cbn [run_func].
  - cbn [fst snd _green_task_loop].
    apply _green_run_idle_consistent; [exact H|exact Hd].
  - destruct (is_Exception e); cbn [fst snd _green_task_loop].
    + apply _green_run_idle_consistent; [exact H|exact Hd].
    + apply (consistent_gstate g GDead w Hg2 Hg3 H).
  - cbn [wait parent fst snd].
    assert (H1 : consistent (set_gstate g (GWaiting fut k) w))
      by (apply consistent_gstate; assumption).
    destruct v as [| | |a]; cbn [_green_task_loop]; try exact H1.
    apply yield_from_consistent; [exact H1|exact Hd|].
    exists fut, k. wsimpl. apply lookup_insert_eq.
Qed.

Lemma _green_run_exit_consistent g w :
  consistent w → detached g w → consistent (_green_run_exit g w).2.
Proof.
  intros H (Hg1 & Hg2 & Hg3). unfold _green_run_exit. cbn [snd].
  set (w1 := set_greenlets (_greenlets w ∖ {[g]}) w).
  assert (H1 : consistent w1).
  { destruct H as (H1 & H2 & H3 & H4 & H5 & H6 & H7).
    subst w1. unfold consistent. wsimpl.
    split; [set_solver|]. split; [intros g' Hg'; apply H2; set_solver|].
    split; [exact H3|]. split; [exact H4|].
    split; [|split; [exact H6|exact H7]].
    intros x Hx. destruct (H5 x Hx) as [Hx1 Hx2]. split; [|exact Hx2].
    apply elem_of_difference. split; [exact Hx1|].
    intros ->%elem_of_singleton. exact (Hg3 Hx). }
  destruct (decide (_greenlets w1 = ∅)).
  - destruct (_waiter w1);
      (apply consistent_gstate; [exact Hg2|exact Hg3|exact H1]).
  - destruct (_put_None_apart g w1 H1 Hg2 Hg3) as [Ha He].
    apply consistent_gstate; [exact Ha|exact He|].
    apply _put_None_consistent, H1.
Qed.

Lemma _green_task_consistent g t w :
  consistent w → detached g w → gstate w !! g = Some GIdle →
  consistent (_green_task g t w).
Proof.
  intros H Hd Hs. unfold _green_task, greenlet_switch. rewrite Hs.
  destruct t as [[fut c]|].
  - pose proof (run_func_consistent g fut c w H Hd) as Hc.
    destruct (run_func g fut c w) as [r w1]. exact Hc.
  - pose proof (_green_run_exit_consistent g w H Hd) as Hc.
    unfold _green_run_exit in *. cbn [snd] in Hc. exact Hc.
Qed.

Lemma _green_task_wakeup_consistent g r w :
  consistent w → detached g w → waiting w g →
  consistent (_green_task_wakeup g r w).
Proof.
  intros H Hd (fut & k & Hs). unfold _green_task_wakeup.
  destruct r as [v|e]; [|exact H].
  unfold greenlet_switch. rewrite Hs.
  pose proof (run_func_consistent g fut (k v) w H Hd) as Hc.
  destruct (run_func g fut (k v) w) as [r w1]. exact Hc.
Qed.

Lemma run_once_consistent w : consistent w → consistent (run_once w).
Proof.
  intros H. unfold run_once. destruct (ready w) as [|cb rest] eqn:Hr; [exact H|].
  destruct (consistent_pop_ready cb rest w Hr H) as (H1 & Hok & Hdet).
  destruct cb as [|g t|g r]; cbn [run_callback].
  - apply _check_queue_consistent, H1.
  - apply _green_task_consistent; [exact H1|apply Hdet; reflexivity|exact Hok].
  - apply _green_task_wakeup_consistent;
      [exact H1|apply Hdet; reflexivity|exact Hok].
Qed.

Lemma settle_engaged a r w :
  awaitables w !! a = None →
  engaged (settle a r w) ≡ₚ engaged w.
Proof.
  intros Ha. unfold settle. rewrite Ha. unfold engaged. wsimpl.
  rewrite omap_app, <- app_assoc. apply Permutation_app; [reflexivity|].
  rewrite <- (filter_app_complement (λ b, b.1 = a) (blocked w)) at 3.
  rewrite fmap_app. apply Permutation_app; [|reflexivity].
  induction (filter (λ b, b.1 = a) (blocked w)) as [|b l IH]; [reflexivity|].
  cbn. rewrite IH. reflexivity.
Qed.

Lemma settle_consistent a r w : consistent w → consistent (settle a r w).
Proof.
  intros H. destruct (awaitables w !! a) as [r0|] eqn:Ha.
  { unfold settle. rewrite Ha. exact H. }
  pose proof (settle_engaged a r w Ha) as Hperm.
  destruct H as (H1 & H2 & H3 & H4 & H5 & H6 & H7).
  assert (Hsame : ∀ P : world → Prop,
            P (set_ready (ready w ++ map (λ b, CbResume b.2 r)
                            (filter (λ b, b.1 = a) (blocked w)))
                 (set_blocked (filter (λ b, b.1 ≠ a) (blocked w))
                    (set_awaitables (<[a:=r]> (awaitables w)) w))) →
            P (settle a r w)).
  { intros P HP. unfold settle. rewrite Ha. exact HP. }
  unfold consistent.
  split; [apply (Hsame (λ x, _available x ⊆ _greenlets x)); exact H1|].
  split; [apply (Hsame (λ x, ∀ g, g ∈ _greenlets x → (g < next_gid x)%nat));
          exact H2|].
  split; [apply (Hsame (λ x, ∀ g, g ∈ _available x
                                  → gstate x !! g = Some GIdle)); exact H3|].
  split; [rewrite Hperm; exact H4|].
  split.
  { intros g Hg. rewrite Hperm in Hg.
    apply (Hsame (λ x, g ∈ _greenlets x ∧ g ∉ _available x)). auto. }
  split.
  - apply (Hsame (λ x, Forall (cb_ok x) (ready x))). wsimpl.
    apply Forall_app. split; [exact H6|].
    apply Forall_forall. intros cb (b & -> & Hb)%list_elem_of_fmap.
    apply list_elem_of_filter in Hb. destruct Hb as [_ Hb].
    apply (proj1 (Forall_forall _ _) H7 b Hb).
  - apply (Hsame (λ x, Forall (blocked_ok x) (blocked x))). wsimpl.
    apply Forall_forall. intros b [Hne Hb]%list_elem_of_filter.
    destruct (proj1 (Forall_forall _ _) H7 b Hb) as [Hb1 Hb2].
    split; [|exact Hb2]. wsimpl. rewrite lookup_insert_ne; [exact Hb1|].
    congruence.
Qed.

Lemma submit_consistent c w : consistent w → consistent (submit c w).2.
Proof.
  intros H. unfold submit. destruct (_shutdown w); [exact H|].
  cbn [new_future snd]. apply _put_consistent. exact H.
Qed.

Lemma shutdown_consistent b w : consistent w → consistent (shutdown b w).2.
Proof.
  intros H. unfold shutdown.
  assert (H1 : consistent (_put None (set_shutdown true w)))
    by (apply _put_None_consistent; exact H).
  destruct b; cbn [new_future snd]; exact H1.
Qed.

Lemma apply_op_consistent o w : consistent w → consistent (apply_op o w).
Proof.
  intros H. destruct o as [c|b| |a r]; cbn [apply_op].
  - apply submit_consistent, H.
  - apply shutdown_consistent, H.
  - apply run_once_consistent, H.
  - apply settle_consistent, H.
Qed.

Lemma __init___consistent max_workers : consistent (__init__ max_workers).
Proof.
  unfold consistent, engaged. cbn.
  split; [set_solver|]. split; [set_solver|]. split; [set_solver|].
  split; [constructor|]. split; [set_solver|]. split; constructor.
Qed.

Lemma run_ops_consistent ops w : consistent w → consistent (run_ops ops w).
Proof.
  revert w. induction ops as [|o ops IH]; intros w H; [exact H|].
  cbn. apply IH, apply_op_consistent, H.
Qed.

(** X1. After every sequence of operations on a new pool, the available
    greenlets are live greenlets of the pool, and each of them is
    suspended at [task = parent.switch()] in [_green_run]: a greenlet is
    never available while it runs a task or waits inside one. *)
Theorem available_greenlets_are_idle max_workers ops g :
  let w := run_ops ops (__init__ max_workers) in
  g ∈ _available w →
  g ∈ _greenlets w ∧ gstate w !! g = Some GIdle ∧ g ∉ engaged w.
Proof.
  intros w Hg.
  destruct (run_ops_consistent ops _ (__init___consistent max_workers))
    as (H1 & H2 & H3 & H4 & H5 & H6 & H7). fold w in H1, H3, H5.
  split; [apply H1, Hg|]. split; [apply H3, Hg|].
  intros He. apply (H5 g He). exact Hg.
Qed.

(** X2. After every sequence of operations on a new pool, no greenlet is
    the target of two pending steps of the loop, and every ready callback
    finds its greenlet where it expects it: a task or a sentinel is
    switched into a live greenlet suspended at [parent.switch()] in
    [_green_run], an awaited value into a live greenlet suspended in
    [wait]. *)
Theorem loop_switches_into_suspended_greenlets max_workers ops :
  let w := run_ops ops (__init__ max_workers) in
  NoDup (engaged w) ∧
  ∀ cb, cb ∈ ready w →
    match cb with
    | CbCheckQueue => True
    | CbStart g _ => g ∈ _greenlets w ∧ gstate w !! g = Some GIdle
    | CbResume g _ =>
        g ∈ _greenlets w ∧ ∃ fut k, gstate w !! g = Some (GWaiting fut k)
    end.
Proof.
  intros w.
  destruct (run_ops_consistent ops _ (__init___consistent max_workers))
    as (H1 & H2 & H3 & H4 & H5 & H6 & H7). fold w in H4, H5, H6.
  split; [exact H4|]. intros cb Hcb.
  pose proof (proj1 (Forall_forall _ _) H6 cb Hcb) as Hok.
  destruct cb as [|g t|g r]; [exact I| |];
    (split; [|exact Hok]); apply H5; unfold engaged; apply elem_of_app; left;
    apply list_elem_of_omap; eexists; (split; [exact Hcb|reflexivity]).
Qed.

(** ** The queue holds nothing between two operations *)

Lemma queue_pop_length q t q' :
  queue_pop q = Some (t, q') → length q = S (length q').
Proof.
  intros H%queue_pop_Some. apply (f_equal length) in H.
  rewrite length_reverse in H. cbn in H. rewrite length_reverse in H. exact H.
Qed.

Lemma _check_queue_length w :
  length (_queue (_check_queue w)) = Nat.pred (length (_queue w)).
Proof.
  unfold _check_queue.
  destruct (queue_pop (_queue w)) as [[t q]|] eqn:Hpop.
  - apply queue_pop_length in Hpop. rewrite Hpop.
    destruct (available_pop _) as [[g s]|]; reflexivity.
  - apply queue_pop_None in Hpop. rewrite Hpop. reflexivity.
Qed.

Lemma _adjust_greenlet_count_queue w :
  _queue (_adjust_greenlet_count w) = _queue w.
Proof.
  destruct (_adjust_greenlet_count_cases w) as [[_ ->]|[_ ->]]; reflexivity.
Qed.

(** [_put] leaves the queue as long as it found it. *)
Lemma _put_length t w : length (_queue (_put t w)) = length (_queue w).
Proof.
  unfold _put. rewrite _check_queue_length. cbn [_queue set_queue length].
  destruct t; [rewrite _adjust_greenlet_count_queue|]; reflexivity.
Qed.

Lemma run_func_queue g fut c w : _queue (run_func g fut c w).2 = _queue w.
Proof. destruct c as [v|e|v k]; cbn; [| destruct (is_Exception e)|]; reflexivity. Qed.

Lemma _green_run_exit_length g w :
  length (_queue (_green_run_exit g w).2) = length (_queue w).
Proof.
  unfold _green_run_exit. cbn [snd set_gstate _queue].
  destruct (decide _).
  - destruct (_waiter _); reflexivity.
  - rewrite _put_length. reflexivity.
Qed.

Lemma greenlet_switch_length g x w :
  length (_queue (greenlet_switch g x w).2) = length (_queue w).
Proof.
  unfold greenlet_switch.
  destruct (gstate w !! g) as [[|fut k|]|]; destruct x as [[[fut' c]|]|v];
    cbn [snd]; try reflexivity.
  - rewrite run_func_queue. reflexivity.
  - apply _green_run_exit_length.
  - rewrite run_func_queue. reflexivity.
Qed.

Lemma _green_task_loop_queue g r w : _queue (_green_task_loop g r w) = _queue w.
Proof.
  destruct r as [[| | |a]|e]; try reflexivity.
  cbn. unfold yield_from. destruct (awaitables w !! a); reflexivity.
Qed.

Lemma run_once_length w :
  (length (_queue (run_once w)) ≤ length (_queue w))%nat.
Proof.
  unfold run_once. destruct (ready w) as [|cb rest]; [reflexivity|].
  destruct cb as [|g t|g r]; cbn [run_callback].
  - rewrite _check_queue_length. cbn. lia.
  - unfold _green_task.
    pose proof (greenlet_switch_length g (ArgTask t) (set_ready rest w)) as H.
    destruct (greenlet_switch _ _ _) as [r w1]. cbn [snd] in H.
    rewrite _green_task_loop_queue, H. reflexivity.
  - unfold _green_task_wakeup. destruct r as [v|e]; [|reflexivity].
    pose proof (greenlet_switch_length g (ArgValue v) (set_ready rest w)) as H.
    destruct (greenlet_switch _ _ _) as [r w1]. cbn [snd] in H.
    rewrite _green_task_loop_queue, H. reflexivity.
Qed.

Lemma apply_op_length o w :
  (length (_queue (apply_op o w)) ≤ length (_queue w))%nat.
Proof.
  destruct o as [c|b| |a r]; cbn [apply_op].
  - unfold submit. destruct (_shutdown w); [reflexivity|].
    cbn [new_future snd]. rewrite _put_length. reflexivity.
  - unfold shutdown.
    pose proof (_put_length None (set_shutdown true w)) as H.
    destruct b; cbn [new_future snd set_waiter set_next_fid set_future _queue];
      rewrite H; reflexivity.
  - apply run_once_length.
  - unfold settle. destruct (awaitables w !! a); reflexivity.
Qed.

Lemma run_ops_queue_empty ops w :
  _queue w = [] → _queue (run_ops ops w) = [].
Proof.
  intros Hq.
  assert (H : ∀ w, (length (_queue (run_ops ops w)) ≤ length (_queue w))%nat).
  { induction ops as [|o ops IH]; intros w0; [reflexivity|].
    cbn. etransitivity; [apply IH|apply apply_op_length]. }
  specialize (H w). rewrite Hq in H.
  destruct (_queue (run_ops ops w)); [reflexivity|cbn in H; lia].
Qed.

(** X3. After every sequence of operations on a new pool the queue is
    empty: the [_put] that appends a task or a sentinel also takes it
    out again, so nothing ever waits in the queue for a greenlet. *)
Theorem queue_is_empty_between_operations max_workers ops :
  _queue (run_ops ops (__init__ max_workers)) = [].
Proof.
  assert (H : ∀ w, (length (_queue (run_ops ops w)) ≤ length (_queue w))%nat).
  { induction ops as [|o ops IH]; intros w; [reflexivity|].
    cbn. etransitivity; [apply IH|apply apply_op_length]. }
  specialize (H (__init__ max_workers)). cbn in H.
  destruct (_queue _); [reflexivity|cbn in H; lia].
Qed.

(** ** Futures nothing mentions *)

Lemma untouched_refl f w : unreferenced f w → untouched f w w.
Proof. intros H. split; [exact H|]. split; reflexivity. Qed.

Lemma untouched_trans f w1 w2 w3 :
  untouched f w1 w2 → untouched f w2 w3 → untouched f w1 w3.
Proof.
  intros (_ & H1 & Hn1) (H2 & H3 & Hn2).
  split; [exact H2|]. split; [congruence|lia].
Qed.

(** Continues with the world the first step reached. *)
Lemma untouched_step f w1 w2 w3 :
  untouched f w1 w2 → (unreferenced f w2 → untouched f w2 w3) →
  untouched f w1 w3.
Proof.
  intros H1 H2. eapply untouched_trans; [exact H1|]. apply H2, H1.
Qed.

Ltac unreferenced_fields H :=
  destruct H as (?Hw & ?Hq & ?Hr & ?Hg);
  unfold untouched, unreferenced; wsimpl; repeat split; auto.

Lemma untouched_ready f cb w :
  cb_future cb ≠ Some f → unreferenced f w → untouched f w (call_soon cb w).
Proof.
  intros Hcb H. unreferenced_fields H.
  apply Forall_app. split; [exact Hr|]. constructor; [exact Hcb|constructor].
Qed.

Lemma untouched_gstate f g s w :
  gstatus_future s ≠ Some f → unreferenced f w →
  untouched f w (set_gstate g s w).
Proof.
  intros Hs H. unreferenced_fields H. apply map_Forall_insert_2; assumption.
Qed.

Lemma untouched_future f f' s w :
  f' ≠ f → unreferenced f w → untouched f w (set_future f' s w).
Proof.
  intros Hne H. unreferenced_fields H. rewrite lookup_insert_ne; auto.
Qed.

Lemma yield_from_untouched f a g w :
  unreferenced f w → untouched f w (yield_from a g w).
Proof.
  intros H. unfold yield_from. destruct (awaitables w !! a).
  - apply untouched_ready; [discriminate|exact H].
  - unreferenced_fields H.
Qed.

Lemma _green_run_idle_untouched f g w :
  unreferenced f w → untouched f w (_green_run_idle g w).
Proof.
  intros H. unfold _green_run_idle.
  eapply untouched_step; [|apply untouched_gstate; discriminate].
  eapply untouched_step; [|apply untouched_ready; discriminate].
  unreferenced_fields H.
Qed.

Lemma _adjust_greenlet_count_untouched f w :
  unreferenced f w → untouched f w (_adjust_greenlet_count w).
Proof.
  intros H. destruct (_adjust_greenlet_count_cases w) as [[_ ->]|[_ ->]];
    [|apply untouched_refl, H].
  eapply untouched_step; [|apply _green_run_idle_untouched].
  unreferenced_fields H.
Qed.

Lemma _check_queue_untouched f w :
  unreferenced f w → untouched f w (_check_queue w).
Proof.
  intros H. unfold _check_queue.
  destruct (queue_pop (_queue w)) as [[t q]|] eqn:Hpop;
    [|apply untouched_refl, H].
  apply queue_pop_Some in Hpop.
  assert (Hq' : task_future t ≠ Some f ∧ Forall (λ t, task_future t ≠ Some f) q).
  { destruct H as (_ & Hq & _). apply Forall_reverse in Hq.
    rewrite Hpop in Hq. apply Forall_cons in Hq. destruct Hq as [Ht Hq].
    split; [exact Ht|]. apply Forall_reverse. exact Hq. }
  destruct Hq' as [Ht Hq'].
  destruct (available_pop _) as [[g s]|].
  - eapply untouched_step; [|apply untouched_ready; exact Ht].
    unreferenced_fields H.
  - unreferenced_fields H.
Qed.

Lemma _put_untouched f t w :
  task_future t ≠ Some f → unreferenced f w → untouched f w (_put t w).
Proof.
  intros Ht H. unfold _put.
  set (w1 := match t with Some _ => _adjust_greenlet_count w | None => w end).
  assert (H1 : untouched f w w1).
  { subst w1. destruct t;
      [apply _adjust_greenlet_count_untouched|apply untouched_refl]; exact H. }
  eapply untouched_step; [exact H1|]. intros H2.
  eapply untouched_step; [|apply _check_queue_untouched].
  unreferenced_fields H2.
Qed.

Lemma run_func_untouched f g fut c w :
  fut ≠ f → unreferenced f w → untouched f w (run_func g fut c w).2.
Proof.
  intros Hne H. destruct c as [v|e|v k]; cbn [run_func snd].
  - eapply untouched_step; [apply untouched_future; eassumption|].
    apply _green_run_idle_untouched.
  - destruct (is_Exception e); cbn [snd].
    + eapply untouched_step; [apply untouched_future; eassumption|].
      apply _green_run_idle_untouched.
    + apply untouched_gstate; [discriminate|exact H].
  - cbn [wait parent snd]. apply untouched_gstate; [|exact H].
    cbn. congruence.
Qed.

Lemma _green_run_exit_untouched f g w :
  unreferenced f w → untouched f w (_green_run_exit g w).2.
Proof.
  intros H. unfold _green_run_exit. cbn [snd].
  set (w1 := set_greenlets (_greenlets w ∖ {[g]}) w).
  assert (H1 : untouched f w w1) by (subst w1; unreferenced_fields H).
  eapply untouched_step; [exact H1|]. intros H1'.
  eapply untouched_step; [|apply untouched_gstate; discriminate].
  destruct (decide (_greenlets w1 = ∅)).
  - destruct (_waiter w1) as [f'|] eqn:Hw'; [|apply untouched_refl, H1'].
    assert (f' ≠ f) by (destruct H1' as (Hw & _); congruence).
    eapply untouched_step; [apply untouched_future; eassumption|].
    intros H2. unreferenced_fields H2.
  - apply _put_untouched; [discriminate|exact H1'].
Qed.

Lemma greenlet_switch_untouched f g x w :
  (∀ t, x = ArgTask t → task_future t ≠ Some f) →
  unreferenced f w → untouched f w (greenlet_switch g x w).2.
Proof.
  intros Hx H. unfold greenlet_switch.
  destruct (gstate w !! g) as [[|fut k|]|] eqn:Hg;
    destruct x as [[[fut' c]|]|v]; cbn [snd]; try apply untouched_refl, H.
  - apply run_func_untouched; [|exact H].
    specialize (Hx _ eq_refl). cbn in Hx. congruence.
  - apply _green_run_exit_untouched, H.
  - apply run_func_untouched; [|exact H].
    destruct H as (_ & _ & _ & Hgs).
    specialize (Hgs _ _ Hg). cbn in Hgs. congruence.
Qed.

Lemma _green_task_loop_untouched f g r w :
  unreferenced f w → untouched f w (_green_task_loop g r w).
Proof.
  intros H. unfold _green_task_loop.
  destruct r as [[| | |a]|e]; try apply untouched_refl, H.
  - apply yield_from_untouched, H.
  - unreferenced_fields H.
Qed.

Lemma _green_task_untouched f g t w :
  task_future t ≠ Some f → unreferenced f w →
  untouched f w (_green_task g t w).
Proof.
  intros Ht H. unfold _green_task.
  pose proof (greenlet_switch_untouched f g (ArgTask t) w) as Hs.
  destruct (greenlet_switch g (ArgTask t) w) as [r w1]. cbn [snd] in Hs.
  eapply untouched_step; [apply Hs; [|exact H]|].
  - intros t' [= <-]. exact Ht.
  - apply _green_task_loop_untouched.
Qed.

Lemma _green_task_wakeup_untouched f g r w :
  unreferenced f w → untouched f w (_green_task_wakeup g r w).
Proof.
  intros H. unfold _green_task_wakeup. destruct r as [v|e].
  - pose proof (greenlet_switch_untouched f g (ArgValue v) w) as Hs.
    destruct (greenlet_switch g (ArgValue v) w) as [r w1]. cbn [snd] in Hs.
    eapply untouched_step; [apply Hs; [discriminate|exact H]|].
    apply _green_task_loop_untouched.
  - unreferenced_fields H.
Qed.

Lemma run_once_untouched f w : unreferenced f w → untouched f w (run_once w).
Proof.
  intros H. unfold run_once.
  destruct (ready w) as [|cb rest] eqn:Hr; [apply untouched_refl, H|].
  assert (Hcb : cb_future cb ≠ Some f ∧ Forall (λ cb, cb_future cb ≠ Some f) rest).
  { destruct H as (_ & _ & Hr' & _). rewrite Hr in Hr'.
    apply Forall_cons in Hr'. exact Hr'. }
  destruct Hcb as [Hcb Hrest].
  assert (H1 : untouched f w (set_ready rest w)) by unreferenced_fields H.
  eapply untouched_step; [exact H1|]. intros H1'.
  destruct cb as [|g t|g r]; cbn [run_callback].
  - apply _check_queue_untouched, H1'.
  - apply _green_task_untouched; assumption.
  - apply _green_task_wakeup_untouched, H1'.
Qed.

Lemma settle_untouched f a r w : unreferenced f w → untouched f w (settle a r w).
Proof.
  intros H. unfold settle. destruct (awaitables w !! a);
    [apply untouched_refl, H|].
  unreferenced_fields H. apply Forall_app. split; [assumption|].
  apply Forall_forall. intros cb Hin. apply list_elem_of_fmap in Hin.
  destruct Hin as (b & -> & _). discriminate.
Qed.

Lemma new_future_untouched f w :
  f ≠ next_fid w → unreferenced f w → untouched f w (new_future w).2.
Proof.
  intros Hne H. unfold new_future. cbn [snd].
  eapply untouched_step; [apply (untouched_future f (next_fid w) Pending w);
                          [congruence|exact H]|].
  intros H1. unreferenced_fields H1.
Qed.

Lemma submit_untouched f c w :
  f ≠ next_fid w → unreferenced f w → untouched f w (submit c w).2.
Proof.
  intros Hne H. unfold submit. destruct (_shutdown w); [apply untouched_refl, H|].
  pose proof (new_future_untouched f w Hne H) as H1.
  cbn [new_future fst snd] in *.
  eapply untouched_step; [exact H1|]. intros H1'.
  match goal with |- untouched _ _ (_put ?t ?x) =>
    assert (H2 : untouched f (set_next_fid (S (next_fid w))
                               (set_future (next_fid w) Pending w)) x)
      by unreferenced_fields H1' end.
  eapply untouched_step; [exact H2|].
  apply _put_untouched. cbn. congruence.
Qed.

Lemma shutdown_untouched f b w :
  f ≠ next_fid w → unreferenced f w → untouched f w (shutdown b w).2.
Proof.
  intros Hne H. unfold shutdown.
  assert (H1 : untouched f w (_put None (set_shutdown true w))).
  { eapply (untouched_step f w (set_shutdown true w));
      [unreferenced_fields H|]. apply _put_untouched. discriminate. }
  destruct b; [|exact H1].
  assert (Hn : next_fid (_put None (set_shutdown true w)) = next_fid w).
  { unfold _put. cbn [set_shutdown set_queue].
    unfold _check_queue. destruct (queue_pop _) as [[t q]|]; [|reflexivity].
    destruct (available_pop _) as [[g s]|]; reflexivity. }
  eapply untouched_step; [exact H1|]. intros H1'.
  pose proof (new_future_untouched f _ ltac:(rewrite Hn; exact Hne) H1') as H2.
  destruct (new_future _) as [f' w2] eqn:Hnf. cbn [fst snd] in *.
  eapply untouched_step; [exact H2|]. intros H2'.
  assert (f' ≠ f).
  { unfold new_future in Hnf. injection Hnf as <- _. congruence. }
  unreferenced_fields H2'. congruence.
Qed.

Lemma apply_op_untouched f o w :
  f ≠ next_fid w → unreferenced f w → untouched f w (apply_op o w).
Proof.
  intros Hne H. destruct o as [c|b| |a r]; cbn [apply_op].
  - apply submit_untouched; assumption.
  - apply shutdown_untouched; assumption.
  - apply run_once_untouched, H.
  - apply settle_untouched, H.
Qed.

Lemma _check_queue_next_fid w : next_fid (_check_queue w) = next_fid w.
Proof.
  unfold _check_queue. destruct (queue_pop _) as [[t q]|]; [|reflexivity].
  destruct (available_pop _) as [[g s]|]; reflexivity.
Qed.

Lemma _put_next_fid t w : next_fid (_put t w) = next_fid w.
Proof.
  unfold _put. rewrite _check_queue_next_fid. cbn [set_queue next_fid].
  destruct t; [|reflexivity].
  destruct (_adjust_greenlet_count_cases w) as [[_ ->]|[_ ->]]; reflexivity.
Qed.

Lemma submit_next_fid c w :
  next_fid (submit c w).2
  = if _shutdown w then next_fid w else S (next_fid w).
Proof.
  unfold submit. destruct (_shutdown w); [reflexivity|].
  cbn [new_future snd]. rewrite _put_next_fid. reflexivity.
Qed.

Lemma shutdown_next_fid b w :
  next_fid (shutdown b w).2 = if b then S (next_fid w) else next_fid w.
Proof.
  unfold shutdown. destruct b; cbn [new_future snd set_waiter set_next_fid
                                      next_fid];
    rewrite ?_put_next_fid; reflexivity.
Qed.

Lemma apply_op_fresh_ids o w : fresh_ids w → fresh_ids (apply_op o w).
Proof.
  intros Hfresh f Hf.
  assert (Hgo : (next_fid w ≤ f)%nat →
                f ≠ next_fid w ∨ (∀ f', unreferenced f' w
                                        → untouched f' w (apply_op o w)) →
                unreferenced f (apply_op o w)
                ∧ futures (apply_op o w) !! f = None).
  { intros Hle Hcase. destruct (Hfresh f Hle) as [Hu Hnone].
    assert (Hun : untouched f w (apply_op o w)).
    { destruct Hcase as [Hne|Hall]; [apply apply_op_untouched|apply Hall];
        assumption. }
    destruct Hun as (Hu' & Hf' & _). split; [exact Hu'|].
    etransitivity; [exact Hf'|exact Hnone]. }
  destruct o as [c|b| |a r]; cbn [apply_op] in *.
  - rewrite submit_next_fid in Hf. destruct (_shutdown w) eqn:Hs.
    + apply Hgo; [exact Hf|]. right. intros f' Hf'. unfold submit.
      rewrite Hs. apply untouched_refl, Hf'.
    + apply Hgo; [lia|]. left. lia.
  - rewrite shutdown_next_fid in Hf. destruct b.
    + apply Hgo; [lia|]. left. lia.
    + apply Hgo; [exact Hf|]. right. intros f' Hf'. unfold shutdown.
      eapply (untouched_step f' w (set_shutdown true w));
        [unreferenced_fields Hf'|]. apply _put_untouched. discriminate.
  - destruct (run_once_untouched (next_fid w) w) as (_ & _ & Hmono);
      [apply Hfresh; reflexivity|].
    apply Hgo; [lia|]. right. intros f'. apply run_once_untouched.
  - destruct (settle_untouched (next_fid w) a r w) as (_ & _ & Hmono);
      [apply Hfresh; reflexivity|].
    apply Hgo; [lia|]. right. intros f'. apply settle_untouched.
Qed.

Lemma __init___fresh_ids max_workers : fresh_ids (__init__ max_workers).
Proof.
  intros f _. split; [|reflexivity].
  unfold unreferenced. cbn. repeat split; try constructor; try discriminate.
Qed.

Lemma run_ops_fresh_ids ops w : fresh_ids w → fresh_ids (run_ops ops w).
Proof.
  revert w. induction ops as [|o ops IH]; intros w H; [exact H|].
  cbn. apply IH, apply_op_fresh_ids, H.
Qed.

(** ** Where the task of a [submit] ends up *)

Lemma queue_pop_singleton (t : option task) : queue_pop [t] = Some (t, []).
Proof. reflexivity. Qed.

Lemma available_pop_is_Some s :
  s ≠ ∅ → ∃ g, available_pop s = Some (g, s ∖ {[g]}).
Proof.
  intros Hne. unfold available_pop.
  destruct (elements s) as [|g l] eqn:He; [|eauto].
  exfalso. apply Hne. apply leibniz_equiv, elements_empty_inv. exact He.
Qed.

(** X4. On an open pool that can take the task (it is below its bound,
    or a greenlet is available), [submit] returns a new pending future
    and hands the task to an available greenlet at once: the first step
    of [_green_task] for that greenlet is the newest callback of the
    loop, the greenlet is no longer available, and nothing is
    forgotten. *)
Theorem submit_with_capacity max_workers ops c :
  let w := run_ops ops (__init__ max_workers) in
  let f := next_fid w in
  _shutdown w = false → has_capacity w →
  (submit c w).1 = Ok f ∧
  ∃ g rest,
    ready (submit c w).2 = rest ++ [CbStart g (Some (f, c))] ∧
    dispatched (submit c w).2 = dispatched w ++ [(g, Some f)] ∧
    (g ∉ _available (submit c w).2) ∧
    dropped (submit c w).2 = dropped w ∧
    future_state (submit c w).2 f = Pending.
Proof.
  intros w f Hs Hcap.
  assert (Hq : _queue w = []) by (apply run_ops_queue_empty; reflexivity).
  unfold submit. rewrite Hs. cbn [new_future fst snd].
  split; [reflexivity|]. unfold _put.
  set (w2 := set_submitted _ _).
  assert (Hq2 : _queue (_adjust_greenlet_count w2) = []).
  { rewrite _adjust_greenlet_count_queue. exact Hq. }
  assert (Hav : _available (_adjust_greenlet_count w2) ≠ ∅).
  { destruct (_adjust_greenlet_count_cases w2) as [[_ ->]|[Hge ->]].
    - unfold _green_run_idle. wsimpl. set_solver.
    - destruct Hcap as [Hlt|Hne]; [contradiction|exact Hne]. }
  assert (Hfut : futures (_adjust_greenlet_count w2) !! f = Some Pending).
  { destruct (_adjust_greenlet_count_cases w2) as [[_ ->]|[_ ->]];
      subst w2; wsimpl; apply lookup_insert_eq. }
  assert (Hdis : dispatched (_adjust_greenlet_count w2) = dispatched w
                 ∧ dropped (_adjust_greenlet_count w2) = dropped w).
  { destruct (_adjust_greenlet_count_cases w2) as [[_ ->]|[_ ->]];
      split; reflexivity. }
  destruct Hdis as [Hdis Hdrop].
  destruct (available_pop_is_Some _ Hav) as [g Hpop].
  unfold _check_queue. cbn [set_queue _queue _available]. rewrite Hq2.
  rewrite queue_pop_singleton. cbn [set_queue _available]. rewrite Hpop.
  exists g, (ready (_adjust_greenlet_count w2)).
  unfold future_state. wsimpl. rewrite Hfut, Hdis, Hdrop.
  repeat split; try reflexivity. set_solver.
Qed.

(** X5. On an open pool that cannot take the task (it is at its bound
    and no greenlet is available), [submit] still returns a new future,
    but the task is taken from the queue and handed to nobody: whatever
    happens afterwards, the future stays pending. *)
Theorem submit_without_capacity max_workers ops c ops' :
  let w := run_ops ops (__init__ max_workers) in
  let f := next_fid w in
  _shutdown w = false → ¬ has_capacity w →
  (submit c w).1 = Ok f ∧
  dropped (submit c w).2 = dropped w ++ [Some f] ∧
  dispatched (submit c w).2 = dispatched w ∧
  ready (submit c w).2 = ready w ∧
  future_state (run_ops ops' (submit c w).2) f = Pending.
Proof.
  intros w f Hs Hcap.
  assert (Hq : _queue w = []) by (apply run_ops_queue_empty; reflexivity).
  assert (Hfresh : fresh_ids w)
    by apply run_ops_fresh_ids, __init___fresh_ids.
  assert (Hge : ¬ Z.of_nat (size (_greenlets w)) < _max_workers w)
    by (intros H; apply Hcap; left; exact H).
  assert (Hav : _available w = ∅).
  { destruct (decide (_available w = ∅)) as [H|H]; [exact H|].
    exfalso. apply Hcap. right. exact H. }
  assert (Hsub : (submit c w).2
                 = set_dropped (dropped w ++ [Some f])
                     (set_queue []
                        (set_submitted (submitted w ++ [f])
                           (set_next_fid (S f) (set_future f Pending w))))).
  { unfold submit. rewrite Hs. cbn [new_future fst snd]. unfold _put.
    set (w2 := set_submitted _ _).
    destruct (_adjust_greenlet_count_cases w2) as [[Hlt _]|[_ ->]];
      [contradiction|].
    unfold _check_queue. subst w2. cbn [set_queue _queue set_submitted
      set_next_fid set_future _available]. rewrite Hq, queue_pop_singleton.
    cbn [set_queue _available]. unfold available_pop.
    rewrite Hav, elements_empty. reflexivity. }
  split; [unfold submit; rewrite Hs; reflexivity|].
  rewrite Hsub. split; [reflexivity|]. split; [reflexivity|].
  split; [reflexivity|].
  apply forgotten_pending, run_ops_forgotten.
  destruct (Hfresh f (Nat.le_refl _)) as [(Hw & Hqf & Hr & Hg) _].
  unfold forgotten. wsimpl. split; [apply lookup_insert_eq|].
  split; [lia|]. split; [exact Hw|]. split; [constructor|].
  split; [exact Hr|exact Hg].
Qed.


(** ** The order of the dispatches *)





(** ** [run_in_greenlet] *)

Lemma rig_switch_wait g v k :
  rig_switch g (Wait v k) = (SwValue v, RigSuspended k).
Proof. reflexivity. Qed.

(** X6. A function decorated with [run_in_greenlet] ends as the function
    itself ends when every [wait] returns the result of the future it
    waits for: if the call, its [wait]s returning [rs], returns a value
    that is not a future, the coroutine returns that value once the
    awaited futures have settled with [rs]; if it raises, the coroutine
    raises the same exception, whatever its class. *)
Theorem run_in_greenlet_ends_as_callable g c rs r :
  finishes c rs = Some r →
  waits_for_futures c rs = true →
  (∀ v, r = Ok v → is_async v = false) →
  rig_feed g (Ok <$> rs) (run_in_greenlet g c)
  = match r with
    | Ok v => RigReturn v
    | Err e => RigRaise e
    end.
Proof.
  intros Hfin Hw Hplain. unfold run_in_greenlet.
  revert rs Hfin Hw. induction c as [v|e|v k IH]; intros rs Hfin Hw.
  - destruct rs; [|discriminate]. injection Hfin as <-.
    specialize (Hplain v eq_refl). cbn. destruct v; try reflexivity.
    discriminate.
  - destruct rs; [|discriminate]. injection Hfin as <-. reflexivity.
  - destruct rs as [|r0 rs]; [discriminate|]. cbn [finishes] in Hfin.
    cbn [waits_for_futures] in Hw. apply andb_prop in Hw.
    destruct Hw as [Hv Hw]. rewrite rig_switch_wait.
    destruct v; try discriminate. cbn [rig_loop fmap list_fmap rig_feed
                                        rig_resume].
    apply IH; assumption.
Qed.

(** X7. A [wait] for a value that is not a future ends the coroutine of
    [run_in_greenlet]: it returns that value, the call is left suspended
    in its [wait] for good, and futures that settle later change
    nothing. *)
Theorem run_in_greenlet_returns_plain_wait g c rs v later :
  first_plain_wait c rs = Some v →
  rig_feed g ((Ok <$> rs) ++ later) (run_in_greenlet g c) = RigReturn v.
Proof.
  intros Hfirst. unfold run_in_greenlet.
  assert (Hdone : ∀ l x, rig_feed g l (RigReturn x) = RigReturn x).
  { induction l as [|r l IH]; intros x; [reflexivity|]. cbn. apply IH. }
  revert rs Hfirst. induction c as [v0|e|v0 k IH]; intros rs Hfirst;
    try discriminate.
  cbn [first_plain_wait] in Hfirst. rewrite rig_switch_wait.
  destruct (is_async v0) eqn:Hv0.
  - destruct rs as [|r0 rs]; [discriminate|].
    destruct v0; try discriminate.
    cbn [rig_loop fmap list_fmap app rig_feed rig_resume].
    apply IH, Hfirst.
  - injection Hfirst as ->.
    destruct v; try discriminate; cbn [rig_loop]; apply Hdone.
Qed.

(** ** Counting requests in [pulsar/workers/async.py] *)

Section AsyncCounting.

Import WorkersAsync.

Lemma force_closes_app (tr : list event) ev :
  length (filter (λ ev, is_force_close ev = true) (tr ++ [ev]))
  = (length (filter (λ ev, is_force_close ev = true) tr)
     + if is_force_close ev then 1 else 0)%nat.
Proof. rewrite filter_app, length_app. destruct ev; reflexivity. Qed.

Lemma force_closes_snoc ev w :
  force_closes (set_trace (trace w ++ [ev]) w)
  = (force_closes w + if is_force_close ev then 1 else 0)%nat.
Proof.
  unfold force_closes. cbn [trace set_trace]. rewrite filter_app, length_app.
  destruct ev; reflexivity.
Qed.

Lemma same_counts_refl w : same_counts w w.
Proof. repeat split. Qed.

Lemma same_counts_call {A} ev (r : result A) w :
  is_force_close ev = false → same_counts w (call ev r w).2.
Proof.
  intros Hev. unfold same_counts, call. cbn [snd].
  rewrite force_closes_snoc, Hev. repeat split. lia.
Qed.

Lemma same_counts_trans w1 w2 w3 :
  same_counts w1 w2 → same_counts w2 w3 → same_counts w1 w3.
Proof.
  intros (A1 & A2 & A3 & A4 & A5) (B1 & B2 & B3 & B4 & B5).
  unfold same_counts. repeat split; congruence.
Qed.

Lemma except_clauses_counts rq body w :
  same_counts (body w).2 (except_clauses rq body w).2.
Proof.
  unfold except_clauses. destruct (body w) as [[r|e] w1]; cbn [snd];
    [apply same_counts_refl|].
  destruct (is_StopIteration e); [apply same_counts_refl|].
  destruct (is_Exception e); [|apply same_counts_refl].
  destruct (negb (debug w1)); [apply same_counts_refl|].
  unfold bind. pose proof (same_counts_call EvWriteError (rq_write_error rq) w1
                             eq_refl) as H.
  destruct (call EvWriteError (rq_write_error rq) w1) as [[[]|e'] w2];
    exact H.
Qed.

Lemma handle_request_same_counts rq w :
  same_counts (try_block rq w).2 (handle_request rq w).2.
Proof.
  rewrite handle_request_finally.
  pose proof (except_clauses_counts rq (try_block rq) w) as H.
  destruct (except_clauses rq (try_block rq) w) as [r w1]. cbn [snd] in *.
  eapply same_counts_trans; [exact H|].
  apply (same_counts_call EvPostRequest (rq_post_request rq) w1 eq_refl).
Qed.

(** What the [try] block does to the counter, the [alive] flag and the
    response. *)
Lemma try_block_counts rq w :
  let w' := (try_block rq w).2 in
  let reached := bool_decide (max_requests w ≤ nr w + 1) in
  max_requests w' = max_requests w ∧
  debug w' = debug w ∧
  nr w' = nr w + (if counted rq then 1 else 0) ∧
  alive w' = (if counted rq then alive w && negb reached else alive w) ∧
  force_closes w'
  = (force_closes w + if counted rq && alive w && reached then 1 else 0)%nat.
Proof.
  destruct w as [n m al dbg tr].
  destruct rq as [pre cr ws sc we po].
  unfold try_block, bind, ret, raise, call, emit, count_request,
    check_max_requests, counted, force_closes, set_trace, set_nr, set_alive.
  cbn [nr max_requests alive debug trace rq_pre_request rq_create rq_wsgi
       rq_should_close rq_write_error rq_post_request].
  destruct pre as [[]|e1];
    [|cbn; rewrite ?force_closes_app; cbn; repeat split; try reflexivity; lia].
  destruct cr as [[]|e2];
    [|cbn; rewrite ?force_closes_app; cbn; repeat split; try reflexivity; lia].
  destruct al; [destruct (bool_decide (m ≤ n + 1))|];
    destruct ws as [[|[[]|e4]]|e3]; try destruct sc;
    cbn; rewrite ?force_closes_app; cbn;
    repeat split; try reflexivity; lia.
Qed.

(** What one request does to the counter, the [alive] flag and the
    response. *)
Lemma handle_request_counts rq w :
  let w' := (handle_request rq w).2 in
  let reached := bool_decide (max_requests w ≤ nr w + 1) in
  max_requests w' = max_requests w ∧
  debug w' = debug w ∧
  nr w' = nr w + (if counted rq then 1 else 0) ∧
  alive w' = (if counted rq then alive w && negb reached else alive w) ∧
  force_closes w'
  = (force_closes w + if counted rq && alive w && reached then 1 else 0)%nat.
Proof.
  destruct (handle_request_same_counts rq w) as (A1 & A2 & A3 & A4 & A5).
  destruct (try_block_counts rq w) as (B1 & B2 & B3 & B4 & B5).
  cbn zeta in *. repeat split; congruence.
Qed.

Lemma serve_counts rqs : ∀ w,
  nr w < max_requests w →
  let n := Z.of_nat (length (filter (λ rq, counted rq = true) rqs)) in
  let w' := serve rqs w in
  nr w' = nr w + n ∧
  alive w' = alive w && bool_decide (nr w + n < max_requests w) ∧
  (force_closes w' ≤ force_closes w + 1)%nat ∧
  (alive w = true → max_requests w ≤ nr w + n →
   force_closes w' = S (force_closes w)).
Proof.
  induction rqs as [|rq rqs IH]; intros w Hlt; cbn zeta.
  - cbn. rewrite Z.add_0_r. rewrite bool_decide_eq_true_2 by exact Hlt.
    rewrite andb_true_r. repeat split; try reflexivity; lia.
  - cbn [serve]. 
    destruct (handle_request_counts rq w) as (Hm & Hd & Hn & Ha & Hf).
    cbn zeta in *. set (w1 := (handle_request rq w).2) in *.
    rewrite filter_cons. destruct (counted rq) eqn:Hc.
    + rewrite decide_True by reflexivity. cbn [length].
      rewrite Nat2Z.inj_succ.
      destruct (decide (nr w + 1 < max_requests w)) as [Hlt1|Hge1].
      * specialize (IH w1 ltac:(rewrite Hn, Hm; lia)). cbn zeta in IH.
        destruct IH as (IHn & IHa & IHf & IHf').
        rewrite (bool_decide_eq_false_2 (max_requests w ≤ nr w + 1)) in Ha, Hf
          by lia.
        cbn [negb] in Ha. rewrite andb_true_r in Ha.
        rewrite andb_false_r in Hf. rewrite Nat.add_0_r in Hf.
        rewrite IHn, IHa, Hn, Hm, Ha.
        split; [lia|]. split.
        { f_equal. apply bool_decide_ext. lia. }
        split; [lia|]. intros Hal Hreach. rewrite <- Hf. apply IHf'.
        { rewrite Ha. exact Hal. }
        { rewrite Hm, Hn. lia. }
      * (* the threshold is reached by this request *)
        rewrite (bool_decide_eq_true_2 (max_requests w ≤ nr w + 1)) in Ha, Hf
          by lia.
        cbn [negb] in Ha. rewrite andb_false_r in Ha.
        rewrite andb_true_r in Hf. cbn [andb] in Hf.
        assert (Hrest : ∀ l w2, alive w2 = false →
                  alive (serve l w2) = false ∧
                  force_closes (serve l w2) = force_closes w2 ∧
                  nr (serve l w2) = nr w2
                    + Z.of_nat (length (filter (λ rq, counted rq = true) l))).
        { clear. induction l as [|rq l IHl]; intros w2 Hal; cbn [serve].
          - cbn. split; [exact Hal|]. split; [reflexivity|lia].
          - destruct (handle_request_counts rq w2) as (Hm & Hd & Hn & Ha & Hf).
            cbn zeta in *. rewrite Hal in Ha, Hf.
            rewrite andb_false_r in Hf. cbn [andb] in Ha, Hf.
            rewrite Nat.add_0_r in Hf.
            assert (Hal' : alive (handle_request rq w2).2 = false)
              by (rewrite Ha; destruct (counted rq); reflexivity).
            destruct (IHl _ Hal') as (H1 & H2 & H3).
            split; [exact H1|]. split; [congruence|].
            rewrite H3, Hn, filter_cons.
            destruct (counted rq); [rewrite decide_True by reflexivity
                                   |rewrite decide_False by discriminate];
              cbn [length]; lia. }
        destruct (Hrest rqs w1 Ha) as (R1 & R2 & R3).
        rewrite R1, R2, R3, Hn, Hf.
        split; [lia|]. split.
        { rewrite bool_decide_eq_false_2 by lia. rewrite andb_false_r.
          reflexivity. }
        split; [destruct (alive w); lia|].
        intros Hal _. rewrite Hal. lia.
    + rewrite decide_False by discriminate.
      rewrite Z.add_0_r in Hn. rewrite Nat.add_0_r in Hf. cbn [andb] in Hf.
      specialize (IH w1 ltac:(rewrite Hn, Hm; lia)). cbn zeta in IH.
      destruct IH as (IHn & IHa & IHf & IHf').
      rewrite IHn, IHa, Hn, Hm, Ha, <- Hf.
      split; [reflexivity|]. split; [reflexivity|]. split; [exact IHf|].
      intros Hal Hreach. apply IHf'; [rewrite Ha; exact Hal|].
      rewrite Hm, Hn. exact Hreach.
Qed.

(** X8. Over any sequence of requests handled by an [AsyncWorker] whose
    counter is below [max_requests]: the counter grows by the number of
    requests whose [pre_request] hook and [wsgi.create] have returned;
    the worker stays alive exactly as long as the counter is below
    [max_requests]; and [resp.force_close()] is called on the request
    that reaches the threshold and on no other. *)
Theorem async_worker_counts_requests rqs w :
  nr w < max_requests w →
  alive w = true →
  let n := Z.of_nat (length (filter (λ rq, counted rq = true) rqs)) in
  let w' := serve rqs w in
  nr w' = nr w + n ∧
  (alive w' = true ↔ nr w' < max_requests w') ∧
  force_closes w'
  = (force_closes w
     + if bool_decide (max_requests w ≤ nr w + n)%Z then 1 else 0)%nat.
Proof.
  intros Hlt Hal n w'.
  destruct (serve_counts rqs w Hlt) as (Hn & Ha & Hf & Hf').
  fold n w' in Hn, Ha, Hf, Hf'.
  assert (Hm : max_requests w' = max_requests w).
  { subst w'. clear. revert w. induction rqs as [|rq rqs IH]; intros w;
      [reflexivity|]. cbn [serve]. rewrite IH.
    apply (handle_request_counts rq w). }
  split; [exact Hn|]. split.
  - rewrite Ha, Hal, Hm, Hn. cbn [andb]. apply bool_decide_eq_true.
  - destruct (bool_decide (max_requests w ≤ nr w + n)) eqn:Hb.
    + apply bool_decide_eq_true_1 in Hb. rewrite (Hf' Hal Hb). lia.
    + apply bool_decide_eq_false_1 in Hb.
      (* below the threshold nothing is closed *)
      assert (Hnone : ∀ l w0, nr w0
                + Z.of_nat (length (filter (λ rq, counted rq = true) l))
                < max_requests w0 →
                force_closes (serve l w0) = force_closes w0).
      { clear. induction l as [|rq l IHl]; intros w0 Hb; [reflexivity|].
        cbn [serve].
        destruct (handle_request_counts rq w0) as (Hm & Hd & Hn & Ha & Hf).
        cbn zeta in *. rewrite filter_cons in Hb.
        rewrite IHl, Hf.
        - destruct (counted rq); [rewrite decide_True in Hb by reflexivity
                                 |rewrite decide_False in Hb by discriminate];
            cbn [length andb] in *; [|lia].
          rewrite (bool_decide_eq_false_2 (max_requests w0 ≤ nr w0 + 1)) by lia.
          rewrite andb_false_r. lia.
        - rewrite Hm, Hn.
          destruct (counted rq); [rewrite decide_True in Hb by reflexivity
                                 |rewrite decide_False in Hb by discriminate];
            cbn [length] in *; lia. }
      unfold w'. rewrite Hnone by (fold n; lia). lia.
Qed.

End AsyncCounting.


(** ** One connection of an [AsyncWorker] *)

Section AsyncHandle.

Import WorkersAsync.

Variable socket_errno : exn → option Z.

Lemma conn_extends_refl s : conn_extends s s.
Proof. exists []. rewrite app_nil_r. split; [reflexivity|]. set_solver. Qed.

Lemma conn_extends_trans s1 s2 s3 :
  conn_extends s1 s2 → conn_extends s2 s3 → conn_extends s1 s3.
Proof.
  intros (e1 & H1 & N1) (e2 & H2 & N2). exists (e1 ++ e2).
  rewrite H2, H1, app_assoc. split; [reflexivity|].
  rewrite elem_of_app. tauto.
Qed.

Lemma conn_extends_call {A} ev (r : result A) s :
  ev ≠ EvCloseClient → conn_extends s (call_conn ev r s).2.
Proof.
  intros Hev. exists [ev]. split; [reflexivity|].
  rewrite list_elem_of_singleton. congruence.
Qed.

Lemma conn_extends_log ev s :
  ev ≠ EvCloseClient → conn_extends s (log_conn ev s).2.
Proof.
  intros Hev. exists [ev]. split; [reflexivity|].
  rewrite list_elem_of_singleton. congruence.
Qed.

Lemma conn_extends_on_worker {A} (m : M A) s :
  conn_extends s (on_worker m s).2.
Proof.
  unfold on_worker. destruct (m (sv_worker s)) as [r w].
  exists []. cbn. rewrite app_nil_r. split; [reflexivity|]. set_solver.
Qed.

Lemma request_loop_extends rqs last : ∀ s,
  conn_extends s (request_loop rqs last s).2.
Proof.
  induction rqs as [|rq rqs IH]; intros s; cbn [request_loop].
  - apply conn_extends_call. discriminate.
  - unfold bind. cbn [log_conn].
    set (s1 := Server (sv_worker s) (sv_trace s ++ [EvNext])).
    assert (H1 : conn_extends s s1)
      by (apply (conn_extends_log EvNext s); discriminate).
    pose proof (conn_extends_on_worker (handle_request rq) s1) as H2.
    destruct (on_worker (handle_request rq) s1) as [[b|e] s2]; cbn [snd] in *.
    + eapply conn_extends_trans; [exact H1|].
      eapply conn_extends_trans; [exact H2|apply IH].
    + eapply conn_extends_trans; [exact H1|exact H2].
Qed.

Lemma handle_body_extends c s : conn_extends s (handle_body c s).2.
Proof.
  unfold handle_body, bind, except_StopIteration.
  pose proof (conn_extends_call EvParser (cn_parser c) s ltac:(discriminate))
    as H1.
  destruct (call_conn EvParser (cn_parser c) s) as [[[]|e] s1];
    cbn [snd] in *; [|exact H1].
  pose proof (request_loop_extends (cn_requests c) (cn_last c) s1) as H2.
  destruct (request_loop (cn_requests c) (cn_last c) s1) as [[[]|e] s2];
    cbn [snd] in *; [|destruct (is_StopIteration e)];
    cbn [snd]; eapply conn_extends_trans; eauto.
Qed.

Lemma handle_except_extends c e s :
  conn_extends s (handle_except socket_errno c e s).2.
Proof.
  unfold handle_except. destruct (socket_errno e) as [n|].
  - destruct (negb _); [|destruct (bool_decide (n = ECONNRESET))];
      apply conn_extends_log; discriminate.
  - destruct (is_Exception e); [|apply conn_extends_refl].
    unfold bind, try_except_pass, ret, log_conn, call_conn. cbn.
    exists [EvLogException "General error processing request.";
            EvWriteNonblock].
    rewrite <- app_assoc. split; [reflexivity|].
    rewrite !elem_of_cons, elem_of_nil. intros [?|[?|[]]]; discriminate.
Qed.

(** X9. Whatever the parser, the requests, the hooks and the socket do,
    [handle] ends by closing the client, and closes it once. *)
Theorem handle_always_closes_client c s :
  ∃ evs,
    sv_trace (handle socket_errno c s).2 = sv_trace s ++ evs ++ [EvCloseClient]
    ∧ EvCloseClient ∉ evs.
Proof.
  unfold handle, try_finally.
  pose proof (handle_body_extends c s) as H1.
  destruct (handle_body c s) as [[[]|e] s1]; cbn [snd] in H1.
  - destruct H1 as (evs & H1 & N1). exists evs.
    destruct (cn_close c); cbn; rewrite H1, <- app_assoc; auto.
  - pose proof (handle_except_extends c e s1) as H2.
    destruct (handle_except socket_errno c e s1) as [r s2]. cbn [snd] in H2.
    destruct (conn_extends_trans _ _ _ H1 H2) as (evs & H3 & N3).
    exists evs. destruct (cn_close c); cbn; rewrite H3, <- app_assoc; auto.
Qed.

(** X10. An exception leaves [handle] only if closing the client raises
    it, or if it is neither an [Exception] nor a socket error: what the
    parser, the hooks and the application raise otherwise stays inside. *)
Theorem handle_contains_exceptions c s e :
  (handle socket_errno c s).1 = Err e →
  cn_close c = Err e ∨ (is_Exception e = false ∧ socket_errno e = None).
Proof.
  unfold handle, try_finally.
  destruct (handle_body c s) as [[[]|e1] s1].
  - unfold call_conn. destruct (cn_close c) as [[]|e2]; cbn; [discriminate|].
    intros [= ->]. left. reflexivity.
  - destruct (handle_except socket_errno c e1 s1) as [r s2] eqn:Hx.
    unfold call_conn. destruct (cn_close c) as [[]|e2]; cbn;
      [|intros [= ->]; left; reflexivity].
    intros ->. right. revert Hx. unfold handle_except.
    destruct (socket_errno e1) as [n|] eqn:Hs.
    + destruct (negb _); [|destruct (bool_decide (n = ECONNRESET))];
        discriminate.
    + destruct (is_Exception e1) eqn:He.
      * unfold bind, try_except_pass, ret, log_conn, call_conn. cbn.
        discriminate.
      * unfold raise. intros [= -> _]. split; assumption.
Qed.

Lemma request_loop_worker last rqs : ∀ s,
  ∃ done rest,
    rqs = done ++ rest ∧
    sv_worker (request_loop rqs last s).2 = serve done (sv_worker s) ∧
    (∀ pre rq post, done = pre ++ rq :: post → post ≠ [] →
       ∃ b, (handle_request rq (serve pre (sv_worker s))).1 = Ok b) ∧
    (rest ≠ [] → ∃ pre rq e,
       done = pre ++ [rq] ∧
       (handle_request rq (serve pre (sv_worker s))).1 = Err e).
Proof.
  induction rqs as [|rq rqs IH]; intros s; cbn [request_loop].
  - exists [], []. split; [reflexivity|]. split; [reflexivity|].
    split; [|congruence]. intros [|??] ?? [=].
  - unfold bind, log_conn, on_worker. cbn [sv_worker sv_trace].
    destruct (handle_request rq (sv_worker s)) as [[b|e] w1] eqn:Hrq.
    + set (s1 := Server w1 (sv_trace s ++ [EvNext])).
      destruct (IH s1) as (done & rest & -> & Hw & Hok & Herr).
      exists (rq :: done), rest. split; [reflexivity|].
      assert (Hw1 : w1 = (handle_request rq (sv_worker s)).2)
        by (rewrite Hrq; reflexivity).
      split; [rewrite Hw; unfold s1; cbn [serve sv_worker snd]; rewrite Hrq;
              reflexivity|].
      split.
      * intros [|rq' pre] rq2 post [= <- Hd] Hpost.
        { exists b. cbn [serve]. rewrite Hrq. reflexivity. }
        cbn [serve]. rewrite <- Hw1. apply (Hok pre rq2 post Hd Hpost).
      * intros Hrest. destruct (Herr Hrest) as (pre & rq2 & e & -> & He).
        exists (rq :: pre), rq2, e. split; [reflexivity|].
        cbn [serve]. rewrite <- Hw1. exact He.
    + exists [rq], rqs. split; [reflexivity|].
      split; [cbn [snd sv_worker serve]; rewrite Hrq; reflexivity|].
      split.
      * intros [|? [|??]] ?? [=]; congruence.
      * intros _. exists [], rq, e. split; [reflexivity|].
        cbn [serve]. rewrite Hrq. reflexivity.
Qed.

Lemma handle_except_worker c e s :
  sv_worker (handle_except socket_errno c e s).2 = sv_worker s.
Proof.
  unfold handle_except. destruct (socket_errno e) as [n|].
  - destruct (negb _); [|destruct (bool_decide (n = ECONNRESET))];
      reflexivity.
  - destruct (is_Exception e); reflexivity.
Qed.

(** X11. On a connection whose parser could be made, [handle] lets the
    worker handle the requests in the order the parser delivers them:
    every request handled before the last handled one has returned, and
    requests are left unhandled only behind one whose handling raised
    (a [StopIteration] for a request that should close, or an error). *)
Theorem handle_serves_requests_in_order c s :
  cn_parser c = Ok tt →
  ∃ done rest,
    cn_requests c = done ++ rest ∧
    sv_worker (handle socket_errno c s).2 = serve done (sv_worker s) ∧
    (∀ pre rq post, done = pre ++ rq :: post → post ≠ [] →
       ∃ b, (handle_request rq (serve pre (sv_worker s))).1 = Ok b) ∧
    (rest ≠ [] → ∃ pre rq e,
       done = pre ++ [rq] ∧
       (handle_request rq (serve pre (sv_worker s))).1 = Err e).
Proof.
  intros Hp.
  destruct (request_loop_worker (cn_last c) (cn_requests c)
              (Server (sv_worker s) (sv_trace s ++ [EvParser])))
    as (done & rest & Hsplit & Hw & Hok & Herr).
  cbn [sv_worker] in Hw, Hok, Herr.
  set (s0 := Server (sv_worker s) (sv_trace s ++ [EvParser])) in *.
  exists done, rest. split; [exact Hsplit|]. split; [|split; assumption].
  rewrite <- Hw. unfold handle, try_finally, handle_body, bind, call_conn at 1.
  rewrite Hp. fold s0. unfold except_StopIteration.
  destruct (request_loop (cn_requests c) (cn_last c) s0) as [[[]|e] s1];
    cbn [snd].
  - destruct (cn_close c); reflexivity.
  - destruct (is_StopIteration e).
    + destruct (cn_close c); reflexivity.
    + pose proof (handle_except_worker c e s1) as Hx.
      destruct (handle_except socket_errno c e s1) as [r s2].
      cbn [snd] in Hx. destruct (cn_close c); cbn; exact Hx.
Qed.

End AsyncHandle.

(** ** Stopping the worker of [pulsar/workers/base.py] *)

Section StopOnce.

Import WorkersBase.

Lemma closes_app tr ev :
  length (filter (λ ev, is_close ev = true) (tr ++ [ev]))
  = (length (filter (λ ev, is_close ev = true) tr)
     + if is_close ev then 1 else 0)%nat.
Proof. rewrite filter_app, length_app. destruct ev; reflexivity. Qed.

Lemma loop_stops_app tr ev :
  length (filter (λ ev, is_loop_stop ev = true) (tr ++ [ev]))
  = (length (filter (λ ev, is_loop_stop ev = true) tr)
     + if is_loop_stop ev then 1 else 0)%nat.
Proof. rewrite filter_app, length_app. destruct ev; reflexivity. Qed.

Ltac count_events :=
  cbn; rewrite ?closes_app, ?loop_stops_app; cbn;
  repeat split; try reflexivity; lia.

Lemma invoke_step c w :
  let w1 := invoke c w in
  let stopped := is_running w && negb (is_running w1) in
  max_requests w1 = max_requests w ∧
  nr w1 = nr w + (if counts c then 1 else 0) ∧
  is_running w1
  = is_running w && (if counts c then negb (reached w) else false) ∧
  closes w1 = (closes w + if stopped then 1 else 0)%nat ∧
  loop_stops w1 = (loop_stops w + if stopped then 1 else 0)%nat.
Proof.
  destruct w as [c0 h n m l tr sv].
  unfold invoke, reached, is_running, closes, loop_stops, counts.
  destruct c as [rq|r|].
  - unfold handle_request, bind, count_request, check_num_requests, _stop,
      ioloop_stop, emit, call_pre_request, call_handle_request,
      call_post_request, try_finally, try_except_pass, call,
      set_nr, set_trace, set_ioloop.
    cbn. destruct (bool_decide (m = 0)), (bool_decide (m ≤ n + 1)); cbn;
      try (destruct l as [[]|]; cbn);
      (destruct (pre_request c0 rq) as [[]|?]; cbn;
       [destruct (h rq) as [[]|?], (post_request c0 rq) as [[]|?]|]);
      try destruct l as [[]|]; count_events.
  - unfold updaterequests, bind, count_request, check_num_requests, _stop,
      ioloop_stop, emit, set_nr, set_trace, set_ioloop.
    cbn. destruct (bool_decide (m = 0)), (bool_decide (m ≤ n + 1)); cbn;
      destruct l as [[]|]; count_events.
  - unfold _stop, bind, ioloop_stop, emit, set_trace, set_ioloop.
    cbn. destruct l as [[]|]; count_events.
Qed.

Lemma invoke_all_running cs : ∀ w,
  is_running (invoke_all cs w) = true → is_running w = true.
Proof.
  induction cs as [|c cs IH]; intros w; [auto|]. cbn [invoke_all foldl].
  intros H. apply IH in H.
  destruct (invoke_step c w) as (_ & _ & Hr & _). cbn zeta in Hr.
  rewrite Hr in H. apply andb_true_iff in H. tauto.
Qed.

(** X12. However many requests arrive at or behind the threshold and
    however often [_stop] is called, [self.close()] and
    [self.ioloop.stop()] are each called once, when the running loop is
    stopped, and never on a worker whose loop is not running; a stopped
    loop is not started again. *)
Theorem loop_is_closed_and_stopped_once cs w :
  let w' := invoke_all cs w in
  let stopped := is_running w && negb (is_running w') in
  closes w' = (closes w + if stopped then 1 else 0)%nat ∧
  loop_stops w' = (loop_stops w + if stopped then 1 else 0)%nat ∧
  (is_running w' = true → is_running w = true).
Proof.
  cbn zeta. split; [|split; [|apply invoke_all_running]];
    revert w; induction cs as [|c cs IH]; intros w;
    cbn [invoke_all foldl].
  1,3: destruct (is_running w); cbn; lia.
  all: fold (invoke_all cs (invoke c w)); rewrite IH;
    destruct (invoke_step c w) as (_ & _ & Hr & Hc & Hs);
    cbn zeta in Hr, Hc, Hs;
    pose proof (invoke_all_running cs (invoke c w)) as Hm;
    rewrite ?Hc, ?Hs; clear Hc Hs;
    destruct (is_running w), (is_running (invoke c w)),
      (is_running (invoke_all cs (invoke c w)));
    cbn in *; try lia; try discriminate; discriminate (Hm eq_refl).
Qed.

Lemma invoke_all_nr cs : ∀ w,
  max_requests (invoke_all cs w) = max_requests w ∧
  nr (invoke_all cs w)
  = nr w + Z.of_nat (length (filter (λ c, counts c = true) cs)).
Proof.
  induction cs as [|c cs IH]; intros w; cbn [invoke_all foldl].
  - cbn. split; [reflexivity|lia].
  - fold (invoke_all cs (invoke c w)).
    destruct (IH (invoke c w)) as [-> ->].
    destruct (invoke_step c w) as (-> & -> & _).
    split; [reflexivity|]. rewrite filter_cons.
    destruct (counts c); [rewrite decide_True by reflexivity
                         |rewrite decide_False by discriminate];
      cbn [length]; lia.
Qed.

(** X13. The counter counts the calls of [handle_request] and of the
    methods decorated with [updaterequests]; and the loop of a worker
    below its threshold keeps running exactly as long as the counter
    stays below [max_requests] and [_stop] is not called. *)
Theorem worker_runs_until_threshold_or_stop cs w :
  is_running w = true →
  max_requests w ≠ 0 →
  nr w < max_requests w →
  let w' := invoke_all cs w in
  nr w' = nr w + Z.of_nat (length (filter (λ c, counts c = true) cs)) ∧
  (is_running w' = true ↔ nr w' < max_requests w' ∧ CallStop ∉ cs).
Proof.
  intros Hrun Hm Hlt. cbn zeta. split; [apply invoke_all_nr|].
  revert w Hrun Hm Hlt. induction cs as [|c cs IH]; intros w Hrun Hm Hlt;
    cbn [invoke_all foldl].
  - split; [intros _; split; [exact Hlt|set_solver]|intros _; exact Hrun].
  - fold (invoke_all cs (invoke c w)).
    destruct (invoke_step c w) as (Hm1 & Hn1 & Hr1 & _). cbn zeta in Hr1.
    destruct (invoke_all_nr cs (invoke c w)) as [Hm2 Hn2].
    rewrite Hrun in Hr1. cbn [andb] in Hr1.
    destruct (is_running (invoke c w)) eqn:Hr.
    + (* still running: a counted call below the threshold *)
      destruct (counts c) eqn:Hc; [|discriminate].
      symmetry in Hr1. apply negb_true_iff in Hr1. unfold reached in Hr1.
      rewrite (bool_decide_eq_false_2 (max_requests w = 0)) in Hr1 by exact Hm.
      cbn [negb andb] in Hr1. apply bool_decide_eq_false_1 in Hr1.
      rewrite (IH (invoke c w) Hr) by (rewrite ?Hm1, ?Hn1; lia).
      rewrite elem_of_cons.
      assert (CallStop ≠ c) by (intros <-; discriminate).
      tauto.
    + split.
      * intros H. apply invoke_all_running in H. congruence.
      * intros [Hlt' Hns]. exfalso.
        rewrite Hm2, Hn2, Hm1, Hn1 in Hlt'.
        destruct c; cbn [counts] in *;
          [| |apply Hns; left].
        all: try (unfold reached in Hr1;
            rewrite (bool_decide_eq_false_2 (max_requests w = 0)) in Hr1
              by exact Hm;
            cbn [negb andb] in Hr1; symmetry in Hr1;
            apply negb_false_iff, bool_decide_eq_true_1 in Hr1; lia).
Qed.

End StopOnce.

(** ** Shutting down a pool whose greenlets are all idle *)

Lemma _check_queue_empty w : _queue w = [] → _check_queue w = w.
Proof. intros H. unfold _check_queue. rewrite H. reflexivity. Qed.

Lemma run_ops_loop n w :
  run_ops (repeat OpLoop (S n)) w = run_ops (repeat OpLoop n) (run_once w).
Proof. reflexivity. Qed.

(** A queue check at the head of the loop changes nothing. *)
Lemma draining_check f g pre post w :
  draining f g (CbCheckQueue :: pre) post w →
  draining f g pre post (run_once w) ∧ _available (run_once w) = _available w.
Proof.
  intros (Hq & Hw & Hf & Hg & Hgs & Hst & Hav & Hr & Hpre & Hpost).
  unfold run_once. rewrite Hr. cbn [app run_callback].
  rewrite _check_queue_empty by exact Hq.
  split; [|reflexivity]. unfold draining. wsimpl.
  apply Forall_cons in Hpre as [_ Hpre]. repeat split; assumption.
Qed.

(** The sentinel reaches the last greenlet. *)
Lemma draining_last f g post w :
  draining f g [] post w → _available w = ∅ → drained f (run_once w).
Proof.
  intros (Hq & Hw & Hf & Hg & Hgs & Hst & Hav & Hr & Hpre & Hpost) He.
  unfold run_once. rewrite Hr. cbn [app run_callback].
  unfold _green_task, greenlet_switch. wsimpl. rewrite Hst.
  unfold _green_run_exit. wsimpl.
  destruct (decide (_greenlets w ∖ {[g]} = ∅)) as [_|Hne];
    [|exfalso; apply Hne; rewrite Hgs, He; set_solver].
  rewrite Hw. cbn [_green_task_loop]. unfold drained. wsimpl.
  split; [rewrite Hgs, He; set_solver|]. split; [reflexivity|].
  apply lookup_insert_eq.
Qed.

(** The sentinel reaches a greenlet that is not the last one: it goes on
    to an available one. *)
Lemma draining_next f g post w :
  draining f g [] post w → _available w ≠ ∅ →
  ∃ g', draining f g' post [] (run_once w) ∧
        (size (_available (run_once w)) < size (_available w))%nat.
Proof.
  intros (Hq & Hw & Hf & Hg & Hgs & Hst & Hav & Hr & Hpre & Hpost) Hne.
  destruct (available_pop_is_Some _ Hne) as [g' Hpop].
  destruct (available_pop_Some _ _ _ Hpop) as [Hg' _].
  assert (Hgg : g ≠ g') by (intros ->; contradiction).
  assert (Hrest : _greenlets w ∖ {[g]} = _available w)
    by (rewrite Hgs; set_solver).
  exists g'. unfold run_once. rewrite Hr. cbn [app run_callback].
  unfold _green_task, greenlet_switch. wsimpl. rewrite Hst.
  unfold _green_run_exit. wsimpl.
  destruct (decide (_greenlets w ∖ {[g]} = ∅)) as [He|_];
    [exfalso; apply Hne; rewrite <- Hrest; exact He|].
  unfold _put, _check_queue. wsimpl. rewrite Hq, queue_pop_singleton.
  wsimpl. rewrite Hpop. cbn [_green_task_loop]. wsimpl.
  split.
  - unfold draining. wsimpl.
    split; [reflexivity|]. split; [exact Hw|]. split; [exact Hf|].
    split; [set_solver|].
    split; [rewrite Hrest; apply union_difference_singleton_L, Hg'|].
    split; [rewrite lookup_insert_ne by exact Hgg; apply Hav, Hg'|].
    split.
    { intros g2 Hg2.
      rewrite lookup_insert_ne by (intros ->; set_solver).
      apply Hav. set_solver. }
    split; [reflexivity|]. split; [exact Hpost|constructor].
  - apply subset_size. set_solver.
Qed.

Lemma draining_ends k : ∀ pre f g post w,
  (size (_available w) < k)%nat →
  draining f g pre post w →
  ∃ n, drained f (run_ops (repeat OpLoop n) w).
Proof.
  induction k as [|k IHk]; [intros; lia|].
  induction pre as [|cb pre IHpre]; intros f g post w Hk Hd.
  - destruct (decide (_available w = ∅)) as [He|Hne].
    + exists 1%nat. rewrite run_ops_loop.
      apply (draining_last f g post w Hd He).
    + destruct (draining_next f g post w Hd Hne) as (g' & Hd' & Hlt).
      destruct (IHk post f g' [] (run_once w)) as [n Hn];
        [lia|exact Hd'|].
      exists (S n). rewrite run_ops_loop. exact Hn.
  - assert (cb = CbCheckQueue) as ->.
    { destruct Hd as (_ & _ & _ & _ & _ & _ & _ & _ & Hpre & _).
      apply Forall_cons in Hpre. tauto. }
    destruct (draining_check f g pre post w Hd) as [Hd' Hav].
    destruct (IHpre f g post (run_once w)) as [n Hn];
      [rewrite Hav; exact Hk|exact Hd'|].
    exists (S n). rewrite run_ops_loop. exact Hn.
Qed.

Lemma omap_nil_Forall {A B} (f : A → option B) l :
  omap f l = [] → Forall (λ x, f x = None) l.
Proof.
  induction l as [|x l IH]; intros H; [constructor|].
  cbn in H. destruct (f x) eqn:Hx; [discriminate|].
  constructor; [exact Hx|apply IH, H].
Qed.

(** [shutdown(wait=True)] on a pool whose greenlets are all available
    sends the sentinel to the first of them. *)
Lemma shutdown_starts_draining w :
  consistent w → _queue w = [] →
  _greenlets w ≠ ∅ → _available w = _greenlets w →
  (shutdown true w).1 = Some (next_fid w) ∧
  ∃ g, draining (next_fid w) g (ready w) [] (shutdown true w).2.
Proof.
  intros (H1 & H2 & H3 & H4 & H5 & H6 & H7) Hq Hne Hall.
  assert (Hne' : _available w ≠ ∅) by (rewrite Hall; exact Hne).
  destruct (available_pop_is_Some _ Hne') as [g Hpop].
  destruct (available_pop_Some _ _ _ Hpop) as [Hg _].
  assert (Hready : Forall (λ cb, cb = CbCheckQueue) (ready w)).
  { assert (He : engaged w = []).
    { destruct (engaged w) as [|g0 l] eqn:He; [reflexivity|].
      destruct (H5 g0) as [Hin Hout]; [rewrite ?He; left|].
      rewrite Hall in Hout. contradiction. }
    apply app_eq_nil in He as [He _]. apply omap_nil_Forall in He.
    eapply Forall_impl; [exact He|]. intros [| |]; cbn; congruence. }
  unfold shutdown, _put, _check_queue. wsimpl.
  rewrite Hq, queue_pop_singleton. wsimpl. rewrite Hpop.
  cbn [new_future fst snd]. wsimpl.
  split; [reflexivity|]. exists g. unfold draining. wsimpl.
  split; [reflexivity|]. split; [reflexivity|].
  split; [apply lookup_insert_eq|]. split; [set_solver|].
  split; [rewrite <- Hall; apply union_difference_singleton_L, Hg|].
  split; [apply H3, Hg|].
  split; [intros g' Hg'; apply H3; set_solver|].
  split; [reflexivity|]. split; [exact Hready|constructor].
Qed.

(** X14. [shutdown(wait=True)] on a pool with greenlets that are all
    available: the loop hands the sentinel from one greenlet to the
    next, and after finitely many iterations no greenlet is left and the
    future that [shutdown] returned is resolved with [None]. *)
Theorem shutdown_drains_idle_pool max_workers ops :
  let w := run_ops ops (__init__ max_workers) in
  _greenlets w ≠ ∅ →
  _available w = _greenlets w →
  ∃ f n,
    (shutdown true w).1 = Some f ∧
    let w' := run_ops (repeat OpLoop n) (shutdown true w).2 in
    _greenlets w' = ∅ ∧ future_state w' f = Done (Ok VNone).
Proof.
  intros w Hne Hall.
  destruct (shutdown_starts_draining w) as [Hf [g Hd]];
    [apply run_ops_consistent, __init___consistent
    |apply run_ops_queue_empty; reflexivity|exact Hne|exact Hall|].
  destruct (draining_ends _ _ _ _ _ _ (Nat.lt_succ_diag_r _) Hd)
    as [n (Hg & _ & Hfut)].
  exists (next_fid w), n. split; [exact Hf|]. cbn zeta.
  split; [exact Hg|]. unfold future_state. rewrite Hfut. reflexivity.
Qed.

(** ** A future is resolved once *)

Lemma count_snoc {A} (P : A → Prop) `{∀ x, Decision (P x)} l x :
  length (filter P (l ++ [x]))
  = (length (filter P l) + if decide (P x) then 1 else 0)%nat.
Proof.
  rewrite filter_app, length_app. f_equal.
  rewrite filter_cons, filter_nil. destruct (decide (P x)); reflexivity.
Qed.

Lemma count_cons {A} (P : A → Prop) `{∀ x, Decision (P x)} l x :
  length (filter P (x :: l))
  = ((if decide (P x) then 1 else 0) + length (filter P l))%nat.
Proof. rewrite filter_cons. destruct (decide (P x)); reflexivity. Qed.

Lemma count_zero {A} (P : A → Prop) `{∀ x, Decision (P x)} l :
  length (filter P l) = 0%nat ↔ Forall (λ x, ¬ P x) l.
Proof.
  induction l as [|x l IH]; [split; [constructor|reflexivity]|].
  rewrite count_cons, Forall_cons, <- IH.
  destruct (decide (P x)); split; try lia; tauto.
Qed.

Lemma queue_pop_app q (t : option task) q' :
  queue_pop q = Some (t, q') → q = q' ++ [t].
Proof.
  intros H. apply queue_pop_Some in H. apply (f_equal reverse) in H.
  rewrite reverse_involutive, reverse_cons, reverse_involutive in H.
  exact H.
Qed.

(** Nothing mentions [f] exactly if nothing counts it and no greenlet
    holds it. *)
Lemma unreferenced_mentions f w :
  unreferenced f w ↔ mentions f w = 0%nat ∧ ∀ g, ¬ held w g f.
Proof.
  unfold unreferenced, mentions, held. split.
  - intros (Hw & Hq & Hr & Hg). split.
    + apply (count_zero (λ t, task_future t = Some f)) in Hq.
      apply (count_zero (λ cb, cb_future cb = Some f)) in Hr.
      rewrite Hq, Hr. destruct (decide (_waiter w = Some f)); [|reflexivity].
      contradiction.
    + intros g [k Hk]. apply (Hg g _ Hk). reflexivity.
  - intros [Hm Hh].
    destruct (decide (_waiter w = Some f)) as [|Hw]; [lia|].
    split; [exact Hw|].
    split; [apply (count_zero (λ t, task_future t = Some f)); lia|].
    split; [apply (count_zero (λ cb, cb_future cb = Some f)); lia|].
    intros g s Hs Hf. destruct s as [|fut k|]; try discriminate.
    injection Hf as ->. apply (Hh g). exists k. exact Hs.
Qed.

(** A step that adds no mention and no holder, and leaves the futures
    that are held alone. *)
Lemma linear_mono w w' :
  (∀ f, mentions f w' ≤ mentions f w)%nat →
  (∀ g f, held w' g f → held w g f) →
  (∀ f, (0 < mentions f w')%nat ∨ (∃ g, held w' g f) →
        futures w' !! f = futures w !! f) →
  linear w → linear w'.
Proof.
  intros Hm Hh Hf (L1 & L2 & L3 & L4). split; [|split; [|split]].
  - intros f. specialize (Hm f). specialize (L1 f). lia.
  - intros g f H. specialize (L2 g f (Hh _ _ H)). specialize (Hm f). lia.
  - intros g1 g2 f H1 H2. apply (L3 g1 g2 f); apply Hh; assumption.
  - intros f H. rewrite (Hf f H). apply L4.
    destruct H as [H|[g H]]; [left; specialize (Hm f); lia|].
    right. exists g. apply Hh, H.
Qed.

(** A step that makes somebody hold the future [f], which nothing
    mentioned before. *)
Lemma linear_take f w w' :
  unreferenced f w →
  futures w' !! f = Some Pending →
  (∀ f', f' ≠ f → mentions f' w' ≤ mentions f' w)%nat →
  (∀ g f', f' ≠ f → held w' g f' → held w g f') →
  (∀ f', f' ≠ f → futures w' !! f' = futures w !! f') →
  (mentions f w' ≤ 1)%nat →
  (∀ g, held w' g f → mentions f w' = 0%nat) →
  (∀ g1 g2, held w' g1 f → held w' g2 f → g1 = g2) →
  linear w → linear w'.
Proof.
  intros Hu Hp Hm Hh Hf H1 H2 H3 (L1 & L2 & L3 & L4).
  split; [|split; [|split]].
  - intros f'. destruct (decide (f' = f)) as [->|Hne]; [exact H1|].
    specialize (Hm f' Hne). specialize (L1 f'). lia.
  - intros g f' H. destruct (decide (f' = f)) as [->|Hne]; [eauto|].
    specialize (L2 g f' (Hh _ _ Hne H)). specialize (Hm f' Hne). lia.
  - intros g1 g2 f' Ha Hb. destruct (decide (f' = f)) as [->|Hne]; [eauto|].
    apply (L3 g1 g2 f'); apply Hh; assumption.
  - intros f' H. destruct (decide (f' = f)) as [->|Hne]; [exact Hp|].
    rewrite (Hf f' Hne). apply L4.
    destruct H as [H|[g H]]; [left; specialize (Hm f' Hne); lia|].
    right. exists g. apply Hh; assumption.
Qed.

Lemma held_insert_ne g g' s w f :
  g' ≠ g → held (set_gstate g s w) g' f → held w g' f.
Proof.
  intros Hne [k Hk]. exists k. cbn [set_gstate gstate] in Hk.
  rewrite lookup_insert_ne in Hk by congruence. exact Hk.
Qed.

Lemma held_insert_plain g s w g' f :
  gstatus_future s = None → held (set_gstate g s w) g' f →
  g' ≠ g ∧ held w g' f.
Proof.
  intros Hs H. assert (Hne : g' ≠ g).
  { intros ->. destruct H as [k Hk]. cbn [set_gstate gstate] in Hk.
    rewrite lookup_insert_eq in Hk. injection Hk as ->. discriminate. }
  split; [exact Hne|]. eapply held_insert_ne; eassumption.
Qed.

(** The status of [g] changes from one that holds no future to another
    one. *)
Lemma linear_regstate g s s' w :
  gstatus_future s' = None →
  linear (set_gstate g s w) → linear (set_gstate g s' w).
Proof.
  intros Hs'. apply linear_mono.
  - intros f. reflexivity.
  - intros g' f H. destruct (held_insert_plain _ _ _ _ _ Hs' H) as [Hne [k Hk]].
    exists k. cbn [set_gstate gstate]. rewrite lookup_insert_ne by congruence.
    exact Hk.
  - intros f _. reflexivity.
Qed.

Lemma linear_gstate_plain g s w :
  gstatus_future s = None → linear w → linear (set_gstate g s w).
Proof.
  intros Hs. apply linear_mono.
  - intros f. reflexivity.
  - intros g' f H. apply (held_insert_plain _ _ _ _ _ Hs H).
  - intros f _. reflexivity.
Qed.

Lemma mentions_call_soon f cb w :
  mentions f (call_soon cb w)
  = (mentions f w + if decide (cb_future cb = Some f) then 1 else 0)%nat.
Proof.
  unfold mentions, call_soon. wsimpl.
  rewrite (count_snoc (λ cb, cb_future cb = Some f)). lia.
Qed.

Lemma linear_call_soon_plain cb w :
  cb_future cb = None → linear w → linear (call_soon cb w).
Proof.
  intros Hcb. apply linear_mono.
  - intros f. rewrite mentions_call_soon.
    rewrite decide_False by congruence. lia.
  - intros g f H. exact H.
  - intros f _. reflexivity.
Qed.

(** A future nothing mentions is set. *)
Lemma linear_future f s w :
  unreferenced f w → linear w → linear (set_future f s w).
Proof.
  intros Hu. apply unreferenced_mentions in Hu as [Hm Hh].
  apply linear_mono.
  - intros f'. reflexivity.
  - intros g f' H. exact H.
  - intros f' H. cbn [set_future futures].
    apply lookup_insert_ne. intros ->.
    destruct H as [H|[g H]]; [|apply (Hh g H)].
    change (mentions f' (set_future f' s w)) with (mentions f' w) in H. lia.
Qed.

Lemma _green_run_idle_linear_from g s w :
  linear (set_gstate g s w) → linear (_green_run_idle g w).
Proof.
  intros H. unfold _green_run_idle.
  apply (linear_regstate g s GIdle); [reflexivity|].
  apply (linear_call_soon_plain CbCheckQueue) in H; [|reflexivity].
  exact H.
Qed.

Lemma _green_run_idle_linear g w : linear w → linear (_green_run_idle g w).
Proof.
  intros H. apply (_green_run_idle_linear_from g GDead).
  apply linear_gstate_plain; [reflexivity|exact H].
Qed.

Lemma _adjust_greenlet_count_linear w :
  linear w → linear (_adjust_greenlet_count w).
Proof.
  intros H. destruct (_adjust_greenlet_count_cases w) as [[_ ->]|[_ ->]];
    [|exact H].
  apply _green_run_idle_linear. exact H.
Qed.

Lemma _check_queue_linear w : linear w → linear (_check_queue w).
Proof.
  intros H. unfold _check_queue.
  destruct (queue_pop (_queue w)) as [[t q]|] eqn:Hpop; [|exact H].
  apply queue_pop_app in Hpop.
  destruct (available_pop _) as [[g s]|]; revert H; apply linear_mono;
    try (intros; assumption); try (intros; reflexivity);
    intros f; unfold mentions, async, call_soon; wsimpl; rewrite Hpop;
    rewrite ?(count_snoc (λ t, task_future t = Some f)),
      ?(count_snoc (λ cb, cb_future cb = Some f));
    cbn [cb_future]; lia.
Qed.

Lemma _put_linear t w :
  (∀ f, task_future t = Some f →
        unreferenced f w ∧ futures w !! f = Some Pending) →
  linear w → linear (_put t w).
Proof.
  intros Ht H. unfold _put.
  set (w1 := match t with Some _ => _adjust_greenlet_count w | None => w end).
  assert (H1 : linear w1).
  { subst w1. destruct t; [apply _adjust_greenlet_count_linear|]; exact H. }
  assert (Ht1 : ∀ f, task_future t = Some f →
                     unreferenced f w1 ∧ futures w1 !! f = Some Pending).
  { intros f Hf. destruct (Ht f Hf) as [Hu Hp]. subst w1.
    destruct t; [|split; assumption].
    destruct (_adjust_greenlet_count_untouched f w Hu) as (Hu1 & Hf1 & _).
    split; [exact Hu1|congruence]. }
  clearbody w1. apply _check_queue_linear.
  destruct t as [[f c]|].
  - destruct (Ht1 f eq_refl) as [Hu Hp].
    pose proof (proj1 (unreferenced_mentions f w1) Hu) as [Hm Hh].
    assert (Hmf : mentions f (set_queue (Some (f, c) :: _queue w1) w1)
                  = 1%nat).
    { revert Hm. unfold mentions. wsimpl.
      rewrite (count_cons (λ t, task_future t = Some f)).
      rewrite (decide_True (P := task_future (Some (f, c)) = Some f))
        by reflexivity.
      lia. }
    apply (linear_take f w1); try assumption.
    + intros f' Hne. unfold mentions. wsimpl.
      rewrite (count_cons (λ t, task_future t = Some f')).
      rewrite (decide_False (P := task_future (Some (f, c)) = Some f'))
        by (cbn; congruence).
      lia.
    + intros g f' _ Hheld. exact Hheld.
    + intros f' _. reflexivity.
    + apply Nat.eq_le_incl, Hmf.
    + intros g Hheld. destruct (Hh g Hheld).
    + intros g1 g2 Hheld. destruct (Hh g1 Hheld).
  - revert H1. apply linear_mono.
    + intros f. unfold mentions. wsimpl.
      rewrite (count_cons (λ t, task_future t = Some f)).
      rewrite (decide_False (P := task_future None = Some f))
        by discriminate.
      lia.
    + intros g f Hheld. exact Hheld.
    + intros f _. reflexivity.
Qed.

(** The greenlet that is resumed gives up the future it holds. *)
Lemma held_release g fut k w :
  linear w → gstate w !! g = Some (GWaiting fut k) →
  linear (set_gstate g GDead w) ∧
  unreferenced fut (set_gstate g GDead w) ∧
  futures w !! fut = Some Pending.
Proof.
  intros H Hg. pose proof H as (L1 & L2 & L3 & L4).
  assert (Hheld : held w g fut) by (exists k; exact Hg).
  split; [apply linear_gstate_plain; [reflexivity|exact H]|].
  split; [|apply L4; right; exists g; exact Hheld].
  apply unreferenced_mentions. split; [apply (L2 g fut Hheld)|].
  intros g' Hg'.
  destruct (held_insert_plain g GDead w g' fut eq_refl Hg') as [Hne Hg2].
  apply Hne, (L3 g' g fut Hg2 Hheld).
Qed.

Lemma run_func_linear g fut c w :
  linear (set_gstate g GDead w) →
  unreferenced fut (set_gstate g GDead w) →
  futures w !! fut = Some Pending →
  linear (run_func g fut c w).2.
Proof.
  intros H Hu Hp.
  assert (Hset : ∀ s, linear (_green_run_idle g (set_future fut s w))).
  { intros s. apply (_green_run_idle_linear_from g GDead).
    exact (linear_future fut s _ Hu H). }
  destruct c as [v|e|v k]; cbn [run_func snd].
  - apply Hset.
  - destruct (is_Exception e); cbn [snd]; [apply Hset|exact H].
  - cbn [wait parent snd].
    pose proof (proj1 (unreferenced_mentions _ _) Hu) as [Hm Hh].
    assert (Hg : ∀ g', held (set_gstate g (GWaiting fut k) w) g' fut →
                       g' = g).
    { intros g' [k' Hk']. destruct (decide (g' = g)) as [->|Hne];
        [reflexivity|]. destruct (Hh g'). exists k'.
      cbn [set_gstate gstate] in *.
      rewrite lookup_insert_ne in Hk' by congruence.
      rewrite lookup_insert_ne by congruence. exact Hk'. }
    apply (linear_take fut (set_gstate g GDead w)); try assumption.
    + intros f' _. reflexivity.
    + intros g' f' Hne [k' Hk']. exists k'. cbn [set_gstate gstate] in *.
      destruct (decide (g' = g)) as [->|Hg'].
      * rewrite lookup_insert_eq in Hk'. congruence.
      * rewrite lookup_insert_ne in Hk' by congruence.
        rewrite lookup_insert_ne by congruence. exact Hk'.
    + intros f' _. reflexivity.
    + change (mentions fut (set_gstate g (GWaiting fut k) w))
        with (mentions fut (set_gstate g GDead w)). lia.
    + intros _ _. exact Hm.
    + intros g1 g2 H1 H2. rewrite (Hg g1 H1), (Hg g2 H2). reflexivity.
Qed.

Lemma _green_run_exit_linear g w : linear w → linear (_green_run_exit g w).2.
Proof.
  intros H. unfold _green_run_exit. cbn [snd].
  apply linear_gstate_plain; [reflexivity|].
  set (w1 := set_greenlets (_greenlets w ∖ {[g]}) w).
  assert (H1 : linear w1) by exact H. clearbody w1.
  destruct (decide (_greenlets w1 = ∅));
    [|apply _put_linear; [discriminate|exact H1]].
  destruct (_waiter w1) as [f|] eqn:Hw; [|exact H1].
  pose proof H1 as (L1 & L2 & L3 & L4).
  assert (Hmf : ∀ f', mentions f' w1
                = (mentions f' (set_waiter None (set_result f VNone w1))
                   + if decide (f = f') then 1 else 0)%nat).
  { intros f'. unfold mentions. wsimpl. rewrite Hw.
    rewrite (decide_False (P := None = Some f')) by discriminate.
    destruct (decide (f = f')) as [->|Hne].
    - rewrite (decide_True (P := Some f' = Some f')) by reflexivity. lia.
    - rewrite (decide_False (P := Some f = Some f')) by congruence. lia. }
  revert H1. apply linear_mono.
  - intros f'. rewrite (Hmf f'). lia.
  - intros g' f' Hheld. exact Hheld.
  - intros f' Hf'. wsimpl. apply lookup_insert_ne. intros ->.
    specialize (Hmf f'). rewrite decide_True in Hmf by reflexivity.
    destruct Hf' as [Hpos|[g' Hheld]].
    + specialize (L1 f'). lia.
    + specialize (L2 g' f' Hheld). lia.
Qed.

Lemma greenlet_switch_linear g x w :
  (∀ fut c, x = ArgTask (Some (fut, c)) →
            unreferenced fut w ∧ futures w !! fut = Some Pending) →
  linear w → linear (greenlet_switch g x w).2.
Proof.
  intros Hx H. unfold greenlet_switch.
  destruct (gstate w !! g) as [[|fut k|]|] eqn:Hg;
    destruct x as [[[fut' c]|]|v]; cbn [snd]; try exact H.
  - destruct (Hx fut' c eq_refl) as [Hu Hp].
    apply run_func_linear; [|apply untouched_gstate; [discriminate|]|];
      [apply linear_gstate_plain; [reflexivity|]|..]; assumption.
  - apply _green_run_exit_linear, H.
  - destruct (held_release g fut k w H Hg) as (H1 & Hu & Hp).
    apply run_func_linear; assumption.
Qed.

Lemma yield_from_linear a g w : linear w → linear (yield_from a g w).
Proof.
  intros H. unfold yield_from. destruct (awaitables w !! a); [|exact H].
  apply linear_call_soon_plain; [reflexivity|exact H].
Qed.

Lemma _green_task_loop_linear g r w :
  linear w → linear (_green_task_loop g r w).
Proof.
  intros H. unfold _green_task_loop.
  destruct r as [[| | |a]|e]; try exact H. apply yield_from_linear, H.
Qed.

Lemma _green_task_linear g t w :
  (∀ f, task_future t = Some f →
        unreferenced f w ∧ futures w !! f = Some Pending) →
  linear w → linear (_green_task g t w).
Proof.
  intros Ht H. unfold _green_task.
  pose proof (greenlet_switch_linear g (ArgTask t) w) as Hs.
  destruct (greenlet_switch g (ArgTask t) w) as [r w1]. cbn [snd] in Hs.
  apply _green_task_loop_linear, Hs; [|exact H].
  intros fut c [= ->]. apply Ht. reflexivity.
Qed.

Lemma _green_task_wakeup_linear g r w :
  linear w → linear (_green_task_wakeup g r w).
Proof.
  intros H. unfold _green_task_wakeup. destruct r as [v|e]; [|exact H].
  pose proof (greenlet_switch_linear g (ArgValue v) w) as Hs.
  destruct (greenlet_switch g (ArgValue v) w) as [r w1]. cbn [snd] in Hs.
  apply _green_task_loop_linear, Hs; [discriminate|exact H].
Qed.

Lemma run_once_linear w : linear w → linear (run_once w).
Proof.
  intros H. unfold run_once.
  destruct (ready w) as [|cb rest] eqn:Hr; [exact H|].
  assert (Hm : ∀ f, mentions f w
               = (mentions f (set_ready rest w)
                  + if decide (cb_future cb = Some f) then 1 else 0)%nat).
  { intros f. unfold mentions. wsimpl. rewrite Hr.
    rewrite (count_cons (λ cb, cb_future cb = Some f)). lia. }
  assert (H1 : linear (set_ready rest w)).
  { revert H. apply linear_mono.
    - intros f. rewrite (Hm f). lia.
    - intros g f Hheld. exact Hheld.
    - intros f _. reflexivity. }
  destruct cb as [|g t|g r]; cbn [run_callback].
  - apply _check_queue_linear, H1.
  - apply _green_task_linear; [|exact H1].
    intros f Hf. destruct H as (L1 & L2 & L3 & L4).
    specialize (Hm f). cbn [cb_future] in Hm.
    rewrite (decide_True (P := task_future t = Some f)) in Hm by exact Hf.
    split; [|apply L4; left; lia].
    apply unreferenced_mentions. split; [specialize (L1 f); lia|].
    intros g' Hheld. specialize (L2 g' f Hheld). lia.
  - apply _green_task_wakeup_linear, H1.
Qed.

Lemma settle_linear a r w : linear w → linear (settle a r w).
Proof.
  intros H. unfold settle. destruct (awaitables w !! a); [exact H|].
  revert H. apply linear_mono.
  - intros f. unfold mentions. wsimpl. rewrite filter_app, length_app.
    match goal with |- context [filter ?P (map ?h ?l)] =>
      assert (Hz : length (filter P (map h l)) = 0%nat) end.
    { apply (count_zero (λ cb, cb_future cb = Some f)).
      apply Forall_forall. intros cb Hin. apply list_elem_of_fmap in Hin.
      destruct Hin as (b & -> & _). discriminate. }
    rewrite Hz. lia.
  - intros g f Hheld. exact Hheld.
  - intros f _. reflexivity.
Qed.

Lemma new_future_linear w :
  linear w → fresh_ids w →
  linear (new_future w).2 ∧
  unreferenced (next_fid w) (new_future w).2 ∧
  futures (new_future w).2 !! next_fid w = Some Pending.
Proof.
  intros H Hfresh. destruct (Hfresh (next_fid w) (Nat.le_refl _)) as [Hu _].
  unfold new_future. cbn [snd]. split; [|split].
  - exact (linear_future (next_fid w) Pending w Hu H).
  - exact Hu.
  - wsimpl. apply lookup_insert_eq.
Qed.

Lemma submit_linear c w :
  linear w → fresh_ids w → linear (submit c w).2.
Proof.
  intros H Hfresh. unfold submit. destruct (_shutdown w); [exact H|].
  destruct (new_future_linear w H Hfresh) as (H1 & Hu & Hp).
  cbn [new_future fst snd] in *. apply _put_linear; [|exact H1].
  intros f [= <-]. split; [exact Hu|exact Hp].
Qed.

Lemma shutdown_linear b w :
  linear w → fresh_ids w → linear (shutdown b w).2.
Proof.
  intros H Hfresh. unfold shutdown.
  set (w1 := _put None (set_shutdown true w)).
  assert (H1 : linear w1).
  { apply _put_linear; [discriminate|exact H]. }
  destruct b; [|exact H1].
  assert (Hn : next_fid w1 = next_fid w)
    by apply (_put_next_fid None (set_shutdown true w)).
  destruct (Hfresh (next_fid w) (Nat.le_refl _)) as [Hu Hnone].
  destruct (_put_untouched (next_fid w) None (set_shutdown true w)
              ltac:(discriminate) Hu) as (Hu1 & Hf1 & _).
  fold w1 in Hu1, Hf1. clearbody w1.
  cbn [new_future fst snd]. rewrite Hn.
  pose proof (proj1 (unreferenced_mentions _ _) Hu1) as [Hm Hh].
  apply (linear_take (next_fid w) w1); try assumption.
  - wsimpl. apply lookup_insert_eq.
  - intros f' Hne. unfold mentions. wsimpl.
    rewrite (decide_False (P := Some (next_fid w) = Some f')) by congruence.
    lia.
  - intros g f' _ Hheld. exact Hheld.
  - intros f' Hne. wsimpl. apply lookup_insert_ne. congruence.
  - revert Hm. unfold mentions. wsimpl.
    rewrite (decide_True (P := Some (next_fid w) = Some (next_fid w)))
      by reflexivity.
    lia.
  - intros g Hheld. destruct (Hh g Hheld).
  - intros g1 g2 Hheld. destruct (Hh g1 Hheld).
Qed.

Lemma apply_op_linear o w :
  linear w → fresh_ids w → linear (apply_op o w).
Proof.
  intros H Hfresh. destruct o as [c|b| |a r]; cbn [apply_op].
  - apply submit_linear; assumption.
  - apply shutdown_linear; assumption.
  - apply run_once_linear, H.
  - apply settle_linear, H.
Qed.

Lemma __init___linear max_workers : linear (__init__ max_workers).
Proof.
  assert (Hm : ∀ f, mentions f (__init__ max_workers) = 0%nat).
  { intros f. unfold mentions, __init__. wsimpl. rewrite !filter_nil.
    rewrite (decide_False (P := None = Some f)) by discriminate.
    reflexivity. }
  split; [|split; [|split]].
  - intros f. rewrite Hm. lia.
  - intros g f [k Hk]. discriminate.
  - intros g1 g2 f [k Hk]. discriminate.
  - intros f [H|[g [k Hk]]]; [rewrite Hm in H; lia|discriminate].
Qed.

Lemma done_stays_done f r ops : ∀ w,
  linear w → fresh_ids w →
  futures w !! f = Some (Done r) →
  futures (run_ops ops w) !! f = Some (Done r).
Proof.
  induction ops as [|o ops IH]; intros w H Hfresh Hf; [exact Hf|].
  cbn. apply IH;
    [apply apply_op_linear; assumption|apply apply_op_fresh_ids, Hfresh|].
  assert (Hu : unreferenced f w).
  { destruct H as (L1 & L2 & L3 & L4). apply unreferenced_mentions.
    split.
    - destruct (mentions f w) eqn:Hm; [reflexivity|].
      rewrite L4 in Hf by (left; lia). discriminate.
    - intros g Hheld. rewrite L4 in Hf by (right; exists g; exact Hheld).
      discriminate. }
  assert (Hne : f ≠ next_fid w).
  { intros ->. destruct (Hfresh (next_fid w) (Nat.le_refl _)) as [_ Hnone].
    congruence. }
  destruct (apply_op_untouched f o w Hne Hu) as (_ & Hsame & _).
  congruence.
Qed.

(** X15. A future of the pool is resolved at most once: after every
    sequence of operations on a new pool, a future that holds a result
    or an exception holds it for good, whatever happens to the pool
    afterwards.  No task and no greenlet still holds a future that is
    done, so [set_result] and [set_exception] only ever meet pending
    futures. *)
Theorem future_is_resolved_once max_workers ops ops' f r :
  let w := run_ops ops (__init__ max_workers) in
  future_state w f = Done r →
  future_state (run_ops ops' w) f = Done r ∧ unreferenced f (run_ops ops' w).
Proof.
  intros w Hdone.
  assert (Hf : futures w !! f = Some (Done r)).
  { unfold future_state in Hdone. destruct (futures w !! f) as [s|];
      cbn in Hdone; [congruence|discriminate]. }
  assert (Hlin : ∀ l, linear (run_ops l (__init__ max_workers))
                      ∧ fresh_ids (run_ops l (__init__ max_workers))).
  { intros l. split; [|apply run_ops_fresh_ids, __init___fresh_ids].
    induction l as [|o l IH] using rev_ind; [apply __init___linear|].
    rewrite run_ops_app. cbn. apply apply_op_linear; [exact IH|].
    apply run_ops_fresh_ids, __init___fresh_ids. }
  destruct (Hlin ops) as [H Hfresh]. fold w in H, Hfresh.
  pose proof (done_stays_done f r ops' w H Hfresh Hf) as Hf'.
  split; [unfold future_state; rewrite Hf'; reflexivity|].
  destruct (Hlin (ops ++ ops')) as [(L1 & L2 & L3 & L4) _].
  rewrite run_ops_app in L1, L2, L3, L4. fold w in L1, L2, L3, L4.
  apply unreferenced_mentions. split.
  - destruct (mentions f (run_ops ops' w)) eqn:Hm; [reflexivity|].
    rewrite L4 in Hf' by (left; lia). discriminate.
  - intros g Hheld. rewrite L4 in Hf' by (right; exists g; exact Hheld).
    discriminate.
Qed.

(** ** The further theorems at concrete inputs *)

Lemma available_greenlets_are_idle_witness :
  let w := run_ops [OpSubmit (Return VNone); OpLoop; OpLoop]
             (__init__ (Some 2)) in
  0%nat ∈ _available w ∧
  0%nat ∈ _greenlets w ∧ gstate w !! 0%nat = Some GIdle ∧ 0%nat ∉ engaged w.
Proof.
  intros w.
  assert (H : 0%nat ∈ _available w).
  { match goal with |- ?P => apply (bool_decide_unpack P) end.
    vm_compute. exact I. }
  split; [exact H|].
  apply (available_greenlets_are_idle (Some 2)
           [OpSubmit (Return VNone); OpLoop; OpLoop] 0%nat H).
Defined.

Lemma loop_switches_into_suspended_greenlets_witness :
  let w := run_ops [OpSubmit (Return VNone)] (__init__ (Some 2)) in
  let cb := CbStart 0%nat (Some (0%nat, Return VNone)) in
  cb ∈ ready w ∧ 0%nat ∈ _greenlets w ∧ gstate w !! 0%nat = Some GIdle.
Proof.
  intros w cb.
  assert (H : cb ∈ ready w) by (right; left).
  split; [exact H|].
  apply (proj2 (loop_switches_into_suspended_greenlets (Some 2)
                  [OpSubmit (Return VNone)]) cb H).
Defined.

Lemma submit_with_capacity_witness :
  let w := run_ops [] (__init__ (Some 2)) in
  _shutdown w = false ∧ has_capacity w ∧
  (submit (Return VNone) w).1 = Ok 0%nat.
Proof.
  intros w.
  assert (H : has_capacity w) by (left; reflexivity).
  split; [reflexivity|]. split; [exact H|].
  apply (proj1 (submit_with_capacity (Some 2) [] (Return VNone)
                  eq_refl H)).
Defined.

Lemma submit_without_capacity_witness :
  let sleep := Wait (VAwaitable 0%nat) (λ _, Return VNone) in
  let w := run_ops [OpSubmit sleep] (__init__ (Some 1)) in
  _shutdown w = false ∧ ¬ has_capacity w ∧
  future_state (run_ops [OpLoop; OpLoop] (submit (Return VNone) w).2) 1%nat
  = Pending.
Proof.
  intros sleep w.
  assert (H : ¬ has_capacity w).
  { intros [H|H]; [vm_compute in H; discriminate H|].
    apply H. match goal with |- ?P => apply (bool_decide_unpack P) end.
    vm_compute. exact I. }
  split; [reflexivity|]. split; [exact H|].
  apply (proj2 (proj2 (proj2 (proj2
           (submit_without_capacity (Some 1) [OpSubmit sleep] (Return VNone)
              [OpLoop; OpLoop] eq_refl H))))).
Defined.

Lemma run_in_greenlet_ends_as_callable_witness :
  let c := Wait (VAwaitable 0%nat) (λ v, Return v) in
  finishes c [VInt 1] = Some (Ok (VInt 1)) ∧
  waits_for_futures c [VInt 1] = true ∧
  rig_feed 0%nat [Ok (VInt 1)] (run_in_greenlet 0%nat c) = RigReturn (VInt 1).
Proof.
  intros c. split; [reflexivity|]. split; [reflexivity|].
  apply (run_in_greenlet_ends_as_callable 0%nat c [VInt 1] (Ok (VInt 1))
           eq_refl eq_refl).
  intros v [= <-]. reflexivity.
Defined.

Lemma run_in_greenlet_returns_plain_wait_witness :
  let c := Wait (VInt 3) (λ _, Return VNone) in
  first_plain_wait c [] = Some (VInt 3) ∧
  rig_feed 0%nat [Ok VNone] (run_in_greenlet 0%nat c) = RigReturn (VInt 3).
Proof.
  intros c. split; [reflexivity|].
  apply (run_in_greenlet_returns_plain_wait 0%nat c [] (VInt 3) [Ok VNone]
           eq_refl).
Defined.

Lemma async_worker_counts_requests_witness :
  let rq := WorkersAsync.Request (Ok ()) (Ok ())
              (Ok (WorkersAsync.Body (Ok ()))) false (Ok ()) (Ok ()) in
  let w := WorkersAsync.Worker 0 2 true false [] in
  WorkersAsync.nr w < WorkersAsync.max_requests w ∧
  WorkersAsync.alive w = true ∧
  WorkersAsync.nr (WorkersAsync.serve [rq; rq; rq] w) = 3 ∧
  WorkersAsync.force_closes (WorkersAsync.serve [rq; rq; rq] w) = 1%nat.
Proof.
  intros rq w.
  assert (H : WorkersAsync.nr w < WorkersAsync.max_requests w)
    by reflexivity.
  split; [exact H|]. split; [reflexivity|].
  pose proof (async_worker_counts_requests [rq; rq; rq] w H eq_refl)
    as (H1 & _ & H3).
  split; [exact H1|exact H3].
Defined.

Lemma handle_contains_exceptions_witness :
  let no_socket_error : exn → option Z := λ _, None in
  let c := WorkersAsync.Connection (Ok ()) [] (Err keyboard_interrupt)
             (Ok ()) (Ok ()) in
  let s := WorkersAsync.Server (WorkersAsync.Worker 0 2 true false []) [] in
  (WorkersAsync.handle no_socket_error c s).1 = Err keyboard_interrupt ∧
  (WorkersAsync.cn_close c = Err keyboard_interrupt ∨
   (is_Exception keyboard_interrupt = false ∧
    no_socket_error keyboard_interrupt = None)).
Proof.
  intros no_socket_error c s. split; [reflexivity|].
  apply (handle_contains_exceptions no_socket_error c s keyboard_interrupt
           eq_refl).
Defined.

Lemma handle_serves_requests_in_order_witness :
  let no_socket_error : exn → option Z := λ _, None in
  let close := WorkersAsync.Request (Ok ()) (Ok ())
                 (Ok (WorkersAsync.Body (Ok ()))) true (Ok ()) (Ok ()) in
  let c := WorkersAsync.Connection (Ok ()) [close; close] (Ok ())
             (Ok ()) (Ok ()) in
  let s := WorkersAsync.Server (WorkersAsync.Worker 0 9 true false []) [] in
  WorkersAsync.cn_parser c = Ok () ∧
  ∃ done rest,
    WorkersAsync.cn_requests c = done ++ rest ∧
    WorkersAsync.sv_worker (WorkersAsync.handle no_socket_error c s).2
    = WorkersAsync.serve done (WorkersAsync.sv_worker s).
Proof.
  intros no_socket_error close c s. split; [reflexivity|].
  destruct (handle_serves_requests_in_order no_socket_error c s eq_refl)
    as (done & rest & H1 & H2 & _).
  exists done, rest. split; [exact H1|exact H2].
Defined.

Lemma worker_runs_until_threshold_or_stop_witness :
  let c := WorkersBase.Config (Some 2) (λ _, Ok ()) (λ _, Ok ()) (Ok ()) in
  let w := WorkersBase.Worker c (λ _, Ok ()) 0 2
             (Some WorkersBase.LoopRunning) [] [] in
  let cs := [WorkersBase.CallHandleRequest 1%nat; WorkersBase.CallStop] in
  WorkersBase.is_running w = true ∧
  WorkersBase.max_requests w ≠ 0 ∧
  WorkersBase.nr w < WorkersBase.max_requests w ∧
  WorkersBase.nr (WorkersBase.invoke_all cs w) = 1.
Proof.
  intros c w cs.
  assert (H0 : WorkersBase.max_requests w ≠ 0) by discriminate.
  assert (H1 : WorkersBase.nr w < WorkersBase.max_requests w) by reflexivity.
  split; [reflexivity|]. split; [exact H0|]. split; [exact H1|].
  apply (proj1 (worker_runs_until_threshold_or_stop cs w eq_refl H0 H1)).
Defined.

Lemma shutdown_drains_idle_pool_witness :
  let ops := [OpSubmit (Return VNone); OpLoop; OpLoop] in
  let w := run_ops ops (__init__ (Some 2)) in
  _greenlets w ≠ ∅ ∧
  _available w = _greenlets w ∧
  ∃ f n,
    (shutdown true w).1 = Some f ∧
    let w' := run_ops (repeat OpLoop n) (shutdown true w).2 in
    _greenlets w' = ∅ ∧ future_state w' f = Done (Ok VNone).
Proof.
  intros ops w.
  assert (H1 : _greenlets w ≠ ∅).
  { match goal with |- ?P => apply (bool_decide_unpack P) end.
    vm_compute. exact I. }
  assert (H2 : _available w = _greenlets w).
  { match goal with |- ?P => apply (bool_decide_unpack P) end.
    vm_compute. exact I. }
  split; [exact H1|]. split; [exact H2|].
  apply (shutdown_drains_idle_pool (Some 2) ops H1 H2).
Defined.

Lemma future_is_resolved_once_witness :
  let ops := [OpSubmit (Return (VInt 7)); OpLoop; OpLoop] in
  let ops' := [OpSubmit (Return VNone); OpLoop; OpLoop; OpShutdown true] in
  let w := run_ops ops (__init__ (Some 2)) in
  future_state w 0%nat = Done (Ok (VInt 7)) ∧
  future_state (run_ops ops' w) 0%nat = Done (Ok (VInt 7)).
Proof.
  intros ops ops' w.
  assert (H : future_state w 0%nat = Done (Ok (VInt 7)))
    by (vm_compute; reflexivity).
  split; [exact H|].
  apply (proj1 (future_is_resolved_once (Some 2) ops ops' 0%nat
                  (Ok (VInt 7)) H)).
Defined.

